(** * Nonogrammeroo: the board model, the CP compilation and the renderer

    A shallow embedding of [nonogrammeroo.py].  Python integers are [Z],
    Python lists are [list], Python strings are [string]; a Python call
    that can raise returns a [result]; the CP model that [solve] builds by
    calling [model.NewIntVar], [model.NewBoolVar], [model.Add] and
    [model.AddElement] is an explicit [CpModel] value threaded through the
    construction.  The library holds its integers in 64 bits: a call that
    is handed an integer it does not take raises, and [solve] with it. *)

From Stdlib Require Import ZArith List String Ascii Bool Lia.
From Stdlib Require Import DecimalString DecimalZ.
Import ListNotations.
Open Scope string_scope.
Open Scope list_scope.
Open Scope Z_scope.

(** ** Python exceptions *)

(** [OrtoolsError] stands for the exception that a call of the CP library
    raises when it is handed an integer it does not take; the program
    catches nothing, so the exception leaves [solve] as it is. *)
Inductive exn : Type :=
| IndexError
| ValueError
| OrtoolsError.

Inductive result (A : Type) : Type :=
| Ok (a : A)
| Raise (e : exn).
Arguments Ok {A} a.
Arguments Raise {A} e.

Definition bind {A B : Type} (r : result A) (k : A -> result B) : result B :=
  match r with
  | Ok a => k a
  | Raise e => Raise e
  end.

Notation "x <- r ;; k" := (bind r (fun x => k))
  (at level 61, r at next level, right associativity).

(** ** Python built-ins used by the program *)

(** [range( n )]: [0, 1, ..., n - 1], empty when [n <= 0]. *)
Definition range (n : Z) : list Z := map Z.of_nat (seq 0 (Z.to_nat n)).

(** [len( l )]. *)
Definition len {A : Type} (l : list A) : Z := Z.of_nat (List.length l).

(** [sum( l )]. *)
Definition sum (l : list Z) : Z := fold_right Z.add 0 l.

(** [l[ i ]], with Python's negative indices and its [IndexError]. *)
Definition getitem {A : Type} (l : list A) (i : Z) : result A :=
  let j := if i <? 0 then i + len l else i in
  if j <? 0 then Raise IndexError
  else match nth_error l (Z.to_nat j) with
       | Some a => Ok a
       | None => Raise IndexError
       end.

(** [l.count( v )] on a list of integers. *)
Definition count (l : list Z) (v : Z) : Z :=
  len (filter (fun u => u =? v) l).

(** [max( l )]: [ValueError] on the empty list. *)
Definition py_max (l : list Z) : result Z :=
  match l with
  | [] => Raise ValueError
  | a :: l' => Ok (fold_left Z.max l' a)
  end.

(** [str( n )]: the decimal numeral, with a leading [-] when negative. *)
Definition str (n : Z) : string := NilZero.string_of_int (Z.to_int n).

(** [[ f( a ) for a in l ]] when [f] can raise: left to right, the first
    exception wins. *)
Fixpoint mapM {A B : Type} (f : A -> result B) (l : list A) : result (list B) :=
  match l with
  | [] => Ok []
  | a :: l' => b <- f a ;; bs <- mapM f l' ;; Ok (b :: bs)
  end.

(** [[ a for a in l if p( a ) ]] when [p] can raise. *)
Fixpoint filterM {A : Type} (p : A -> result bool) (l : list A) : result (list A) :=
  match l with
  | [] => Ok []
  | a :: l' =>
      b <- p a ;; rest <- filterM p l' ;; Ok (if b then a :: rest else rest)
  end.

(** ** Data model *)

Definition CELL_EMPTY : string := "_".
Definition CELL_FULL : string := "O".

(** [class Cell]; [Cell()] is the empty cell. *)
Record Cell : Type := { value : bool }.
Definition Cell_init : Cell := {| value := false |}.

(** [class Coordinates]. *)
Record Coordinates : Type := { x : Z; y : Z }.

(** [class Region]: [Region( indexes )] starts with the constraint [[]]. *)
Record Region : Type := { region : list Coordinates; constraint : list Z }.
Definition Region_init (indexes : list Coordinates) : Region :=
  {| region := indexes; constraint := [] |}.

(** A CP variable as the program sees it: its index in the model and its
    name ([IntVar.Index()], [IntVar.Name()]). *)
Record IntVar : Type := { Index : nat; Name : string }.

(** One stored solution: [[ ( var, self.Value( var ) ) for var in variables ]]. *)
Definition Solution : Type := list (IntVar * Z).

(** [class NonogramBoard]. *)
Record NonogramBoard : Type := {
  size : Z;
  board : list (list Cell);
  regions : list Region;
  solutions : list Solution
}.

(** [Region.is_row]: every point has the [x] of the first one. *)
Definition is_row (self : Region) : result bool :=
  let xs := map x (region self) in
  first <- getitem (region self) 0 ;;
  Ok (count xs (x first) =? len (region self)).

(** [Region.is_column]: every point has the [y] of the first one. *)
Definition is_column (self : Region) : result bool :=
  let ys := map y (region self) in
  first <- getitem (region self) 0 ;;
  Ok (count ys (y first) =? len (region self)).

(** The two regions appended at step [i] of the constructor's loop. *)
Definition row_region (size i : Z) : Region :=
  Region_init (map (fun j => {| x := i; y := j |}) (range size)).
Definition column_region (size i : Z) : Region :=
  Region_init (map (fun j => {| x := j; y := i |}) (range size)).

(** The list [self._regions] after the constructor's loop. *)
Definition constructed_regions (size : Z) : list Region :=
  flat_map (fun i => [row_region size i; column_region size i]) (range size).

(** [NonogramBoard.__init__]: there is no check of [size]; the grid is
    [[ [ Cell() ] * size ] * size], which is empty when [size <= 0].  In
    Python the rows of that grid are one list object and its cells one
    [Cell]; the program never writes to the grid or to a cell, so the grid
    is modelled by its value. *)
Definition NonogramBoard_init (size : Z) : result NonogramBoard :=
  Ok {| size := size;
        board := repeat (repeat Cell_init (Z.to_nat size)) (Z.to_nat size);
        regions := constructed_regions size;
        solutions := [] |}.

(** The regions of a list are Python objects: a selection made by a list
    comprehension holds references, modelled as positions in
    [self.regions]. *)
Fixpoint select_from (p : Region -> result bool) (k : nat) (rs : list Region)
  : result (list nat) :=
  match rs with
  | [] => Ok []
  | r :: rs' =>
      b <- p r ;; rest <- select_from p (S k) rs' ;;
      Ok (if b then k :: rest else rest)
  end.

(** [region.is_row() and region.region[ 0 ].x == index]. *)
Definition row_at (index : Z) (r : Region) : result bool :=
  b <- is_row r ;;
  if b then (first <- getitem (region r) 0 ;; Ok (x first =? index)) else Ok false.

(** [region.is_column() and region.region[ 0 ].y == index]. *)
Definition column_at (index : Z) (r : Region) : result bool :=
  b <- is_column r ;;
  if b then (first <- getitem (region r) 0 ;; Ok (y first =? index)) else Ok false.

(** [region.constraint = constraint] on the region at position [k]. *)
Fixpoint set_constraint (rs : list Region) (k : nat) (c : list Z) : list Region :=
  match rs, k with
  | [], _ => []
  | r :: rs', O => {| region := region r; constraint := c |} :: rs'
  | r :: rs', S k' => r :: set_constraint rs' k' c
  end.

(** [NonogramBoard.constraint_of]. *)
Definition constraint_of (self : NonogramBoard) (direction : string) (index : Z)
    (c : list Z) : result NonogramBoard :=
  if negb ((0 <=? index) && (index <? size self)) then Raise IndexError
  else
    selected <- (if String.eqb direction "row"
                 then select_from (row_at index) 0 (regions self)
                 else select_from (column_at index) 0 (regions self)) ;;
    k <- getitem selected 0 ;;
    Ok {| size := size self;
          board := board self;
          regions := set_constraint (regions self) k c;
          solutions := solutions self |}.

(** ** Renderer *)

(** [s * n] on strings, and the paddings of [str.format]: a string is
    left-aligned by default, an integer and [>] align to the right; a text
    longer than the width is left as it is.  [print] formats only after
    both widths are computed, and then they are at least 1. *)
Definition str_mul (s : string) (n : Z) : string :=
  String.concat "" (repeat s (Z.to_nat n)).
Definition str_len (s : string) : Z := Z.of_nat (String.length s).
Definition ljust (s : string) (width : Z) : string :=
  String.append s (str_mul " " (width - str_len s)).
Definition rjust (s : string) (width : Z) : string :=
  String.append (str_mul " " (width - str_len s)) s.
Definition newline : string := String (ascii_of_nat 10) EmptyString.

Notation "s +++ t" := (String.append s t) (at level 60, right associativity).

(** [[ max( region.constraint ) for region in self.regions if region.is_column() ]] *)
Fixpoint column_maxima (rs : list Region) : result (list Z) :=
  match rs with
  | [] => Ok []
  | r :: rs' =>
      b <- is_column r ;;
      if b
      then (m <- py_max (constraint r) ;; rest <- column_maxima rs' ;; Ok (m :: rest))
      else column_maxima rs'
  end.

(** [left_space], line 288. *)
Definition left_space_of (self : NonogramBoard) : result Z :=
  m <- py_max (map (fun r => len (constraint r)) (regions self)) ;;
  Ok (m * 2).

(** [table_space], line 289. *)
Definition table_space_of (self : NonogramBoard) : result Z :=
  ms <- column_maxima (regions self) ;;
  m <- py_max ms ;;
  Ok (str_len (str m)).

(** The text of one column region on line [index] of the column header. *)
Definition column_entry (max_constraint index table_space : Z) (r : Region)
  : result string :=
  if len (constraint r) <? max_constraint
  then
    if max_constraint - index <=? len (constraint r)
    then (msg <- getitem (constraint r)
                   (Z.abs (max_constraint - len (constraint r) - index)) ;;
          Ok (rjust (str msg) table_space +++ " "))
    else Ok (ljust " " table_space +++ " ")
  else (msg <- getitem (constraint r) index ;;
        Ok (rjust (str msg) table_space +++ " ")).

(** One line of the column header. *)
Definition column_line (self : NonogramBoard)
    (left_space table_space max_constraint index : Z) : result string :=
  columns <- filterM is_column (regions self) ;;
  entries <- mapM (column_entry max_constraint index table_space) columns ;;
  Ok (ljust "" left_space +++ " | " +++ String.concat "" entries +++ newline).

(** The loop over the rows: [row_index] counts the row regions met so far. *)
Fixpoint row_lines (data : list (list Cell)) (left_space table_space : Z)
    (row_index : Z) (rs : list Region) : result string :=
  match rs with
  | [] => Ok ""
  | r :: rs' =>
      b <- is_row r ;;
      if b
      then
        (cells <- getitem data row_index ;;
         let line :=
           rjust (String.concat " " (map str (constraint r))) left_space
           +++ " | "
           +++ String.concat " "
                 (map (fun el => rjust (if value el then CELL_FULL else CELL_EMPTY)
                                       table_space) cells) in
         rest <- row_lines data left_space table_space (row_index + 1) rs' ;;
         Ok (line +++ newline +++ rest))
      else row_lines data left_space table_space row_index rs'
  end.

(** [NonogramBoard.print]. *)
Definition print (self : NonogramBoard) (data : option (list (list Cell)))
  : result string :=
  let banner :=
    match data with
    | None => " *** Nonogram " +++ str (size self) +++ "x" +++ str (size self)
              +++ " board ***" +++ newline +++ newline
    | Some _ => ""
    end in
  let data := match data with None => board self | Some d => d end in
  left_space <- left_space_of self ;;
  table_space <- table_space_of self ;;
  columns <- filterM is_column (regions self) ;;
  max_constraint <- py_max (map (fun r => len (constraint r)) columns) ;;
  header <- mapM (column_line self left_space table_space max_constraint)
                 (range max_constraint) ;;
  let divider :=
    str_mul "-" (left_space + size self * (table_space + 1) + 3) +++ newline in
  rows <- row_lines data left_space table_space 0 (regions self) ;;
  Ok (banner +++ String.concat "" header +++ divider +++ rows).

(** ** The CP model built through [ortools.sat.python.cp_model] *)

(** A declared variable: its name and its domain [[lb, ub]]. *)
Record VarProto : Type := { var_name : string; var_lb : Z; var_ub : Z }.

(** [LinearExpr.Sum( vars ) + constant]. *)
Record LinearExpr : Type := { terms : list IntVar; offset : Z }.

Definition LinearExpr_Sum (vars : list IntVar) : LinearExpr :=
  {| terms := vars; offset := 0 |}.
Definition expr_var (v : IntVar) : LinearExpr := {| terms := [v]; offset := 0 |}.
Definition expr_const (c : Z) : LinearExpr := {| terms := []; offset := c |}.
Definition expr_plus (e : LinearExpr) (c : Z) : LinearExpr :=
  {| terms := terms e; offset := offset e + c |}.

(** What the program posts: [model.Add( lhs == rhs )] and
    [model.AddElement( index, variables, target )]. *)
Inductive Constraint : Type :=
| LinearEq (lhs rhs : LinearExpr)
| Element (index : IntVar) (vars : list IntVar) (target : Z).

Record CpModel : Type := {
  variables : list VarProto;
  constraints : list Constraint
}.

(** [cp_model.CpModel()]. *)
Definition CpModel_init : CpModel := {| variables := []; constraints := [] |}.

(** Building a model: each call reads the model and extends it. *)
Definition Build (A : Type) : Type := CpModel -> A * CpModel.

Definition ret {A : Type} (a : A) : Build A := fun m => (a, m).
Definition bindB {A B : Type} (c : Build A) (k : A -> Build B) : Build B :=
  fun m => let (a, m') := c m in k a m'.

Notation "x <~ c ;; k" := (bindB c (fun x => k))
  (at level 61, c at next level, right associativity).

Definition NewIntVar (lb ub : Z) (name : string) : Build IntVar :=
  fun m =>
    ({| Index := List.length (variables m); Name := name |},
     {| variables := variables m ++ [{| var_name := name; var_lb := lb; var_ub := ub |}];
        constraints := constraints m |}).

Definition NewBoolVar (name : string) : Build IntVar := NewIntVar 0 1 name.

Definition Add (ct : Constraint) : Build unit :=
  fun m => (tt, {| variables := variables m; constraints := constraints m ++ [ct] |}).

Definition AddElement (index : IntVar) (vars : list IntVar) (target : Z) : Build unit :=
  Add (Element index vars target).

(** The integers of the library are 64-bit: the bounds of a variable and
    the integer added to an expression must lie in [[INT_MIN, INT_MAX]],
    and the integer of a comparison [expression == integer] strictly
    inside; a call with another integer raises.  The functions above build
    the model of the calls that are taken. *)
Definition INT_MIN : Z := - 2 ^ 63.
Definition INT_MAX : Z := 2 ^ 63 - 1.
Definition is_int64 (z : Z) : bool := (INT_MIN <=? z) && (z <=? INT_MAX).
Definition is_eq_operand (z : Z) : bool := (INT_MIN <? z) && (z <? INT_MAX).

(** A loop that collects what each step returns. *)
Fixpoint mapB {A B : Type} (f : A -> Build B) (l : list A) : Build (list B) :=
  match l with
  | [] => ret []
  | a :: l' => b <~ f a ;; bs <~ mapB f l' ;; ret (b :: bs)
  end.

(** ** [NonogramBoard.solve]: the compilation *)

(** Lines 196-200: one Boolean variable per cell, named [row-col]. *)
Definition new_cells (size : Z) : Build (list (list IntVar)) :=
  mapB (fun row =>
          mapB (fun col => NewBoolVar (str row +++ "-" +++ str col)) (range size))
       (range size).

(** The variables of the loop over [enumerate( region.constraint, start=1 )]. *)
Record SeqState : Type := {
  space_variables : list IntVar;
  seq_variables : list IntVar;
  seq_element : Z;
  seq_cum : Z
}.

(** Lines 228-236: the element variables of one sequence. *)
Fixpoint sequence_elements (size region_index : Z) (region_type : string)
    (offsets : list Z) (st : SeqState) : Build SeqState :=
  match offsets with
  | [] => ret st
  | i :: offsets' =>
      el <~ NewIntVar 0 size
              (str region_index +++ region_type +++ "-el_" +++ str (seq_element st)) ;;
      _ <~ Add (LinearEq (expr_var el)
                  (expr_plus (expr_plus (LinearExpr_Sum (space_variables st))
                                        (seq_cum st)) i)) ;;
      sequence_elements size region_index region_type offsets'
        {| space_variables := space_variables st;
           seq_variables := seq_variables st ++ [el];
           seq_element := seq_element st + 1;
           seq_cum := seq_cum st |}
  end.

(** Lines 227-247: the sequences of a constraint, each followed by its
    space variable. *)
Fixpoint sequences (size region_index : Z) (region_type : string)
    (space_max n_sequences seq_index : Z) (c : list Z) (st : SeqState)
  : Build SeqState :=
  match c with
  | [] => ret st
  | seq_length :: c' =>
      st1 <~ sequence_elements size region_index region_type (range seq_length) st ;;
      let min_space_domain := if seq_index =? n_sequences then 0 else 1 in
      space <~ NewIntVar min_space_domain (Z.max 1 space_max)
                 (str region_index +++ region_type +++ "-space_" +++ str seq_index) ;;
      sequences size region_index region_type space_max n_sequences (seq_index + 1) c'
        {| space_variables := space_variables st1 ++ [space];
           seq_variables := seq_variables st1;
           seq_element := seq_element st1;
           seq_cum := seq_cum st1 + seq_length |}
  end.

(** Lines 214-254: the model of one region over its cell variables; it
    returns [( space_variables, seq_variables )]. *)
Definition compile_region (size region_index : Z) (region_type : string)
    (region_variables : list IntVar) (c : list Z)
  : Build (list IntVar * list IntVar) :=
  _ <~ Add (LinearEq (LinearExpr_Sum region_variables) (expr_const (sum c))) ;;
  let space_max := size - sum c in
  space_0 <~ NewIntVar 0 space_max (str region_index +++ region_type +++ "-space_0") ;;
  st <~ sequences size region_index region_type space_max (len c) 1 c
          {| space_variables := [space_0]; seq_variables := [];
             seq_element := 0; seq_cum := 0 |} ;;
  _ <~ mapB (fun el_var => AddElement el_var region_variables 1) (seq_variables st) ;;
  _ <~ Add (LinearEq (LinearExpr_Sum (space_variables st)) (expr_const space_max)) ;;
  ret (space_variables st, seq_variables st).

(** The integers that the loop of lines 227-247 hands to the library: for
    a sequence that has an element, the bound [size] of the element
    variables, the offset [seq_cum] and the offsets [i] up to
    [seq_length - 1]. *)
Fixpoint sequences_taken (size seq_cum : Z) (c : list Z) : bool :=
  match c with
  | [] => true
  | seq_length :: c' =>
      (if 0 <? seq_length
       then is_int64 size && is_int64 seq_cum && is_int64 (seq_length - 1)
       else true)
      && sequences_taken size (seq_cum + seq_length) c'
  end.

(** Whether the library takes every integer of lines 214-254: the integers
    compared at lines 215 and 254, which are [sum( region.constraint )] and
    [space_max] (also the bound of the space variables), and those of the
    sequences. *)
Definition region_taken (size : Z) (c : list Z) : bool :=
  is_eq_operand (sum c) && is_eq_operand (size - sum c) && sequences_taken size 0 c.

(** Lines 205-212: the kind, the index and the cell variables of a region. *)
Definition region_view (cp_cell : list (list IntVar)) (r : Region)
  : result (string * Z * list IntVar) :=
  b <- is_row r ;;
  if b
  then (first <- getitem (region r) 0 ;;
        region_variables <- getitem cp_cell (x first) ;;
        Ok ("r", x first, region_variables))
  else (first <- getitem (region r) 0 ;;
        region_variables <- mapM (fun var => getitem var (y first)) cp_cell ;;
        Ok ("c", y first, region_variables)).

(** Lines 204-258: the loop over [self.regions]; [cp_region] collects the
    space and element variables.  The model of a region is built when the
    library takes its integers; otherwise one of its calls raises. *)
Fixpoint compile_regions (size : Z) (cp_cell : list (list IntVar))
    (rs : list Region) (collected : list IntVar) (model : CpModel)
  : result (list IntVar * CpModel) :=
  match rs with
  | [] => Ok (collected, model)
  | r :: rs' =>
      view <- region_view cp_cell r ;;
      let '(region_type, region_index, region_variables) := view in
      if region_taken size (constraint r)
      then
        let '((spaces, seqs), model') :=
          compile_region size region_index region_type region_variables
                         (constraint r) model in
        compile_regions size cp_cell rs' (collected ++ spaces ++ seqs) model'
      else Raise OrtoolsError
  end.

(** The compiled model, with the cell variables in row-major order and the
    region variables, as handed to [CpSolutionPrinter]. *)
Record Compiled : Type := {
  cp_model : CpModel;
  cp_cells : list IntVar;
  cp_region : list IntVar
}.

Definition compile (self : NonogramBoard) : result Compiled :=
  let (cp_cell, model0) := new_cells (size self) CpModel_init in
  out <- compile_regions (size self) cp_cell (regions self) [] model0 ;;
  Ok {| cp_model := snd out;
        cp_cells := List.concat cp_cell;
        cp_region := fst out |}.

(** ** Meaning of a model *)

(** An assignment gives each variable, by index, its value. *)
Definition Assignment : Type := list Z.

(** [self.Value( var )]. *)
Definition Value (a : Assignment) (v : IntVar) : Z := nth (Index v) a 0.

Definition eval (a : Assignment) (e : LinearExpr) : Z :=
  sum (map (Value a) (terms e)) + offset e.

(** [AddElement( index, vars, target )]: [vars[ index ] == target], the
    index being inside the list. *)
Definition holdsb (a : Assignment) (ct : Constraint) : bool :=
  match ct with
  | LinearEq lhs rhs => eval a lhs =? eval a rhs
  | Element index vars target =>
      (0 <=? Value a index) &&
      match nth_error vars (Z.to_nat (Value a index)) with
      | Some v => Value a v =? target
      | None => false
      end
  end.

Definition in_domain (p : VarProto) (v : Z) : bool :=
  (var_lb p <=? v) && (v <=? var_ub p).

Fixpoint in_domains (ps : list VarProto) (a : Assignment) : bool :=
  match ps, a with
  | [], [] => true
  | p :: ps', v :: a' => in_domain p v && in_domains ps' a'
  | _, _ => false
  end.

Definition satisfiesb (m : CpModel) (a : Assignment) : bool :=
  in_domains (variables m) a && forallb (holdsb a) (constraints m).

(** [a] gives every variable a value of its domain and every constraint
    holds. *)
Definition satisfies (m : CpModel) (a : Assignment) : Prop :=
  satisfiesb m a = true.

(** ** The solver and [solve] *)

(** [solver.SearchForAllSolutions( model, callback )] reports assignments,
    in some order. *)
Definition Solver : Type := CpModel -> list Assignment.

(** The solver's contract: it reports exactly the satisfying assignments. *)
Definition enumerates_all (search : Solver) : Prop :=
  forall m a, In a (search m) <-> satisfies m a.

(** [CpSolutionPrinter.on_solution_callback]. *)
Definition on_solution_callback (vars : list IntVar) (a : Assignment) : Solution :=
  map (fun var => (var, Value a var)) vars.

(** [NonogramBoard.solve]. *)
Definition solve (search : Solver) (self : NonogramBoard) : result NonogramBoard :=
  cm <- compile self ;;
  let found := map (on_solution_callback (cp_cells cm ++ cp_region cm))
                   (search (cp_model cm)) in
  Ok {| size := size self;
        board := board self;
        regions := regions self;
        solutions := found |}.

(** A reference solver: every assignment within the domains, filtered by
    the constraints. *)
Fixpoint zrange (lo : Z) (n : nat) : list Z :=
  match n with
  | O => []
  | S n' => lo :: zrange (lo + 1) n'
  end.

Fixpoint all_assignments (ps : list VarProto) : list Assignment :=
  match ps with
  | [] => [[]]
  | p :: ps' =>
      flat_map (fun v => map (cons v) (all_assignments ps'))
               (zrange (var_lb p) (Z.to_nat (var_ub p - var_lb p + 1)))
  end.

Definition brute_force : Solver :=
  fun m => filter (satisfiesb m) (all_assignments (variables m)).

(** ** [print_solutions]: a solution read back as a grid *)

Definition is_digit (c : ascii) : bool :=
  let n := nat_of_ascii c in (48 <=? n)%nat && (n <=? 57)%nat.

(** The text left after the leading decimal digits of [s]. *)
Fixpoint skip_digits (s : string) : string :=
  match s with
  | String c s' => if is_digit c then skip_digits s' else s
  | EmptyString => EmptyString
  end.

Definition starts_with_digit (s : string) : bool :=
  match s with
  | String c _ => is_digit c
  | EmptyString => false
  end.

(** [match( r"\d+-\d+", s )]: digits, a dash and a digit at the start of [s]. *)
Definition match_cell_name (s : string) : bool :=
  starts_with_digit s &&
  match skip_digits s with
  | String c rest => Ascii.eqb c "-" && starts_with_digit rest
  | EmptyString => false
  end.

(** [s.split( "-" )[ 0 ]]: the text before the first dash. *)
Fixpoint split_dash_head (s : string) : string :=
  match s with
  | String c s' => if Ascii.eqb c "-" then EmptyString else String c (split_dash_head s')
  | EmptyString => EmptyString
  end.

(** [int( s )] on a text of decimal digits; [ValueError] otherwise. *)
Definition py_int (s : string) : result Z :=
  match NilZero.uint_of_string s with
  | Some d => Ok (Z.of_uint d)
  | None => Raise ValueError
  end.

(** The filter of lines 352-354 on one entry of a solution. *)
Definition cell_of_row (i : Z) (cell_value : IntVar * Z) : result bool :=
  if match_cell_name (Name (fst cell_value))
  then (row <- py_int (split_dash_head (Name (fst cell_value))) ;; Ok (row =? i))
  else Ok false.

(** [Cell( bool( cell_value[ 1 ] ) )]. *)
Definition cell_of_value (cell_value : IntVar * Z) : Cell :=
  {| value := negb (snd cell_value =? 0) |}.

(** Lines 350-354: the grid recomposed from a stored solution. *)
Definition solution_data (size : Z) (solution : Solution) : result (list (list Cell)) :=
  mapM (fun i => kept <- filterM (cell_of_row i) solution ;;
                 Ok (map cell_of_value kept))
       (range size).

(** The loop of [print_solutions] over [enumerate( self.solutions, start=1 )]. *)
Fixpoint solution_sections (self : NonogramBoard) (index : Z) (sols : list Solution)
  : result string :=
  match sols with
  | [] => Ok ""
  | solution :: sols' =>
      data <- solution_data (size self) solution ;;
      text <- print self (Some data) ;;
      rest <- solution_sections self (index + 1) sols' ;;
      Ok (" === Solution " +++ str index +++ " ===" +++ newline +++ newline
          +++ text +++ rest)
  end.

(** [NonogramBoard.print_solutions]; [self.solutions] is a list, never [None]. *)
Definition print_solutions (self : NonogramBoard) : result string :=
  solution_sections self 1 (solutions self).

(** ** Notions used by the statements *)

(** The regions of [b] lie where the constructor put them; only their
    constraints may differ.  [constraint_of] keeps this. *)
Definition board_shape (b : NonogramBoard) : Prop :=
  map region (regions b) = map region (constructed_regions (size b)).

(** The library takes the integers of every region of [b]: the sums of the
    run lengths and the space left on a line are 64-bit integers strictly
    inside the limits. *)
Definition library_takes (b : NonogramBoard) : Prop :=
  Forall (fun r => region_taken (size b) (constraint r) = true) (regions b).

(** Every run length of every region is positive. *)
Definition positive_runs (b : NonogramBoard) : Prop :=
  Forall (fun r => Forall (fun n => 0 < n) (constraint r)) (regions b).

(** The fit invariant of a run sequence on a line of length [n]. *)
Definition fits (n : Z) (c : list Z) : Prop := sum c + (len c - 1) <= n.

(** The maximal runs of filled cells of a line, left to right; [current]
    is the length of the run being read. *)
Fixpoint runs_from (current : Z) (line : list bool) : list Z :=
  match line with
  | [] => if 0 <? current then [current] else []
  | true :: line' => runs_from (current + 1) line'
  | false :: line' =>
      if 0 <? current then current :: runs_from 0 line' else runs_from 0 line'
  end.

Definition runs (line : list bool) : list Z := runs_from 0 line.

(** The cell of a grid at a coordinate, and the cells along a region. *)
Definition cell_at (data : list (list Cell)) (p : Coordinates) : result Cell :=
  row <- getitem data (x p) ;; getitem row (y p).

Definition region_line (data : list (list Cell)) (r : Region) : result (list bool) :=
  cells <- mapM (cell_at data) (region r) ;; Ok (map value cells).

(** A full [n]x[n] grid. *)
Definition full_grid (n : Z) (data : list (list Cell)) : Prop :=
  len data = Z.max 0 n /\ Forall (fun row => len row = Z.max 0 n) data.

(** The test by which [constraint_of] picks its region. *)
Definition region_test (direction : string) (index : Z) : Region -> result bool :=
  if String.eqb direction "row" then row_at index else column_at index.

(** A puzzle entered as [main] does: the constructor, then one call of
    [constraint_of] per row and one per column, in the order of the indices. *)
Fixpoint constrain (direction : string) (index : Z) (cs : list (list Z))
    (b : NonogramBoard) : result NonogramBoard :=
  match cs with
  | [] => Ok b
  | c :: cs' => b' <- constraint_of b direction index c ;;
                constrain direction (index + 1) cs' b'
  end.

Definition puzzle (n : Z) (rows columns : list (list Z)) : result NonogramBoard :=
  b <- NonogramBoard_init n ;;
  b <- constrain "row" 0 rows b ;;
  constrain "column" 0 columns b.

(** The column width as the specification words it: the length of the
    numeral of the largest run length among the constraints of all the
    regions, rows and columns alike. *)
Definition spec_table_space (b : NonogramBoard) : result Z :=
  m <- py_max (List.concat (map constraint (regions b))) ;;
  Ok (str_len (str m)).

(** The slack as the specification words it, [N - sum r - (k - 1)], and
    as line 219 computes it. *)
Definition spec_slack (n : Z) (c : list Z) : Z := n - sum c - (len c - 1).
Definition space_max_of (n : Z) (c : list Z) : Z := n - sum c.

(** [m'] is [m] after more calls of [NewIntVar] and [Add]. *)
Definition extends (m m' : CpModel) : Prop :=
  exists vs cs,
    variables m' = variables m ++ vs /\ constraints m' = constraints m ++ cs.

(** [v] is a variable of [m] with the domain [[lb, ub]]. *)
Definition declared (m : CpModel) (v : IntVar) (lb ub : Z) : Prop :=
  nth_error (variables m) (Index v)
  = Some {| var_name := Name v; var_lb := lb; var_ub := ub |}.

(** [ct] was posted to [m]. *)
Definition posted (m : CpModel) (ct : Constraint) : Prop := In ct (constraints m).

(** [a] keeps every variable of [m] in its domain and makes every
    constraint of [m] hold; [a] may be an assignment of a larger model. *)
Definition respects (a : Assignment) (m : CpModel) : Prop :=
  (forall k p, nth_error (variables m) k = Some p -> in_domain p (nth k a 0) = true) /\
  (forall ct, In ct (constraints m) -> holdsb a ct = true).

(** The gap part of a region's model, for a given slack: one gap variable
    before the first run and one after each run; the first ranges over
    [[0, slack]], the ones between two runs over [[1, max 1 slack]], the
    one after the last run over [[0, max 1 slack]], and their sum is
    the slack. *)
Definition gap_model (slack : Z) (c : list Z) (spaces : list IntVar) (m : CpModel)
  : Prop :=
  List.length spaces = S (List.length c) /\
  (forall g, nth_error spaces 0 = Some g -> declared m g 0 slack) /\
  (forall i g, (0 < i < List.length c)%nat -> nth_error spaces i = Some g ->
               declared m g 1 (Z.max 1 slack)) /\
  (forall g, c <> [] -> nth_error spaces (List.length c) = Some g ->
             declared m g 0 (Z.max 1 slack)) /\
  posted m (LinearEq (LinearExpr_Sum spaces) (expr_const slack)).

(** The index along the region of cell [o] of run [i] (counted from 0),
    for gap values [gs = g0, g1, ...]: the gaps [g0 .. gi] and the runs
    before run [i], plus [o]. *)
Definition position (gs c : list Z) (i : nat) (o : Z) : Z :=
  sum (firstn (S i) gs) + sum (firstn i c) + o.

(** The positions of the cells of the runs [c], the first run starting at
    [base] and each run [r] being followed by its gap [g]. *)
Fixpoint positions_from (base : Z) (gs c : list Z) {struct c} : list Z :=
  match c, gs with
  | r :: c', g :: gs' =>
      map (fun o => base + o) (range r) ++ positions_from (base + r + g) gs' c'
  | _, _ => []
  end.

(** The line that a gap assignment lays out: each run followed by its gap,
    after the leading gap. *)
Fixpoint pattern_from (gs c : list Z) {struct c} : list bool :=
  match c, gs with
  | r :: c', g :: gs' =>
      repeat true (Z.to_nat r) ++ repeat false (Z.to_nat g) ++ pattern_from gs' c'
  | _, _ => []
  end.

Definition pattern (gs c : list Z) : list bool :=
  match gs with
  | g0 :: gs' => repeat false (Z.to_nat g0) ++ pattern_from gs' c
  | [] => []
  end.

(** The gaps after the runs: at least one cell between two runs, any
    number after the last one. *)
Fixpoint gaps_ok (gs : list Z) : Prop :=
  match gs with
  | [] => True
  | [g] => 0 <= g
  | g :: gs' => 1 <= g /\ gaps_ok gs'
  end.

(** The cell values of an assignment as filled / empty. *)
Definition filled (v : Z) : bool := negb (v =? 0).

(** The number of filled cells of a line. *)
Definition ones (line : list bool) : Z :=
  sum (map (fun b : bool => if b then 1 else 0) line).

(** The name of a space or element variable of a region: the index, the
    kind ([r] or [c]) and the rest. *)
Definition region_named (region_index : Z) (region_type : string) (v : IntVar) : Prop :=
  exists rest, Name v = str region_index +++ region_type +++ rest.

(** The cell variables of one line of three cells, in a model of their own. *)
Definition example_cells : list IntVar * CpModel :=
  mapB (fun col => NewBoolVar (str 0 +++ "-" +++ str col)) (range 3) CpModel_init.

(** A text made of decimal digits only. *)
Fixpoint all_digits (s : string) : bool :=
  match s with
  | String c s' => is_digit c && all_digits s'
  | EmptyString => true
  end.

(** The cell variables [cp_cell] of a grid of side [n]: [n] rows of [n]
    Boolean variables of [m], the one of row [i] and column [j] named [i-j]. *)
Definition cells_ok (n : Z) (cp_cell : list (list IntVar)) (m : CpModel) : Prop :=
  List.length cp_cell = Z.to_nat n /\
  forall i row, nth_error cp_cell i = Some row ->
    List.length row = Z.to_nat n /\
    forall j v, nth_error row j = Some v ->
      declared m v 0 1 /\ Name v = str (Z.of_nat i) +++ "-" +++ str (Z.of_nat j).

(** The cell variable at a coordinate. *)
Definition var_at (cp_cell : list (list IntVar)) (p : Coordinates) : option IntVar :=
  match nth_error cp_cell (Z.to_nat (x p)) with
  | Some row => nth_error row (Z.to_nat (y p))
  | None => None
  end.

(** The grid that an assignment gives to the cell variables. *)
Definition grid_of (a : Assignment) (cp_cell : list (list IntVar)) : list (list Cell) :=
  map (map (fun v => cell_of_value (v, Value a v))) cp_cell.

(** The variables that a constraint mentions. *)
Definition vars_of (ct : Constraint) : list IntVar :=
  match ct with
  | LinearEq lhs rhs => terms lhs ++ terms rhs
  | Element index vars _ => index :: vars
  end.

(** [a] assigns exactly the variables of [m], satisfies [m], and the
    constraints of [m] mention variables of [m] only. *)
Definition ready (m : CpModel) (a : Assignment) : Prop :=
  satisfies m a /\
  forall ct, In ct (constraints m) ->
    forall v, In v (vars_of ct) -> (Index v < List.length a)%nat.

(** The value that stands for a cell in an assignment. *)
Definition cell_value (c : Cell) : Z := if value c then 1 else 0.

(** * Properties *)

(** ** Built-ins *)

Lemma range_length n : List.length (range n) = Z.to_nat n.
Proof. unfold range. now rewrite length_map, length_seq. Qed.

Lemma len_range n : len (range n) = Z.max 0 n.
Proof. unfold len. rewrite range_length. lia. Qed.

Lemma range_nonpositive n : n <= 0 -> range n = [].
Proof.
  intros Hn. unfold range. replace (Z.to_nat n) with O by lia. reflexivity.
Qed.

Lemma in_range i n : In i (range n) <-> 0 <= i < n.
Proof.
  unfold range. rewrite in_map_iff. split.
  - intros [k [<- Hk]]. apply in_seq in Hk. lia.
  - intros Hi. exists (Z.to_nat i). split; [lia|]. apply in_seq. lia.
Qed.

Lemma nth_error_range n k :
  (k < Z.to_nat n)%nat -> nth_error (range n) k = Some (Z.of_nat k).
Proof.
  intros Hk. unfold range. rewrite nth_error_map, nth_error_seq.
  destruct (Nat.ltb_spec k (Z.to_nat n)); [reflexivity | lia].
Qed.

Lemma getitem_nth {A : Type} (l : list A) (i : Z) (a : A) :
  0 <= i -> nth_error l (Z.to_nat i) = Some a -> getitem l i = Ok a.
Proof.
  intros Hi Hn. unfold getitem.
  destruct (Z.ltb_spec i 0); [lia|].
  destruct (Z.ltb_spec i 0); [lia|]. now rewrite Hn.
Qed.

Lemma getitem_head {A : Type} (a : A) (l : list A) : getitem (a :: l) 0 = Ok a.
Proof. reflexivity. Qed.

Lemma getitem_nil {A : Type} (i : Z) : getitem (@nil A) i = Raise IndexError.
Proof.
  unfold getitem. cbn [len List.length Z.of_nat]. rewrite Z.add_0_r.
  destruct (Z.ltb_spec i 0) as [Hlt|Hge].
  - destruct (Z.ltb_spec i 0); [reflexivity | lia].
  - destruct (Z.ltb_spec i 0); [lia|]. now destruct (Z.to_nat i).
Qed.

(** ** The constructor *)

Lemma flat_pairs_length {A : Type} (f g : Z -> A) (l : list Z) :
  List.length (flat_map (fun i => [f i; g i]) l) = (2 * List.length l)%nat.
Proof. induction l as [|a l IH]; cbn [flat_map app List.length]; lia. Qed.

Lemma flat_pairs_nth {A : Type} (f g : Z -> A) (l : list Z) (k : nat) (i : Z) :
  nth_error l k = Some i ->
  nth_error (flat_map (fun i => [f i; g i]) l) (2 * k) = Some (f i) /\
  nth_error (flat_map (fun i => [f i; g i]) l) (2 * k + 1) = Some (g i).
Proof.
  revert k. induction l as [|a l IH]; intros [|k] Hk; try discriminate.
  - injection Hk as ->. split; reflexivity.
  - cbn [nth_error] in Hk. destruct (IH k Hk) as [H1 H2].
    replace (2 * S k)%nat with (S (S (2 * k))) by lia.
    replace (S (S (2 * k)) + 1)%nat with (S (S (2 * k + 1))) by lia.
    cbn [flat_map app nth_error]. now split.
Qed.

Lemma constructed_regions_length n :
  len (constructed_regions n) = 2 * Z.max 0 n.
Proof.
  unfold len, constructed_regions. rewrite flat_pairs_length, range_length. lia.
Qed.

Lemma constructed_regions_nth n i :
  0 <= i < n ->
  nth_error (constructed_regions n) (Z.to_nat (2 * i)) = Some (row_region n i) /\
  nth_error (constructed_regions n) (Z.to_nat (2 * i + 1)) = Some (column_region n i).
Proof.
  intros Hi. unfold constructed_regions.
  assert (Hk : nth_error (range n) (Z.to_nat i) = Some i).
  { rewrite nth_error_range by lia. f_equal. lia. }
  destruct (flat_pairs_nth (row_region n) (column_region n) _ _ _ Hk) as [H1 H2].
  replace (Z.to_nat (2 * i)) with (2 * Z.to_nat i)%nat by lia.
  replace (Z.to_nat (2 * i + 1)) with (2 * Z.to_nat i + 1)%nat by lia.
  now split.
Qed.

Lemma in_constructed_regions n r :
  In r (constructed_regions n) ->
  exists i, 0 <= i < n /\ (r = row_region n i \/ r = column_region n i).
Proof.
  unfold constructed_regions. rewrite in_flat_map. intros [i [Hi Hr]].
  exists i. rewrite in_range in Hi. split; [exact Hi|].
  destruct Hr as [<-|[<-|[]]]; auto.
Qed.



(** ** Rows and columns of a constructed board *)

Lemma range_positive n : 0 < n -> exists l, range n = 0 :: l /\ ~ In 0 l.
Proof.
  intros Hn. unfold range.
  destruct (Z.to_nat n) as [|k] eqn:Hk; [lia|].
  cbn [seq map]. eexists. split; [reflexivity|].
  rewrite in_map_iff. intros [j [Hj Hin]]. apply in_seq in Hin. lia.
Qed.

Lemma count_constant {A : Type} (f : A -> Z) (l : list A) (v : Z) :
  (forall a, In a l -> f a = v) -> count (map f l) v = len l.
Proof.
  unfold count, len. induction l as [|a l IH]; intros Hall; [reflexivity|].
  cbn [map filter]. rewrite (Hall a (or_introl eq_refl)), Z.eqb_refl.
  cbn [List.length]. rewrite Nat2Z.inj_succ, IH; [|intros; apply Hall; now right].
  now rewrite Nat2Z.inj_succ.
Qed.

Lemma count_absent (l : list Z) (v : Z) : ~ In v l -> count l v = 0.
Proof.
  unfold count, len. induction l as [|a l IH]; intros Hnot; [reflexivity|].
  cbn [filter]. destruct (Z.eqb_spec a v) as [->|Hne].
  - exfalso. apply Hnot. now left.
  - apply IH. intros Hin. apply Hnot. now right.
Qed.

Lemma count_range_zero n : 0 < n -> count (range n) 0 = 1.
Proof.
  intros Hn. destruct (range_positive n Hn) as [l [-> Hl]].
  pose proof (count_absent l 0 Hl) as H0. unfold count, len in *.
  cbn [filter]. rewrite Z.eqb_refl. cbn [List.length].
  rewrite Nat2Z.inj_succ. lia.
Qed.

Section Lines.
Variables (n i : Z).
Hypothesis n_positive : 0 < n.
Variable r : Region.

Let xs_line := map (fun j => {| x := i; y := j |}) (range n).
Let ys_line := map (fun j => {| x := j; y := i |}) (range n).

Lemma row_line_first : region r = xs_line -> getitem (region r) 0 = Ok {| x := i; y := 0 |}.
Proof.
  intros ->. subst xs_line. destruct (range_positive n n_positive) as [l [-> _]].
  reflexivity.
Qed.

Lemma column_line_first :
  region r = ys_line -> getitem (region r) 0 = Ok {| x := 0; y := i |}.
Proof.
  intros ->. subst ys_line. destruct (range_positive n n_positive) as [l [-> _]].
  reflexivity.
Qed.

Lemma is_row_row_line : region r = xs_line -> is_row r = Ok true.
Proof.
  intros Hr. unfold is_row. rewrite (row_line_first Hr). cbn [bind x].
  rewrite Hr. subst xs_line. rewrite map_map. cbn [x].
  rewrite count_constant by reflexivity. unfold len.
  rewrite length_map. now rewrite Z.eqb_refl.
Qed.

Lemma is_column_column_line : region r = ys_line -> is_column r = Ok true.
Proof.
  intros Hr. unfold is_column. rewrite (column_line_first Hr). cbn [bind y].
  rewrite Hr. subst ys_line. rewrite map_map. cbn [y].
  rewrite count_constant by reflexivity. unfold len.
  rewrite length_map. now rewrite Z.eqb_refl.
Qed.

Lemma is_row_column_line : region r = ys_line -> is_row r = Ok (n =? 1).
Proof.
  intros Hr. unfold is_row. rewrite (column_line_first Hr). cbn [bind x].
  rewrite Hr. subst ys_line. rewrite map_map. cbn [x]. rewrite map_id.
  rewrite count_range_zero by exact n_positive. unfold len.
  rewrite length_map, range_length. f_equal.
  destruct (Z.eqb_spec n 1), (Z.eqb_spec 1 (Z.of_nat (Z.to_nat n))); (reflexivity || lia).
Qed.

Lemma is_column_row_line : region r = xs_line -> is_column r = Ok (n =? 1).
Proof.
  intros Hr. unfold is_column. rewrite (row_line_first Hr). cbn [bind y].
  rewrite Hr. subst xs_line. rewrite map_map. cbn [y]. rewrite map_id.
  rewrite count_range_zero by exact n_positive. unfold len.
  rewrite length_map, range_length. f_equal.
  destruct (Z.eqb_spec n 1), (Z.eqb_spec 1 (Z.of_nat (Z.to_nat n))); (reflexivity || lia).
Qed.
End Lines.

(** Each region of a board of the constructor's shape is a row line or a
    column line of the grid. *)
Lemma board_shape_lines b r :
  board_shape b -> In r (regions b) ->
  exists i, 0 <= i < size b /\
    (region r = map (fun j => {| x := i; y := j |}) (range (size b)) \/
     region r = map (fun j => {| x := j; y := i |}) (range (size b))).
Proof.
  intros Hshape Hin. apply (in_map region) in Hin. rewrite Hshape in Hin.
  apply in_map_iff in Hin. destruct Hin as [r' [Hr' Hin']].
  apply in_constructed_regions in Hin'. destruct Hin' as [i [Hi [->| ->]]];
    exists i; (split; [exact Hi|]); rewrite <- Hr'; [left | right]; reflexivity.
Qed.

Lemma board_shape_nth b k r0 :
  board_shape b -> nth_error (constructed_regions (size b)) k = Some r0 ->
  exists r, nth_error (regions b) k = Some r /\ region r = region r0.
Proof.
  intros Hshape Hk.
  assert (H : nth_error (map region (regions b)) k = Some (region r0)).
  { rewrite Hshape, nth_error_map, Hk. reflexivity. }
  rewrite nth_error_map in H. destruct (nth_error (regions b) k) as [r|]; [|discriminate].
  exists r. split; [reflexivity|]. now injection H.
Qed.

(** ** [constraint_of] *)

Lemma select_from_total p k rs :
  (forall r, In r rs -> exists b, p r = Ok b) ->
  exists sel, select_from p k rs = Ok sel.
Proof.
  revert k. induction rs as [|r rs IH]; intros k Hall; cbn [select_from].
  - now exists [].
  - destruct (Hall r (or_introl eq_refl)) as [b ->].
    destruct (IH (S k)) as [sel ->]; [intros; apply Hall; now right|].
    cbn [bind]. eauto.
Qed.

(** The first reference of a selection is the first region, in the order of
    [self.regions], on which the test holds. *)
Lemma select_from_first p k0 rs :
  (forall r, In r rs -> exists b, p r = Ok b) ->
  (exists r, In r rs /\ p r = Ok true) ->
  exists k r rest,
    select_from p k0 rs = Ok (k :: rest) /\ (k0 <= k)%nat /\
    nth_error rs (k - k0) = Some r /\ p r = Ok true /\
    (forall j r', (j < k - k0)%nat -> nth_error rs j = Some r' -> p r' = Ok false).
Proof.
  revert k0. induction rs as [|r rs IH]; intros k0 Hall [w [Hw Hpw]]; [destruct Hw|].
  cbn [select_from].
  destruct (select_from_total p (S k0) rs) as [sel Hsel]; [intros; apply Hall; now right|].
  destruct (Hall r (or_introl eq_refl)) as [[|] Hb].
  - rewrite Hb, Hsel. cbn [bind]. exists k0, r, sel.
    rewrite Nat.sub_diag. repeat split; auto. intros j r' Hj. lia.
  - destruct Hw as [->|Hw]; [congruence|].
    destruct (IH (S k0)) as [k [r1 [rest [Hs [Hle [Hnth [Hp Hbefore]]]]]]].
    { intros; apply Hall; now right. }
    { now exists w. }
    rewrite Hb, Hs. cbn [bind]. exists k, r1, rest.
    replace (k - k0)%nat with (S (k - S k0)) by lia.
    repeat split; auto; [lia|].
    intros [|j] r' Hj Hr'; cbn [nth_error] in Hr'.
    + now injection Hr' as <-.
    + apply (Hbefore j); [lia | exact Hr'].
Qed.

Lemma set_constraint_same rs k c r :
  nth_error rs k = Some r ->
  nth_error (set_constraint rs k c) k = Some {| region := region r; constraint := c |}.
Proof.
  revert k. induction rs as [|r0 rs IH]; intros [|k] Hk; try discriminate.
  - now injection Hk as ->.
  - cbn [set_constraint nth_error] in *. now apply IH.
Qed.

Lemma set_constraint_other rs k c j :
  j <> k -> nth_error (set_constraint rs k c) j = nth_error rs j.
Proof.
  revert k j. induction rs as [|r0 rs IH]; intros [|k] [|j] Hne;
    cbn [set_constraint nth_error]; try reflexivity; try congruence.
  apply IH. congruence.
Qed.

Lemma set_constraint_regions rs k c :
  map region (set_constraint rs k c) = map region rs.
Proof.
  revert k. induction rs as [|r0 rs IH]; intros [|k]; cbn [set_constraint map];
    try reflexivity. now rewrite IH.
Qed.

(** On a constructed board the two tests of [constraint_of] never raise. *)
Lemma row_at_total b index r :
  board_shape b -> In r (regions b) -> exists v, row_at index r = Ok v.
Proof.
  intros Hshape Hin. destruct (board_shape_lines b r Hshape Hin) as [i [Hi [Hr|Hr]]];
    unfold row_at.
  - rewrite (is_row_row_line (size b) i ltac:(lia) r Hr). cbn [bind].
    rewrite (row_line_first (size b) i ltac:(lia) r Hr). cbn [bind]. eauto.
  - rewrite (is_row_column_line (size b) i ltac:(lia) r Hr). cbn [bind].
    destruct (size b =? 1); [|eauto].
    rewrite (column_line_first (size b) i ltac:(lia) r Hr). cbn [bind]. eauto.
Qed.

Lemma column_at_total b index r :
  board_shape b -> In r (regions b) -> exists v, column_at index r = Ok v.
Proof.
  intros Hshape Hin. destruct (board_shape_lines b r Hshape Hin) as [i [Hi [Hr|Hr]]];
    unfold column_at.
  - rewrite (is_column_row_line (size b) i ltac:(lia) r Hr). cbn [bind].
    destruct (size b =? 1); [|eauto].
    rewrite (row_line_first (size b) i ltac:(lia) r Hr). cbn [bind]. eauto.
  - rewrite (is_column_column_line (size b) i ltac:(lia) r Hr). cbn [bind].
    rewrite (column_line_first (size b) i ltac:(lia) r Hr). cbn [bind]. eauto.
Qed.

Lemma row_at_exists b index :
  board_shape b -> 0 <= index < size b ->
  exists r, In r (regions b) /\ row_at index r = Ok true.
Proof.
  intros Hshape Hi.
  destruct (constructed_regions_nth (size b) index Hi) as [H0 _].
  destruct (board_shape_nth b _ _ Hshape H0) as [r [Hnth Hr]].
  exists r. split; [eapply nth_error_In; eassumption|].
  unfold row_at. cbn [row_region Region_init region] in Hr.
  rewrite (is_row_row_line (size b) index ltac:(lia) r Hr). cbn [bind].
  rewrite (row_line_first (size b) index ltac:(lia) r Hr). cbn [bind x].
  now rewrite Z.eqb_refl.
Qed.

Lemma column_at_exists b index :
  board_shape b -> 0 <= index < size b ->
  exists r, In r (regions b) /\ column_at index r = Ok true.
Proof.
  intros Hshape Hi.
  destruct (constructed_regions_nth (size b) index Hi) as [_ H1].
  destruct (board_shape_nth b _ _ Hshape H1) as [r [Hnth Hr]].
  exists r. split; [eapply nth_error_In; eassumption|].
  unfold column_at. cbn [column_region Region_init region] in Hr.
  rewrite (is_column_column_line (size b) index ltac:(lia) r Hr). cbn [bind].
  rewrite (column_line_first (size b) index ltac:(lia) r Hr). cbn [bind y].
  now rewrite Z.eqb_refl.
Qed.

(** An index of the board: [constraint_of] writes the sequence, whatever it
    is, into the first region that passes the test, and changes nothing else. *)
Lemma constraint_of_in_range b direction index c :
  board_shape b -> 0 <= index < size b ->
  exists b' k r,
    constraint_of b direction index c = Ok b' /\
    nth_error (regions b) k = Some r /\
    region_test direction index r = Ok true /\
    (forall j r', (j < k)%nat -> nth_error (regions b) j = Some r' ->
                  region_test direction index r' = Ok false) /\
    nth_error (regions b') k = Some {| region := region r; constraint := c |} /\
    (forall j, j <> k -> nth_error (regions b') j = nth_error (regions b) j) /\
    size b' = size b /\ board b' = board b /\ solutions b' = solutions b /\
    board_shape b'.
Proof.
  intros Hshape Hi. unfold constraint_of, region_test.
  destruct (Z.leb_spec 0 index); [|lia]. destruct (Z.ltb_spec index (size b)); [|lia].
  cbn [andb negb].
  assert (Hsel : exists k r rest,
             (if (direction =? "row")%string
              then select_from (row_at index) 0 (regions b)
              else select_from (column_at index) 0 (regions b)) = Ok (k :: rest) /\
             nth_error (regions b) k = Some r /\
             (if (direction =? "row")%string then row_at index else column_at index) r
             = Ok true /\
             (forall j r', (j < k)%nat -> nth_error (regions b) j = Some r' ->
                (if (direction =? "row")%string then row_at index else column_at index) r'
                = Ok false)).
  { destruct (direction =? "row")%string.
    - destruct (select_from_first (row_at index) 0 (regions b))
        as [k [r [rest [Hs [_ [Hn [Hp Hb]]]]]]].
      + intros r Hr. eapply row_at_total; eassumption.
      + now apply row_at_exists.
      + rewrite Nat.sub_0_r in Hn, Hb. exists k, r, rest. auto.
    - destruct (select_from_first (column_at index) 0 (regions b))
        as [k [r [rest [Hs [_ [Hn [Hp Hb]]]]]]].
      + intros r Hr. eapply column_at_total; eassumption.
      + now apply column_at_exists.
      + rewrite Nat.sub_0_r in Hn, Hb. exists k, r, rest. auto. }
  destruct Hsel as [k [r [rest [-> [Hn [Hp Hb]]]]]]. cbn [bind].
  rewrite getitem_head. cbn [bind].
  eexists _, k, r. split; [reflexivity|]. cbn [regions size board solutions].
  repeat split; auto.
  - now apply set_constraint_same.
  - intros j Hj. now apply set_constraint_other.
  - unfold board_shape. cbn [regions size]. now rewrite set_constraint_regions.
Qed.

(** An index outside [[0, size)]: [IndexError], and no board comes back. *)
Lemma constraint_of_out_of_range b direction index c :
  ~ (0 <= index < size b) -> constraint_of b direction index c = Raise IndexError.
Proof.
  intros Hi. unfold constraint_of.
  destruct (Z.leb_spec 0 index), (Z.ltb_spec index (size b)); try reflexivity. lia.
Qed.

Lemma NonogramBoard_init_shape n b : NonogramBoard_init n = Ok b -> board_shape b.
Proof. intros [= <-]. reflexivity. Qed.

(** ** [constraint_of] on a board with at least two rows *)

Lemma constructed_regions_position n k r :
  nth_error (constructed_regions n) k = Some r ->
  exists q, 0 <= q < n /\
    ((k = Z.to_nat (2 * q) /\ r = row_region n q) \/
     (k = Z.to_nat (2 * q + 1) /\ r = column_region n q)).
Proof.
  intros Hk.
  assert (Hlt : (k < List.length (constructed_regions n))%nat)
    by (apply nth_error_Some; congruence).
  pose proof (constructed_regions_length n) as Hlen. unfold len in Hlen.
  set (q := Z.of_nat k / 2).
  assert (Hq : 0 <= q < n) by (subst q; split; [apply Z.div_pos; lia |
    apply Z.div_lt_upper_bound; lia]).
  destruct (constructed_regions_nth n q Hq) as [H0 H1].
  exists q. split; [exact Hq|].
  pose proof (Z.div_mod (Z.of_nat k) 2 ltac:(lia)) as Hdm.
  pose proof (Z.mod_pos_bound (Z.of_nat k) 2 ltac:(lia)) as Hmod.
  fold q in Hdm.
  destruct (Z.eq_dec (Z.of_nat k mod 2) 0) as [He|Hne].
  - left. assert (Hkq : k = Z.to_nat (2 * q)) by lia. split; [exact Hkq|].
    rewrite <- Hkq in H0. congruence.
  - right. assert (Hkq : k = Z.to_nat (2 * q + 1)) by lia. split; [exact Hkq|].
    rewrite <- Hkq in H1. congruence.
Qed.

(** With two rows or more, rows and columns are told apart: the call
    writes the region of the given direction and index, at position
    [2 * index] for a row and [2 * index + 1] for a column, and no other. *)
Lemma constraint_of_position b direction index c :
  board_shape b -> 2 <= size b -> 0 <= index < size b ->
  let k := Z.to_nat (if (direction =? "row")%string then 2 * index else 2 * index + 1) in
  exists b' r,
    constraint_of b direction index c = Ok b' /\
    nth_error (regions b) k = Some r /\
    region r = region (if (direction =? "row")%string
                       then row_region (size b) index
                       else column_region (size b) index) /\
    nth_error (regions b') k = Some {| region := region r; constraint := c |} /\
    (forall j, j <> k -> nth_error (regions b') j = nth_error (regions b) j).
Proof.
  intros Hshape Hsize Hi k.
  assert (Hn : 0 < size b) by lia.
  assert (Hne1 : (size b =? 1) = false) by (apply Z.eqb_neq; lia).
  destruct (constraint_of_in_range b direction index c Hshape Hi)
    as [b' [k0 [r0 [Hcall [Hr0 [Htest0 [Hbefore [Hnew [Hother _]]]]]]]]].
  destruct (constructed_regions_nth (size b) index Hi) as [Hrow Hcol].
  assert (Hk : exists r,
             nth_error (regions b) k = Some r /\
             region r = region (if (direction =? "row")%string
                                then row_region (size b) index
                                else column_region (size b) index) /\
             region_test direction index r = Ok true).
  { subst k. unfold region_test. destruct (direction =? "row")%string.
    - destruct (board_shape_nth b _ _ Hshape Hrow) as [r [Hr Hreg]].
      exists r. repeat split; auto. unfold row_at.
      cbn [row_region Region_init region] in Hreg.
      rewrite (is_row_row_line _ index Hn r Hreg). cbn [bind].
      rewrite (row_line_first _ index Hn r Hreg). cbn [bind x]. now rewrite Z.eqb_refl.
    - destruct (board_shape_nth b _ _ Hshape Hcol) as [r [Hr Hreg]].
      exists r. repeat split; auto. unfold column_at.
      cbn [column_region Region_init region] in Hreg.
      rewrite (is_column_column_line _ index Hn r Hreg). cbn [bind].
      rewrite (column_line_first _ index Hn r Hreg). cbn [bind y]. now rewrite Z.eqb_refl. }
  destruct Hk as [r [Hr [Hreg Htest]]].
  assert (Hsame : k0 = k).
  { destruct (Nat.lt_trichotomy k0 k) as [Hlt|[Heq|Hgt]]; [|exact Heq|].
    - exfalso.
      assert (Hc0 : exists r', nth_error (constructed_regions (size b)) k0 = Some r' /\
                               region r0 = region r').
      { assert (H : nth_error (map region (regions b)) k0 = Some (region r0))
          by (rewrite nth_error_map, Hr0; reflexivity).
        rewrite Hshape, nth_error_map in H.
        destruct (nth_error (constructed_regions (size b)) k0) as [r'|]; [|discriminate].
        exists r'. split; [reflexivity|]. now injection H. }
      destruct Hc0 as [r' [Hr' Hreg0]].
      destruct (constructed_regions_position _ _ _ Hr') as [q [Hq [[Hkq ->]|[Hkq ->]]]];
        cbn [row_region column_region Region_init region] in Hreg0;
        subst k; unfold region_test in Htest0;
        destruct (direction =? "row")%string; unfold row_at, column_at in Htest0.
      + rewrite (is_row_row_line _ q Hn r0 Hreg0) in Htest0. cbn [bind] in Htest0.
        rewrite (row_line_first _ q Hn r0 Hreg0) in Htest0. cbn [bind x] in Htest0.
        injection Htest0 as Ht. apply Z.eqb_eq in Ht. lia.
      + rewrite (is_column_row_line _ q Hn r0 Hreg0), Hne1 in Htest0. discriminate.
      + rewrite (is_row_column_line _ q Hn r0 Hreg0), Hne1 in Htest0. discriminate.
      + rewrite (is_column_column_line _ q Hn r0 Hreg0) in Htest0. cbn [bind] in Htest0.
        rewrite (column_line_first _ q Hn r0 Hreg0) in Htest0. cbn [bind y] in Htest0.
        injection Htest0 as Ht. apply Z.eqb_eq in Ht. lia.
    - exfalso. specialize (Hbefore k r Hgt Hr). congruence. }
  subst k0. exists b', r. rewrite Hr in Hr0. injection Hr0 as <-. auto.
Qed.

(** C5, the missing validation: on a 2x2 board [constraint_of] stores a run
    of length 0, a negative run, and a sequence that cannot fit, without
    raising. *)
Lemma constraint_of_accepts_invalid_sequences :
  exists b b0 b1 b2,
    NonogramBoard_init 2 = Ok b /\
    constraint_of b "row" 0 [0] = Ok b0 /\
    map constraint (regions b0) = [[0]; []; []; []] /\
    constraint_of b "column" 1 [-1] = Ok b1 /\
    map constraint (regions b1) = [[]; []; []; [-1]] /\
    constraint_of b "row" 1 [2; 2] = Ok b2 /\
    map constraint (regions b2) = [[]; []; [2; 2]; []] /\
    ~ fits 2 [2; 2].
Proof.
  do 4 eexists. repeat split; try reflexivity.
  unfold fits. cbn. lia.
Qed.

(** C5, as the code has it: with an index of the board, [constraint_of]
    accepts every integer sequence: it returns a board in which the region
    picked by the direction and the index holds exactly that sequence. *)
Theorem constraint_of_accepts_any_sequence b direction index c :
  board_shape b -> 0 <= index < size b ->
  exists b' k r,
    constraint_of b direction index c = Ok b' /\
    nth_error (regions b) k = Some r /\
    region_test direction index r = Ok true /\
    nth_error (regions b') k = Some {| region := region r; constraint := c |}.
Proof.
  intros Hshape Hi.
  destruct (constraint_of_in_range b direction index c Hshape Hi)
    as [b' [k [r [H1 [H2 [H3 [_ [H4 _]]]]]]]].
  exists b', k, r. auto.
Qed.

Lemma constraint_of_accepts_any_sequence_witness :
  exists b' k r,
    constraint_of {| size := 2;
                     board := repeat (repeat Cell_init 2) 2;
                     regions := constructed_regions 2;
                     solutions := [] |} "column" 0 [0; 5] = Ok b' /\
    nth_error (constructed_regions 2) k = Some r /\
    region_test "column" 0 r = Ok true /\
    nth_error (regions b') k = Some {| region := region r; constraint := [0; 5] |}.
Proof.
  apply (constraint_of_accepts_any_sequence
           {| size := 2; board := repeat (repeat Cell_init 2) 2;
              regions := constructed_regions 2; solutions := [] |}
           "column" 0 [0; 5]).
  - reflexivity.
  - cbn. lia.
Defined.

(** C8, on a 1x1 board: the only cell is the whole row and the whole column,
    both regions pass both tests, and a constraint given for column 0 lands
    in the region that row 0 uses, whose constraint it overwrites; the other
    region keeps the empty constraint.  So the puzzle with row [[1]] and
    column [[1]], solved by the filled cell, is stored as [[1]] and [[]],
    and the reference solver finds it no solution. *)
Theorem constraint_of_column_overwrites_row_1x1 :
  exists b b1 b2 b3 b4,
    NonogramBoard_init 1 = Ok b /\
    map is_row (regions b) = [Ok true; Ok true] /\
    map is_column (regions b) = [Ok true; Ok true] /\
    constraint_of b "row" 0 [1] = Ok b1 /\
    map constraint (regions b1) = [[1]; []] /\
    constraint_of b1 "column" 0 [] = Ok b2 /\
    map constraint (regions b2) = [[]; []] /\
    constraint_of b1 "column" 0 [1] = Ok b3 /\
    map constraint (regions b3) = [[1]; []] /\
    solve brute_force b3 = Ok b4 /\ solutions b4 = [].
Proof.
  do 5 eexists.
  do 10 (split; [vm_compute; reflexivity|]).
  vm_compute. reflexivity.
Qed.

(** ** The renderer's widths and its failure on an empty column constraint *)

Lemma py_max_fold l a :
  let m := fold_left Z.max l a in
  (m = a \/ In m l) /\ a <= m /\ (forall v, In v l -> v <= m).
Proof.
  revert a. induction l as [|b l IH]; intros a; cbn [fold_left].
  - repeat split; auto; [lia | intros v []].
  - destruct (IH (Z.max a b)) as [Hin [Hle Hall]]. cbn zeta in *.
    repeat split.
    + destruct Hin as [Hm|Hm]; [|right; now right].
      rewrite Hm.
      destruct (Z.max_spec a b) as [[_ He]|[_ He]]; rewrite He; auto.
      right. now left.
    + lia.
    + intros v [<-|Hv]; [lia | now apply Hall].
Qed.

(** [max( l )] is an element of [l] above all the others. *)
Lemma py_max_spec l m :
  py_max l = Ok m -> In m l /\ (forall v, In v l -> v <= m).
Proof.
  destruct l as [|a l]; [discriminate|]. intros [= <-].
  destruct (py_max_fold l a) as [Hin [Hle Hall]]. cbn zeta in *. split.
  - destruct Hin as [->|Hin]; [now left | now right].
  - intros v [<-|Hv]; [exact Hle | now apply Hall].
Qed.

Lemma is_column_inhabited r : region r <> [] -> exists v, is_column r = Ok v.
Proof.
  intros Hr. unfold is_column. destruct (region r) as [|p ps]; [congruence|].
  rewrite getitem_head. cbn [bind]. eauto.
Qed.

Lemma column_maxima_raises rs r :
  In r rs -> is_column r = Ok true -> constraint r = [] ->
  exists e, column_maxima rs = Raise e /\
            (Forall (fun r => region r <> []) rs -> e = ValueError).
Proof.
  intros Hin Hcol Hempty. induction rs as [|r0 rs IH]; [destruct Hin|].
  cbn [column_maxima].
  destruct (is_column r0) as [[|]|e0] eqn:H0; cbn [bind].
  - destruct (constraint r0) as [|a c0] eqn:Hc0.
    + cbn [py_max bind]. exists ValueError. auto.
    + cbn [py_max bind]. destruct Hin as [->|Hin]; [congruence|].
      destruct (IH Hin) as [e [-> He]]. cbn [bind]. exists e. split; [reflexivity|].
      intros Hall. apply He. now inversion Hall.
  - destruct Hin as [->|Hin]; [congruence|].
    destruct (IH Hin) as [e [-> He]]. exists e. split; [reflexivity|].
    intros Hall. apply He. now inversion Hall.
  - exists e0. split; [reflexivity|]. intros Hall. inversion Hall as [|? ? Hr0 _]; subst.
    destruct (is_column_inhabited r0 Hr0) as [v Hv]. congruence.
Qed.

(** What the list of line 289 holds when it is built without an exception:
    the maxima of the constraints of the column regions, and only them. *)
Lemma column_maxima_spec rs ms :
  column_maxima rs = Ok ms ->
  (forall m, In m ms ->
     exists r, In r rs /\ is_column r = Ok true /\ py_max (constraint r) = Ok m) /\
  (forall r, In r rs -> is_column r = Ok true ->
     exists m, In m ms /\ py_max (constraint r) = Ok m).
Proof.
  revert ms. induction rs as [|r0 rs IH]; intros ms; cbn [column_maxima].
  - intros [= <-]. split; [intros m [] | intros r []].
  - destruct (is_column r0) as [[|]|e0] eqn:H0; cbn [bind]; [| |discriminate].
    + destruct (py_max (constraint r0)) as [m0|] eqn:Hm0; cbn [bind]; [|discriminate].
      destruct (column_maxima rs) as [ms'|] eqn:Hrest; cbn [bind]; [|discriminate].
      intros [= <-]. destruct (IH ms' eq_refl) as [IH1 IH2]. split.
      * intros m [<-|Hm].
        -- exists r0. repeat split; auto. now left.
        -- destruct (IH1 m Hm) as [r [Hr Hrest']]. exists r. split; [now right | exact Hrest'].
      * intros r [<-|Hr] Hcol.
        -- exists m0. split; [now left | exact Hm0].
        -- destruct (IH2 r Hr Hcol) as [m [Hm Hpm]]. exists m. split; [now right | exact Hpm].
    + intros Hms. destruct (IH ms Hms) as [IH1 IH2]. split.
      * intros m Hm. destruct (IH1 m Hm) as [r [Hr Hrest']].
        exists r. split; [now right | exact Hrest'].
      * intros r [<-|Hr] Hcol; [congruence | now apply IH2].
Qed.

(** C9, the rows do not count: on the 10x10 puzzle of [main] row 9 is
    [[10]] and no column run exceeds 5; the column width is 1, not the
    2 characters of the numeral 10. *)
Lemma table_space_ignores_rows :
  exists b,
    puzzle 10
      [[4]; [2; 2]; [2; 2]; [2; 2]; [2; 2]; [2; 2]; [4]; [6]; [8]; [10]]
      [[1]; [3; 2]; [5; 3]; [2; 5]; [1; 4]; [1; 4]; [2; 5]; [5; 3]; [3; 2]; [1]]
    = Ok b /\
    table_space_of b = Ok 1 /\
    spec_table_space b = Ok 2 /\
    left_space_of b = Ok 4.
Proof.
  eexists. split; [vm_compute; reflexivity|].
  split; [vm_compute; reflexivity|].
  split; vm_compute; reflexivity.
Qed.

(** C9, as the code has it: when both widths are computed, the left margin
    is twice the largest number of runs of a region of the board, and the
    column width is the length of the numeral of the largest run among the
    constraints of the column regions. *)
Theorem print_widths b left_space table_space :
  left_space_of b = Ok left_space ->
  table_space_of b = Ok table_space ->
  (exists r, In r (regions b) /\ left_space = 2 * len (constraint r) /\
             forall r', In r' (regions b) -> len (constraint r') <= len (constraint r)) /\
  (exists r m, In r (regions b) /\ is_column r = Ok true /\ In m (constraint r) /\
               table_space = str_len (str m) /\
               forall r' v, In r' (regions b) -> is_column r' = Ok true ->
                            In v (constraint r') -> v <= m).
Proof.
  unfold left_space_of, table_space_of. intros Hleft Htable. split.
  - destruct (py_max (map (fun r => len (constraint r)) (regions b))) as [m|] eqn:Hm;
      [|discriminate]. cbn [bind] in Hleft. injection Hleft as <-.
    destruct (py_max_spec _ _ Hm) as [Hin Hall].
    apply in_map_iff in Hin. destruct Hin as [r [Hr Hin]].
    exists r. repeat split; [exact Hin | lia |].
    intros r' Hr'. rewrite Hr. apply Hall. apply in_map_iff. now exists r'.
  - destruct (column_maxima (regions b)) as [ms|] eqn:Hms; [|discriminate].
    cbn [bind] in Htable.
    destruct (py_max ms) as [m|] eqn:Hm; [|discriminate].
    cbn [bind] in Htable. injection Htable as <-.
    destruct (column_maxima_spec _ _ Hms) as [H1 H2].
    destruct (py_max_spec _ _ Hm) as [Hin Hall].
    destruct (H1 m Hin) as [r [Hr [Hcol Hmax]]].
    destruct (py_max_spec _ _ Hmax) as [Hmin _].
    exists r, m. repeat split; auto.
    intros r' v Hr' Hcol' Hv.
    destruct (H2 r' Hr' Hcol') as [m' [Hm' Hmax']].
    destruct (py_max_spec _ _ Hmax') as [_ Hle].
    specialize (Hle v Hv). specialize (Hall m' Hm'). lia.
Qed.

Lemma print_widths_witness :
  exists b,
    b = {| size := 2; board := repeat (repeat Cell_init 2) 2;
           regions := [ {| region := [ {| x := 0; y := 0 |}; {| x := 0; y := 1 |} ];
                           constraint := [2] |};
                        {| region := [ {| x := 0; y := 0 |}; {| x := 1; y := 0 |} ];
                           constraint := [1] |};
                        {| region := [ {| x := 1; y := 0 |}; {| x := 1; y := 1 |} ];
                           constraint := [] |};
                        {| region := [ {| x := 0; y := 1 |}; {| x := 1; y := 1 |} ];
                           constraint := [1] |} ];
           solutions := [] |} /\
    (exists r, In r (regions b) /\ 2 = 2 * len (constraint r) /\
               forall r', In r' (regions b) -> len (constraint r') <= len (constraint r)) /\
    (exists r m, In r (regions b) /\ is_column r = Ok true /\ In m (constraint r) /\
                 1 = str_len (str m) /\
                 forall r' v, In r' (regions b) -> is_column r' = Ok true ->
                              In v (constraint r') -> v <= m).
Proof.
  eexists. split; [reflexivity|].
  apply (print_widths _ 2 1); reflexivity.
Defined.

(** C10: a column region with the empty constraint makes [print] raise, with
    or without a grid to show, so [print] returns its text only when no
    column region has the empty constraint; the exception is the
    [ValueError] of [max] on the empty list (every region of a board has
    cells, so nothing raises before it). *)
Theorem print_raises_on_empty_column b data r :
  In r (regions b) -> is_column r = Ok true -> constraint r = [] ->
  (forall text, print b data <> Ok text) /\
  (Forall (fun r => region r <> []) (regions b) -> print b data = Raise ValueError).
Proof.
  intros Hin Hcol Hempty.
  destruct (column_maxima_raises (regions b) r Hin Hcol Hempty) as [e [He Hval]].
  assert (Hleft : exists w, left_space_of b = Ok w).
  { unfold left_space_of. destruct (regions b) as [|r0 rs]; [destruct Hin|].
    cbn [map py_max bind]. eauto. }
  destruct Hleft as [w Hw].
  assert (Hprint : print b data = Raise e).
  { unfold print. rewrite Hw. cbn [bind]. unfold table_space_of. rewrite He.
    reflexivity. }
  split.
  - intros text. rewrite Hprint. discriminate.
  - intros Hall. rewrite Hprint. now rewrite (Hval Hall).
Qed.

Lemma print_raises_on_empty_column_witness :
  exists b r,
    NonogramBoard_init 2 = Ok b /\ nth_error (regions b) 1 = Some r /\
    (forall text, print b None <> Ok text) /\
    (Forall (fun r => region r <> []) (regions b) -> print b None = Raise ValueError).
Proof.
  eexists. eexists. split; [reflexivity|]. split; [reflexivity|].
  apply (print_raises_on_empty_column _ None (column_region 2 0)).
  - right. left. reflexivity.
  - reflexivity.
  - reflexivity.
Defined.

Lemma board_shape_inhabited b :
  board_shape b -> Forall (fun r => region r <> []) (regions b).
Proof.
  intros Hshape. apply Forall_forall. intros r Hr.
  destruct (board_shape_lines b r Hshape Hr) as [i [Hi Hline]].
  destruct (range_positive (size b) ltac:(lia)) as [l [Hl _]]. rewrite Hl in Hline.
  destruct Hline as [-> | ->]; discriminate.
Qed.

(** ** Lines, runs and gap assignments *)

Lemma sum_app l1 l2 : sum (l1 ++ l2) = sum l1 + sum l2.
Proof. unfold sum. induction l1 as [|a l1 IH]; cbn [app fold_right]; lia. Qed.

Lemma ones_app l1 l2 : ones (l1 ++ l2) = ones l1 + ones l2.
Proof. unfold ones. now rewrite map_app, sum_app. Qed.

Lemma ones_repeat_true n : ones (repeat true n) = Z.of_nat n.
Proof.
  unfold ones, sum. induction n as [|n IH]; [reflexivity|].
  cbn [repeat map fold_right]. rewrite IH. lia.
Qed.

Lemma ones_repeat_false n : ones (repeat false n) = 0.
Proof.
  unfold ones, sum. induction n as [|n IH]; [reflexivity|].
  cbn [repeat map fold_right]. rewrite IH. lia.
Qed.

Lemma gaps_ok_nonneg gs : gaps_ok gs -> Forall (fun g => 0 <= g) gs.
Proof.
  induction gs as [|g gs IH]; intros H; [constructor|].
  destruct gs as [|g' gs'].
  - constructor; [exact H | constructor].
  - destruct H as [Hg H]. constructor; [lia | now apply IH].
Qed.

Lemma pattern_from_ones gs c :
  Forall (fun r => 0 <= r) c -> List.length gs = List.length c ->
  ones (pattern_from gs c) = sum c.
Proof.
  revert gs. induction c as [|r c IH]; intros gs Hc Hlen; [reflexivity|].
  destruct gs as [|g gs]; [discriminate|]. inversion Hc; subst.
  cbn [pattern_from]. rewrite !ones_app, ones_repeat_true, ones_repeat_false, IH;
    [|assumption | now injection Hlen].
  cbn [sum fold_right]. fold (sum c). lia.
Qed.

Lemma pattern_from_length gs c :
  Forall (fun r => 0 <= r) c -> Forall (fun g => 0 <= g) gs ->
  List.length gs = List.length c ->
  len (pattern_from gs c) = sum gs + sum c.
Proof.
  unfold len. revert gs. induction c as [|r c IH]; intros gs Hc Hgs Hlen.
  - destruct gs; [reflexivity | discriminate].
  - destruct gs as [|g gs]; [discriminate|]. inversion Hc; inversion Hgs; subst.
    cbn [pattern_from]. rewrite !length_app, !repeat_length, !Nat2Z.inj_add, IH;
      [|assumption | assumption | now injection Hlen].
    cbn [sum fold_right]. fold (sum c) (sum gs). lia.
Qed.

(** Every filled cell of the laid-out line is one of the positions. *)
Lemma pattern_from_positions gs c base t :
  Forall (fun r => 0 <= r) c -> Forall (fun g => 0 <= g) gs ->
  nth_error (pattern_from gs c) t = Some true ->
  In (base + Z.of_nat t) (positions_from base gs c).
Proof.
  revert gs base t. induction c as [|r c IH]; intros gs base t Hc Hgs Ht.
  - destruct t; discriminate.
  - destruct gs as [|g gs]; [destruct t; discriminate|].
    inversion Hc as [|? ? Hr Hc']; inversion Hgs as [|? ? Hg Hgs']; subst.
    cbn [pattern_from positions_from] in *. apply in_or_app.
    destruct (Nat.ltb_spec t (Z.to_nat r)) as [Hlt|Hge].
    + left. apply in_map_iff. exists (Z.of_nat t). split; [reflexivity|].
      apply in_range. lia.
    + right. rewrite nth_error_app2 in Ht by (rewrite repeat_length; lia).
      rewrite repeat_length in Ht.
      destruct (Nat.ltb_spec (t - Z.to_nat r) (Z.to_nat g)) as [Hlt'|Hge'].
      * rewrite nth_error_app1 in Ht by (rewrite repeat_length; lia).
        apply nth_error_In, repeat_spec in Ht. discriminate.
      * rewrite nth_error_app2 in Ht by (rewrite repeat_length; lia).
        rewrite repeat_length in Ht.
        specialize (IH gs (base + r + g) _ Hc' Hgs' Ht).
        replace (base + Z.of_nat t)
          with (base + r + g + Z.of_nat (t - Z.to_nat r - Z.to_nat g)) by lia.
        exact IH.
Qed.

(** A 0/1 line that is filled wherever [pat] is, with as many filled cells
    as [pat], is [pat]. *)
Lemma dominated_le line pat :
  List.length line = List.length pat ->
  Forall (fun v => v = 0 \/ v = 1) line ->
  (forall t, nth_error pat t = Some true -> nth_error line t = Some 1) ->
  ones pat <= sum line.
Proof.
  revert pat. induction line as [|v line IH]; intros [|b pat] Hlen Hbool Hdom;
    try discriminate.
  inversion Hbool as [|? ? Hv Hbool']; subst.
  assert (Htail : ones pat <= sum line).
  { apply IH; [now injection Hlen | assumption |].
    intros t Ht. exact (Hdom (S t) Ht). }
  unfold ones in *. cbn [map sum fold_right] in *. fold (sum line).
  fold (sum (map (fun b : bool => if b then 1 else 0) pat)).
  destruct b.
  - specialize (Hdom O eq_refl). cbn in Hdom. injection Hdom as ->.
    fold (sum (map (fun b : bool => if b then 1 else 0) pat)) in Htail. lia.
  - fold (sum (map (fun b : bool => if b then 1 else 0) pat)) in Htail. lia.
Qed.

Lemma dominated_eq line pat :
  List.length line = List.length pat ->
  Forall (fun v => v = 0 \/ v = 1) line ->
  (forall t, nth_error pat t = Some true -> nth_error line t = Some 1) ->
  sum line = ones pat ->
  map filled line = pat.
Proof.
  revert pat. induction line as [|v line IH]; intros [|b pat] Hlen Hbool Hdom Hsum;
    try discriminate; [reflexivity|].
  inversion Hbool as [|? ? Hv Hbool']; subst.
  assert (Hdom' : forall t, nth_error pat t = Some true -> nth_error line t = Some 1).
  { intros t Ht. exact (Hdom (S t) Ht). }
  assert (Hlen' : List.length line = List.length pat) by now injection Hlen.
  pose proof (dominated_le line pat Hlen' Hbool' Hdom') as Hle.
  unfold ones in Hsum, Hle. cbn [map sum fold_right] in Hsum.
  fold (sum line) in Hsum.
  fold (sum (map (fun b : bool => if b then 1 else 0) pat)) in Hsum.
  cbn [map]. destruct b.
  - specialize (Hdom O eq_refl). cbn in Hdom. injection Hdom as ->.
    f_equal. apply IH; auto; unfold ones; lia.
  - assert (v = 0) by lia. subst v. f_equal. apply IH; auto; unfold ones; lia.
Qed.

(** The runs of a laid-out line are the runs it was laid out from. *)
Lemma runs_from_true n current line :
  runs_from current (repeat true n ++ line) = runs_from (current + Z.of_nat n) line.
Proof.
  revert current. induction n as [|n IH]; intros current; cbn [repeat app runs_from].
  - f_equal. lia.
  - rewrite IH. f_equal. lia.
Qed.

Lemma runs_from_false n line :
  runs_from 0 (repeat false n ++ line) = runs_from 0 line.
Proof. induction n as [|n IH]; cbn [repeat app runs_from]; [reflexivity | exact IH]. Qed.

Lemma runs_from_gap n current line :
  0 < current -> (0 < n)%nat ->
  runs_from current (repeat false n ++ line) = current :: runs_from 0 line.
Proof.
  intros Hc Hn. destruct n as [|n]; [lia|]. cbn [repeat app runs_from].
  destruct (Z.ltb_spec 0 current); [|lia]. now rewrite runs_from_false.
Qed.

Lemma runs_pattern_from gs c :
  Forall (fun r => 0 < r) c -> List.length gs = List.length c -> gaps_ok gs ->
  runs_from 0 (pattern_from gs c) = c.
Proof.
  revert gs. induction c as [|r c IH]; intros gs Hc Hlen Hgaps.
  - destruct gs; [reflexivity | discriminate].
  - destruct gs as [|g gs]; [discriminate|]. inversion Hc; subst.
    cbn [pattern_from]. rewrite runs_from_true.
    replace (0 + Z.of_nat (Z.to_nat r)) with r by lia.
    destruct gs as [|g' gs'].
    + destruct c; [|discriminate]. cbn [pattern_from]. rewrite app_nil_r.
      destruct (Z.to_nat g) as [|k] eqn:Hk.
      * cbn [repeat runs_from]. destruct (Z.ltb_spec 0 r); [reflexivity | lia].
      * rewrite <- (app_nil_r (repeat false (S k))).
        rewrite runs_from_gap by lia. reflexivity.
    + destruct Hgaps as [Hg Hgaps].
      rewrite runs_from_gap by lia. f_equal.
      apply IH; [assumption | now injection Hlen | exact Hgaps].
Qed.

Lemma runs_pattern g0 gs c :
  Forall (fun r => 0 < r) c -> List.length gs = List.length c -> gaps_ok gs ->
  runs (pattern (g0 :: gs) c) = c.
Proof.
  intros. unfold runs, pattern. rewrite runs_from_false. now apply runs_pattern_from.
Qed.

(** The line of a region under a gap assignment: cells 0/1, filled at
    every position, as many filled cells as the runs ask for, and gaps that
    add up to the cells the runs leave. *)
Lemma line_is_pattern line g0 gs c :
  Forall (fun v => v = 0 \/ v = 1) line ->
  Forall (fun r => 0 <= r) c ->
  List.length gs = List.length c -> 0 <= g0 -> Forall (fun g => 0 <= g) gs ->
  sum line = sum c ->
  sum (g0 :: gs) = len line - sum c ->
  (forall p, In p (positions_from g0 gs c) ->
             0 <= p /\ nth_error line (Z.to_nat p) = Some 1) ->
  map filled line = pattern (g0 :: gs) c.
Proof.
  intros Hbool Hc Hlen Hg0 Hgs Hsum Hgaps Hpos. unfold pattern.
  assert (Hplen : len (pattern_from gs c) = sum gs + sum c)
    by now apply pattern_from_length.
  apply dominated_eq.
  - rewrite length_app, repeat_length. unfold len in *.
    cbn [sum fold_right] in Hgaps. fold (sum gs) in Hgaps. lia.
  - exact Hbool.
  - intros t Ht.
    destruct (Nat.ltb_spec t (Z.to_nat g0)) as [Hlt|Hge].
    + rewrite nth_error_app1 in Ht by (rewrite repeat_length; lia).
      apply nth_error_In, repeat_spec in Ht. discriminate.
    + rewrite nth_error_app2 in Ht by (rewrite repeat_length; lia).
      rewrite repeat_length in Ht.
      pose proof (pattern_from_positions gs c g0 _ Hc Hgs Ht) as Hin.
      destruct (Hpos _ Hin) as [_ Hline].
      replace (Z.to_nat (g0 + Z.of_nat (t - Z.to_nat g0))) with t in Hline by lia.
      exact Hline.
  - rewrite ones_app, ones_repeat_false, pattern_from_ones by assumption. lia.
Qed.

(** ** Models under construction *)

Lemma extends_refl m : extends m m.
Proof. exists [], []. now rewrite !app_nil_r. Qed.

Lemma extends_trans m1 m2 m3 : extends m1 m2 -> extends m2 m3 -> extends m1 m3.
Proof.
  intros [vs [cs [Hv Hc]]] [vs' [cs' [Hv' Hc']]].
  exists (vs ++ vs'), (cs ++ cs'). rewrite Hv', Hc', Hv, Hc, !app_assoc. now split.
Qed.

Lemma declared_extends m m' v lb ub :
  extends m m' -> declared m v lb ub -> declared m' v lb ub.
Proof.
  intros [vs [cs [Hv _]]] Hd. unfold declared in *. rewrite Hv.
  rewrite nth_error_app1; [exact Hd|]. apply nth_error_Some. congruence.
Qed.

Lemma posted_extends m m' ct : extends m m' -> posted m ct -> posted m' ct.
Proof.
  intros [vs [cs [_ Hc]]] Hp. unfold posted in *. rewrite Hc. apply in_or_app. now left.
Qed.

Lemma respects_extends a m m' : extends m m' -> respects a m' -> respects a m.
Proof.
  intros [vs [cs [Hv Hc]]] [Hdom Hcts]. split.
  - intros k p Hk. apply Hdom. rewrite Hv, nth_error_app1; [exact Hk|].
    apply nth_error_Some. congruence.
  - intros ct Hct. apply Hcts. rewrite Hc. apply in_or_app. now left.
Qed.

Lemma in_domains_nth ps a k p :
  in_domains ps a = true -> nth_error ps k = Some p -> in_domain p (nth k a 0) = true.
Proof.
  revert a k. induction ps as [|q ps IH]; intros [|v a] [|k] Hin Hk;
    cbn [in_domains nth_error nth] in *; try discriminate.
  - injection Hk as <-. now apply andb_prop in Hin.
  - apply andb_prop in Hin. now apply IH.
Qed.

Lemma satisfies_respects m a : satisfies m a -> respects a m.
Proof.
  unfold satisfies, satisfiesb. intros H. apply andb_prop in H. destruct H as [Hd Hc].
  split.
  - intros k p Hk. eapply in_domains_nth; eassumption.
  - intros ct Hct. rewrite forallb_forall in Hc. now apply Hc.
Qed.

Lemma respects_declared a m v lb ub :
  respects a m -> declared m v lb ub -> lb <= Value a v <= ub.
Proof.
  intros [Hdom _] Hd. specialize (Hdom _ _ Hd). unfold in_domain in Hdom.
  cbn [var_lb var_ub] in Hdom. apply andb_prop in Hdom. unfold Value. lia.
Qed.

Lemma respects_posted a m ct : respects a m -> posted m ct -> holdsb a ct = true.
Proof. intros [_ Hcts] Hp. now apply Hcts. Qed.

Lemma NewIntVar_spec lb ub name m :
  let v := fst (NewIntVar lb ub name m) in
  let m' := snd (NewIntVar lb ub name m) in
  extends m m' /\ declared m' v lb ub /\ Name v = name /\ constraints m' = constraints m.
Proof.
  cbn. repeat split.
  - exists [{| var_name := name; var_lb := lb; var_ub := ub |}], [].
    cbn. now rewrite app_nil_r.
  - unfold declared. cbn. rewrite nth_error_app2 by lia. now rewrite Nat.sub_diag.
Qed.

Lemma Add_spec ct m :
  let m' := snd (Add ct m) in extends m m' /\ posted m' ct.
Proof.
  cbn. split.
  - exists [], [ct]. cbn. now rewrite app_nil_r.
  - unfold posted. cbn. apply in_or_app. right. now left.
Qed.

Lemma eval_sum a vars : eval a (LinearExpr_Sum vars) = sum (map (Value a) vars).
Proof. unfold eval, LinearExpr_Sum. cbn [terms offset]. lia. Qed.

Lemma eval_const a c : eval a (expr_const c) = c.
Proof. reflexivity. Qed.

(** A loop over a list, each step of which extends the model and
    establishes a fact that extensions keep. *)
Lemma mapB_spec {A B : Type} (f : A -> Build B) (P : A -> B -> CpModel -> Prop)
    (l : list A) :
  (forall a b m m', P a b m -> extends m m' -> P a b m') ->
  (forall a m, In a l -> extends m (snd (f a m)) /\ P a (fst (f a m)) (snd (f a m))) ->
  forall m, extends m (snd (mapB f l m)) /\
            Forall2 (fun a b => P a b (snd (mapB f l m))) l (fst (mapB f l m)).
Proof.
  intros Hmono. induction l as [|a l IH]; intros Hstep m.
  - cbn. split; [apply extends_refl | constructor].
  - cbn [mapB]. unfold bindB, ret.
    destruct (Hstep a m (or_introl eq_refl)) as [He HP].
    destruct (f a m) as [b m1] eqn:Hf. cbn [fst snd] in *.
    destruct (IH (fun a' m' Hin => Hstep a' m' (or_intror Hin)) m1) as [He' HP'].
    destruct (mapB f l m1) as [bs m2] eqn:Hm. cbn [fst snd] in *. split.
    + eapply extends_trans; eassumption.
    + constructor; [eapply Hmono; eassumption | exact HP'].
Qed.

(** ** The model of one region *)

Lemma sequence_elements_spec size idx ty offsets st m st' m' :
  sequence_elements size idx ty offsets st m = (st', m') ->
  extends m m' /\ space_variables st' = space_variables st /\
  seq_cum st' = seq_cum st /\
  exists els,
    seq_variables st' = seq_variables st ++ els /\
    Forall (region_named idx ty) els /\
    Forall2 (fun i el =>
               posted m' (LinearEq (expr_var el)
                            (expr_plus (expr_plus (LinearExpr_Sum (space_variables st))
                                                  (seq_cum st)) i)))
            offsets els.
Proof.
  revert st m. induction offsets as [|i offsets IH]; intros st m; cbn [sequence_elements].
  - intros [= <- <-]. repeat split; [apply extends_refl|].
    exists []. rewrite app_nil_r. repeat split; constructor.
  - unfold bindB.
    destruct (NewIntVar_spec 0 size
                (str idx +++ ty +++ "-el_" +++ str (seq_element st)) m)
      as [He1 [_ [Hname _]]].
    destruct (NewIntVar 0 size _ m) as [el m1]. cbn [fst snd] in *.
    set (ct := LinearEq (expr_var el)
                 (expr_plus (expr_plus (LinearExpr_Sum (space_variables st))
                                       (seq_cum st)) i)).
    destruct (Add_spec ct m1) as [He2 Hp].
    destruct (Add ct m1) as [u m2]. cbn [fst snd] in *.
    intros Hrec. apply IH in Hrec. cbn [space_variables seq_variables seq_cum] in Hrec.
    destruct Hrec as [He3 [Hsp [Hcum [els [Hseq [Hnames Hposted]]]]]].
    repeat split; auto.
    + eapply extends_trans; [exact He1|]. eapply extends_trans; eassumption.
    + exists (el :: els). rewrite Hseq, <- app_assoc. repeat split.
      * constructor; [|exact Hnames]. eexists. exact Hname.
      * constructor; [|exact Hposted]. eapply posted_extends; eassumption.
Qed.

Lemma posted_element_value a m el e :
  respects a m -> posted m (LinearEq (expr_var el) e) -> Value a el = eval a e.
Proof.
  intros Hr Hp. pose proof (respects_posted _ _ _ Hr Hp) as H.
  cbn [holdsb] in H. apply Z.eqb_eq in H. rewrite <- H.
  unfold eval, expr_var. cbn [terms offset map sum fold_right]. lia.
Qed.

Lemma Forall2_nth_error {A B : Type} (P : A -> B -> Prop) l l' k a :
  Forall2 P l l' -> nth_error l k = Some a ->
  exists b, nth_error l' k = Some b /\ P a b.
Proof.
  intros H. revert k. induction H as [|x y l l' Hxy _ IH]; intros [|k] Hk;
    try discriminate.
  - injection Hk as <-. exists y. now split.
  - now apply IH.
Qed.

Lemma sum_firstn_nonneg c i :
  Forall (fun r => 0 <= r) c -> 0 <= sum (firstn i c).
Proof.
  intros Hc. revert i. induction Hc as [|r c Hr _ IH]; intros [|i];
    cbn [firstn sum fold_right]; try lia.
  specialize (IH i). unfold sum in IH. lia.
Qed.

Lemma sequences_spec size idx ty space_max nseq :
  forall c seq_index st m st' m',
  sequences size idx ty space_max nseq seq_index c st m = (st', m') ->
  extends m m' /\
  exists news newe,
    space_variables st' = space_variables st ++ news /\
    seq_variables st' = seq_variables st ++ newe /\
    List.length news = List.length c /\
    (forall j g, nth_error news j = Some g ->
       declared m' g (if seq_index + Z.of_nat j =? nseq then 0 else 1)
                (Z.max 1 space_max)) /\
    Forall (region_named idx ty) (news ++ newe) /\
    (forall a, respects a m' ->
       map (Value a) newe
       = positions_from (sum (map (Value a) (space_variables st)) + seq_cum st)
                        (map (Value a) news) c) /\
    (Forall (fun r => 0 <= r) c ->
     len newe = sum c /\
     forall i r o, nth_error c i = Some r -> 0 <= o < r ->
       exists el,
         nth_error newe (Z.to_nat (sum (firstn i c) + o)) = Some el /\
         posted m' (LinearEq (expr_var el)
                      (expr_plus
                         (expr_plus (LinearExpr_Sum (space_variables st ++ firstn i news))
                                    (seq_cum st + sum (firstn i c))) o))).
Proof.
  induction c as [|r c IH]; intros seq_index st m st' m'; cbn [sequences].
  - intros [= <- <-]. split; [apply extends_refl|].
    exists [], []. rewrite !app_nil_r. repeat split; auto.
    + intros [|j] g Hj; discriminate.
    + intros [|i] r o Hi; discriminate.
  - unfold bindB.
    destruct (sequence_elements size idx ty (range r) st m) as [st1 m1] eqn:Hels.
    apply sequence_elements_spec in Hels.
    destruct Hels as [He1 [Hsp1 [Hcum1 [els [Hseq1 [Hnames1 Hposted1]]]]]].
    set (lo := if seq_index =? nseq then 0 else 1).
    destruct (NewIntVar_spec lo (Z.max 1 space_max)
                (str idx +++ ty +++ "-space_" +++ str seq_index) m1)
      as [He2 [Hdecl [Hname _]]].
    destruct (NewIntVar lo (Z.max 1 space_max) _ m1) as [g m2]. cbn [fst snd] in *.
    intros Hrec. apply IH in Hrec. cbn [space_variables seq_variables seq_cum] in Hrec.
    destruct Hrec as [He3 [news [newe [Hsp [Hseq [Hlen [Hdom [Hnames [Hsem Hsyn]]]]]]]]].
    assert (Hlen_els : List.length els = Z.to_nat r).
    { rewrite <- (Forall2_length Hposted1). apply range_length. }
    split; [eapply extends_trans; [exact He1|]; eapply extends_trans; eassumption|].
    exists (g :: news), (els ++ newe).
    rewrite Hsp, Hseq, Hsp1, Hseq1, <- !app_assoc. repeat split.
    + cbn [List.length]. now rewrite Hlen.
    + intros [|j] g' Hj; cbn [nth_error] in Hj.
      * injection Hj as <-. replace (seq_index + Z.of_nat 0) with seq_index by lia.
        eapply declared_extends; eassumption.
      * specialize (Hdom j g' Hj).
        replace (seq_index + Z.of_nat (S j)) with (seq_index + 1 + Z.of_nat j) by lia.
        exact Hdom.
    + apply Forall_app in Hnames. destruct Hnames as [Hn1 Hn2].
      cbn [app]. constructor; [eexists; exact Hname|].
      apply Forall_app. split; [exact Hn1|]. apply Forall_app. now split.
    + intros a Hresp. rewrite map_app, (Hsem a Hresp).
      cbn [map positions_from]. f_equal.
      * assert (Hr2 : respects a m1).
        { eapply respects_extends; [|exact Hresp]. eapply extends_trans; eassumption. }
        clear - Hposted1 Hr2. induction Hposted1 as [|i el offs els' Hp _ IH'];
          [reflexivity|]. cbn [map]. f_equal; [|exact IH'].
        rewrite (posted_element_value _ _ _ _ Hr2 Hp).
        unfold eval, expr_plus, LinearExpr_Sum. cbn [terms offset]. lia.
      * f_equal. rewrite Hsp1, Hcum1, map_app, sum_app. cbn [map sum fold_right]. lia.
    + inversion H as [|? ? Hr Hc']; subst. destruct (Hsyn Hc') as [Hl _].
      unfold len in *. rewrite length_app, Hlen_els, Nat2Z.inj_add, Hl.
      cbn [sum fold_right]. fold (sum c). lia.
    + intros [|i] r' o Hi Ho; cbn [nth_error] in Hi.
      * injection Hi as <-. cbn [firstn sum fold_right]. rewrite app_nil_r, Z.add_0_r.
        assert (Hk : nth_error (range r) (Z.to_nat o) = Some o).
        { rewrite nth_error_range by lia. f_equal. lia. }
        destruct (Forall2_nth_error _ _ _ _ _ Hposted1 Hk) as [el [Hel Hp]].
        exists el. split.
        -- replace (0 + o) with o by lia.
           rewrite nth_error_app1; [exact Hel|]. apply nth_error_Some. congruence.
        -- eapply posted_extends; [|exact Hp]. eapply extends_trans; eassumption.
      * inversion H as [|? ? Hr Hc']; subst. destruct (Hsyn Hc') as [_ Hs].
        destruct (Hs i r' o Hi Ho) as [el [Hel Hp]]. exists el. split.
        -- pose proof (sum_firstn_nonneg c i Hc') as Hnn.
           cbn [firstn sum fold_right]. fold (sum (firstn i c)).
           rewrite nth_error_app2 by lia.
           replace (Z.to_nat (r + sum (firstn i c) + o) - List.length els)%nat
             with (Z.to_nat (sum (firstn i c) + o)) by lia.
           exact Hel.
        -- cbn [firstn sum fold_right]. fold (sum (firstn i c)).
           rewrite Hsp1, Hcum1, <- app_assoc in Hp. cbn [app] in Hp.
           replace (seq_cum st + (r + sum (firstn i c)))
             with (seq_cum st + r + sum (firstn i c)) by lia.
           exact Hp.
Qed.

Lemma Forall2_left {A B : Type} (P : A -> Prop) (l : list A) (l' : list B) :
  Forall2 (fun a _ => P a) l l' -> Forall P l.
Proof. induction 1; constructor; assumption. Qed.

(** What [compile_region] declares and posts. *)
Lemma compile_region_spec size idx ty vars c m spaces seqs m' :
  compile_region size idx ty vars c m = ((spaces, seqs), m') ->
  extends m m' /\
  Forall (region_named idx ty) (spaces ++ seqs) /\
  posted m' (LinearEq (LinearExpr_Sum vars) (expr_const (sum c))) /\
  Forall (fun el => posted m' (Element el vars 1)) seqs /\
  posted m' (LinearEq (LinearExpr_Sum spaces) (expr_const (size - sum c))) /\
  exists space_0 news,
    spaces = space_0 :: news /\ List.length news = List.length c /\
    declared m' space_0 0 (size - sum c) /\
    (forall j g, nth_error news j = Some g ->
       declared m' g (if 1 + Z.of_nat j =? len c then 0 else 1)
                (Z.max 1 (size - sum c))) /\
    (forall a, respects a m' ->
       map (Value a) seqs
       = positions_from (Value a space_0) (map (Value a) news) c) /\
    (Forall (fun r => 0 <= r) c ->
     len seqs = sum c /\
     forall i r o, nth_error c i = Some r -> 0 <= o < r ->
       exists el,
         nth_error seqs (Z.to_nat (sum (firstn i c) + o)) = Some el /\
         posted m' (LinearEq (expr_var el)
                      (expr_plus (expr_plus (LinearExpr_Sum (firstn (S i) spaces))
                                            (sum (firstn i c))) o))).
Proof.
  unfold compile_region, bindB, ret.
  set (ct_sum := LinearEq (LinearExpr_Sum vars) (expr_const (sum c))).
  destruct (Add_spec ct_sum m) as [He0 Hp0].
  destruct (Add ct_sum m) as [u0 m0]. cbn [fst snd] in *.
  destruct (NewIntVar_spec 0 (size - sum c) (str idx +++ ty +++ "-space_0") m0)
    as [He1 [Hd1 [Hname1 _]]].
  destruct (NewIntVar 0 (size - sum c) _ m0) as [space_0 m1]. cbn [fst snd] in *.
  destruct (sequences size idx ty (size - sum c) (len c) 1 c _ m1) as [st m2] eqn:Hseqs.
  apply sequences_spec in Hseqs. cbn [space_variables seq_variables seq_cum] in Hseqs.
  destruct Hseqs as [He2 [news [newe [Hsp [Hseq [Hlen [Hdom [Hnames [Hsem Hsyn]]]]]]]]].
  cbn [app] in Hsp, Hseq.
  destruct (mapB_spec (fun el_var => AddElement el_var vars 1)
              (fun el _ mm => posted mm (Element el vars 1)) (seq_variables st)) with (m := m2)
    as [He3 Hp3].
  { intros el u mm mm' Hp He. eapply posted_extends; eassumption. }
  { intros el mm _. apply Add_spec. }
  destruct (mapB _ (seq_variables st) m2) as [us m3]. cbn [fst snd] in *.
  set (ct_spaces := LinearEq (LinearExpr_Sum (space_variables st))
                      (expr_const (size - sum c))).
  destruct (Add_spec ct_spaces m3) as [He4 Hp4].
  destruct (Add ct_spaces m3) as [u4 m4]. cbn [fst snd] in *.
  intros [= <- <- <-].
  assert (E14 : extends m1 m4).
  { eapply extends_trans; [exact He2|]. eapply extends_trans; eassumption. }
  assert (E24 : extends m2 m4) by (eapply extends_trans; eassumption).
  split; [eapply extends_trans; [exact He0|]; eapply extends_trans; eassumption|].
  split.
  { rewrite Hsp, Hseq. cbn [app]. constructor; [eexists; exact Hname1 | exact Hnames]. }
  split.
  { eapply posted_extends; [|exact Hp0]. eapply extends_trans; eassumption. }
  split.
  { apply Forall2_left in Hp3. eapply Forall_impl; [|exact Hp3].
    intros el Hel. eapply posted_extends; [exact He4 | exact Hel]. }
  split; [exact Hp4|].
  exists space_0, news. rewrite Hsp, Hseq.
  split; [reflexivity|]. split; [exact Hlen|].
  split; [eapply declared_extends; [exact E14 | exact Hd1]|].
  split; [intros j g Hj; eapply declared_extends; [exact E24|]; now apply Hdom|].
  split.
  - intros a Hresp. rewrite (Hsem a (respects_extends _ _ _ E24 Hresp)).
    f_equal. cbn [map sum fold_right]. lia.
  - intros Hc. destruct (Hsyn Hc) as [Hl Hs]. split; [exact Hl|].
    intros i r o Hi Ho. destruct (Hs i r o Hi Ho) as [el [Hel Hp]].
    exists el. split; [exact Hel|]. rewrite Z.add_0_l in Hp. cbn [app] in Hp.
    cbn [firstn]. eapply posted_extends; [exact E24 | exact Hp].
Qed.

(** C2, on a line of 5 cells with the runs 1 and 2: the specification's
    slack is 1, but the first gap ranges over [[0, 2]] and the gaps are
    constrained to add up to 2. *)
Lemma compile_region_slack_counts_separators :
  let out := compile_region 5 0 "r" [] [1; 2] CpModel_init in
  spec_slack 5 [1; 2] = 1 /\ fits 5 [1; 2] /\
  ~ gap_model (spec_slack 5 [1; 2]) [1; 2] (fst (fst out)) (snd out) /\
  (exists g, nth_error (fst (fst out)) 0 = Some g /\ declared (snd out) g 0 2) /\
  posted (snd out) (LinearEq (LinearExpr_Sum (fst (fst out))) (expr_const 2)).
Proof.
  cbn zeta. split; [reflexivity|]. split; [unfold fits; cbn; lia|]. split.
  - intros [_ [H0 _]]. specialize (H0 _ eq_refl). vm_compute in H0. discriminate.
  - split.
    + eexists. split; [reflexivity|]. vm_compute. reflexivity.
    + vm_compute. repeat (first [left; reflexivity | right]).
Qed.

(** C2, as the code has it: the slack is [N - sum r], the cells that the
    runs leave (the separators are counted in the gaps, not taken off the
    slack).  In the model of a region the first gap ranges over
    [[0, N - sum r]], a gap between two runs over [[1, max 1 (N - sum r)]],
    the gap after the last run over [[0, max 1 (N - sum r)]], and the gaps
    are constrained to add up to [N - sum r]; with no run the only gap
    ranges over [[0, N]] and is constrained to be [N]. *)
Theorem compile_region_gap_model size idx ty vars c m :
  let out := compile_region size idx ty vars c m in
  gap_model (space_max_of size c) c (fst (fst out)) (snd out).
Proof.
  cbn zeta. destruct (compile_region size idx ty vars c m) as [[spaces seqs] m'] eqn:Hc.
  apply compile_region_spec in Hc.
  destruct Hc as [_ [_ [_ [_ [Hsum [space_0 [news [-> [Hlen [Hd0 [Hdom _]]]]]]]]]]].
  cbn [fst snd]. unfold gap_model, space_max_of. repeat split.
  - cbn [List.length]. now rewrite Hlen.
  - intros g [= <-]. exact Hd0.
  - intros [|i] g Hi Hg; [lia|]. cbn [nth_error] in Hg. specialize (Hdom i g Hg).
    unfold len in Hdom.
    destruct (Z.eqb_spec (1 + Z.of_nat i) (Z.of_nat (List.length c))); [lia | exact Hdom].
  - intros g Hne Hg. destruct c as [|r c]; [congruence|].
    cbn [List.length nth_error] in Hg. specialize (Hdom _ g Hg). unfold len in Hdom.
    cbn [List.length] in Hdom.
    destruct (Z.eqb_spec (1 + Z.of_nat (List.length c)) (Z.of_nat (S (List.length c))));
      [exact Hdom | lia].
  - exact Hsum.
Qed.

Lemma gaps_ok_of_bounds gs :
  (forall j g, nth_error gs j = Some g ->
               (if 1 + Z.of_nat j =? len gs then 0 else 1) <= g) ->
  gaps_ok gs.
Proof.
  induction gs as [|g gs IH]; intros Hb; [exact I|].
  destruct gs as [|g' gs'].
  - specialize (Hb O g eq_refl). cbn in Hb. exact Hb.
  - split.
    + specialize (Hb O g eq_refl). unfold len in Hb. cbn [List.length] in Hb.
      destruct (Z.eqb_spec (1 + Z.of_nat 0) (Z.of_nat (S (S (List.length gs')))));
        [lia | exact Hb].
    + apply IH. intros j g0 Hj. specialize (Hb (S j) g0 Hj). unfold len in *.
      cbn [List.length] in *.
      destruct (Z.eqb_spec (1 + Z.of_nat (S j)) (Z.of_nat (S (S (List.length gs'))))),
               (Z.eqb_spec (1 + Z.of_nat j) (Z.of_nat (S (List.length gs')))); lia.
Qed.

Lemma respects_element a m el vars target :
  respects a m -> posted m (Element el vars target) ->
  0 <= Value a el /\
  nth_error (map (Value a) vars) (Z.to_nat (Value a el)) = Some target.
Proof.
  intros Hr Hp. pose proof (respects_posted _ _ _ Hr Hp) as H. cbn [holdsb] in H.
  apply andb_prop in H. destruct H as [H0 H1]. split; [lia|].
  rewrite nth_error_map.
  destruct (nth_error vars (Z.to_nat (Value a el))) as [v|]; [|discriminate].
  apply Z.eqb_eq in H1. cbn. now rewrite H1.
Qed.

(** Under an assignment that respects the model of a region, the cells of
    the region are laid out as the gap values say. *)
Lemma compile_region_line size idx ty vars c m spaces seqs m' a :
  compile_region size idx ty vars c m = ((spaces, seqs), m') ->
  respects a m' ->
  Forall (fun r => 0 <= r) c ->
  Forall (fun v => Value a v = 0 \/ Value a v = 1) vars ->
  len vars = size ->
  exists g0 gs,
    map (Value a) spaces = g0 :: gs /\ List.length gs = List.length c /\
    0 <= g0 /\ gaps_ok gs /\
    map (Value a) seqs = positions_from g0 gs c /\
    (forall el, In el seqs ->
       0 <= Value a el /\
       nth_error (map (Value a) vars) (Z.to_nat (Value a el)) = Some 1) /\
    sum (map (Value a) vars) = sum c /\
    map filled (map (Value a) vars) = pattern (g0 :: gs) c.
Proof.
  intros Hc Hresp Hruns Hbool Hlen.
  apply compile_region_spec in Hc.
  destruct Hc as [_ [_ [Hsum [Hels [Hspaces
                 [space_0 [news [-> [Hlen' [Hd0 [Hdom [Hsem _]]]]]]]]]]]].
  pose proof (respects_posted _ _ _ Hresp Hsum) as Hs. cbn [holdsb] in Hs.
  apply Z.eqb_eq in Hs. rewrite eval_sum, eval_const in Hs.
  pose proof (respects_posted _ _ _ Hresp Hspaces) as Hsp. cbn [holdsb] in Hsp.
  apply Z.eqb_eq in Hsp. rewrite eval_sum, eval_const in Hsp.
  pose proof (respects_declared _ _ _ _ _ Hresp Hd0) as Hg0.
  assert (Hgaps : gaps_ok (map (Value a) news)).
  { apply gaps_ok_of_bounds. intros j g Hj. rewrite nth_error_map in Hj.
    destruct (nth_error news j) as [v|] eqn:Hv; [|discriminate]. injection Hj as <-.
    pose proof (respects_declared _ _ _ _ _ Hresp (Hdom j v Hv)) as Hb.
    unfold len in *. rewrite length_map, Hlen'. lia. }
  assert (Hpos : forall el, In el seqs ->
             0 <= Value a el /\
             nth_error (map (Value a) vars) (Z.to_nat (Value a el)) = Some 1).
  { intros el Hel. rewrite Forall_forall in Hels.
    eapply respects_element; [exact Hresp | now apply Hels]. }
  exists (Value a space_0), (map (Value a) news). cbn [map].
  split; [reflexivity|]. split; [now rewrite length_map|].
  split; [lia|]. split; [exact Hgaps|]. split; [now apply Hsem|].
  split; [exact Hpos|]. split; [exact Hs|].
  apply line_is_pattern.
  - apply Forall_map. exact Hbool.
  - exact Hruns.
  - now rewrite length_map.
  - lia.
  - now apply gaps_ok_nonneg.
  - exact Hs.
  - cbn [map] in Hsp. rewrite Hsp. unfold len in *. rewrite length_map. lia.
  - intros p Hp. rewrite <- (Hsem a Hresp) in Hp.
    apply in_map_iff in Hp. destruct Hp as [el [<- Hel]]. now apply Hpos.
Qed.

(** C3: in the model of a region with positive runs over its [size] cell
    variables, the variable at place [r1 + .. + r(i-1) + o] of
    [seq_variables] is the position variable of cell [o] of run [i]: it is
    posted equal to the sum of the gaps before the run plus the lengths of
    the runs before it plus [o], and posted as an index at which the region
    holds a filled cell; the filled cells are posted to be [sum r] in
    number; so under any assignment that respects the model a region cell
    is filled exactly when its index is the value of a position variable. *)
Theorem compile_region_positions size idx ty vars c m :
  Forall (fun r => 0 < r) c ->
  Forall (fun v => declared m v 0 1) vars ->
  len vars = size ->
  let out := compile_region size idx ty vars c m in
  let spaces := fst (fst out) in
  let seqs := snd (fst out) in
  len seqs = sum c /\
  (forall i r o, nth_error c i = Some r -> 0 <= o < r ->
     exists el,
       nth_error seqs (Z.to_nat (sum (firstn i c) + o)) = Some el /\
       posted (snd out)
         (LinearEq (expr_var el)
            (expr_plus (expr_plus (LinearExpr_Sum (firstn (S i) spaces))
                                  (sum (firstn i c))) o)) /\
       posted (snd out) (Element el vars 1)) /\
  posted (snd out) (LinearEq (LinearExpr_Sum vars) (expr_const (sum c))) /\
  (forall a, respects a (snd out) ->
     (forall i r o el, nth_error c i = Some r -> 0 <= o < r ->
        nth_error seqs (Z.to_nat (sum (firstn i c) + o)) = Some el ->
        Value a el = position (map (Value a) spaces) c i o) /\
     (forall t, 0 <= t < size ->
        (nth_error (map (Value a) vars) (Z.to_nat t) = Some 1 <->
         exists el, In el seqs /\ Value a el = t))).
Proof.
  intros Hpos Hvars Hlen. cbn zeta.
  destruct (compile_region size idx ty vars c m) as [[spaces seqs] m'] eqn:Hc.
  cbn [fst snd].
  assert (Hnn : Forall (fun r => 0 <= r) c).
  { eapply Forall_impl; [|exact Hpos]. cbn. intros; lia. }
  pose proof (compile_region_spec _ _ _ _ _ _ _ _ _ Hc)
    as [Hext [_ [Hsum [Hels [_ [space_0 [news [Hsp [_ [_ [_ [_ Hsyn]]]]]]]]]]]].
  destruct (Hsyn Hnn) as [Hl Hs].
  split; [exact Hl|]. split.
  { intros i r o Hi Ho. destruct (Hs i r o Hi Ho) as [el [Hel Hp]].
    exists el. repeat split; auto. rewrite Forall_forall in Hels. apply Hels.
    eapply nth_error_In; eassumption. }
  split; [exact Hsum|].
  intros a Hresp.
  assert (Hbool : Forall (fun v => Value a v = 0 \/ Value a v = 1) vars).
  { eapply Forall_impl; [|exact Hvars]. intros v Hv.
    pose proof (respects_declared _ _ _ _ _ Hresp (declared_extends _ _ _ _ _ Hext Hv)).
    lia. }
  destruct (compile_region_line _ _ _ _ _ _ _ _ _ a Hc Hresp Hnn Hbool Hlen)
    as [g0 [gs [Hgs [Hlgs [Hg0 [Hgaps [Hseqs [Hfilled [Hcount Hpat]]]]]]]]].
  split.
  - intros i r o el Hi Ho Hel. destruct (Hs i r o Hi Ho) as [el' [Hel' Hp]].
    rewrite Hel in Hel'. injection Hel' as <-.
    rewrite (posted_element_value _ _ _ _ Hresp Hp).
    unfold position, eval, expr_plus, LinearExpr_Sum. cbn [terms offset].
    rewrite firstn_map. lia.
  - intros t Ht. split.
    + intros Hline.
      assert (Hpt : nth_error (pattern (g0 :: gs) c) (Z.to_nat t) = Some true).
      { rewrite <- Hpat, nth_error_map, Hline. reflexivity. }
      unfold pattern in Hpt.
      destruct (Nat.ltb_spec (Z.to_nat t) (Z.to_nat g0)) as [Hlt|Hge].
      * rewrite nth_error_app1 in Hpt by (rewrite repeat_length; lia).
        apply nth_error_In, repeat_spec in Hpt. discriminate.
      * rewrite nth_error_app2 in Hpt by (rewrite repeat_length; lia).
        rewrite repeat_length in Hpt.
        pose proof (pattern_from_positions gs c g0 _ Hnn (gaps_ok_nonneg _ Hgaps) Hpt)
          as Hin.
        rewrite <- Hseqs in Hin. apply in_map_iff in Hin.
        destruct Hin as [el [Hv Hel]]. exists el. split; [exact Hel|]. lia.
    + intros [el [Hel <-]]. now apply Hfilled.
Qed.

Lemma compile_region_positions_witness :
  let vars := fst example_cells in
  let out := compile_region 3 0 "r" vars [1; 1] (snd example_cells) in
  let a := [1; 0; 1; 0; 0; 1; 2; 0] in
  len (snd (fst out)) = 2 /\
  posted (snd out) (LinearEq (LinearExpr_Sum vars) (expr_const 2)) /\
  satisfies (snd out) a /\
  (forall t, 0 <= t < 3 ->
     (nth_error (map (Value a) vars) (Z.to_nat t) = Some 1 <->
      exists el, In el (snd (fst out)) /\ Value a el = t)).
Proof.
  cbn zeta.
  destruct (compile_region_positions 3 0 "r" (fst example_cells) [1; 1]
              (snd example_cells)) as [H1 [_ [H3 H4]]].
  - repeat constructor.
  - vm_compute. repeat constructor.
  - reflexivity.
  - assert (Hsat : satisfies
                     (snd (compile_region 3 0 "r" (fst example_cells) [1; 1]
                             (snd example_cells)))
                     [1; 0; 1; 0; 0; 1; 2; 0]) by (vm_compute; reflexivity).
    split; [exact H1|]. split; [exact H3|]. split; [exact Hsat|].
    exact (proj2 (H4 _ (satisfies_respects _ _ Hsat))).
Defined.

(** ** Names of the variables *)

Lemma all_digits_uint d : all_digits (NilEmpty.string_of_uint d) = true.
Proof. induction d; cbn [NilEmpty.string_of_uint all_digits]; auto. Qed.

(** The numeral of a natural number: digits, at least one, read back by
    [int]. *)
Lemma str_nonneg n :
  0 <= n ->
  exists c s, str n = String c s /\ is_digit c = true /\ all_digits s = true /\
              py_int (str n) = Ok n.
Proof.
  intros Hn. unfold str, py_int.
  assert (Hd : exists d, Z.to_int n = Decimal.Pos d /\ d <> Decimal.Nil).
  { destruct n as [|p|p]; [| |lia].
    - exists (Decimal.D0 Decimal.Nil). split; [reflexivity | discriminate].
    - exists (Pos.to_uint p). split; [reflexivity | apply DecimalPos.Unsigned.to_uint_nonnil]. }
  destruct Hd as [d [Hd Hnil]].
  pose proof (DecimalZ.of_to n) as Hof. rewrite Hd in *. cbn [NilZero.string_of_int].
  rewrite (NilZero.usu d Hnil). cbn [Z.of_int] in Hof. rewrite Hof.
  pose proof (all_digits_uint d) as Hall.
  assert (Hs : NilZero.string_of_uint d = NilEmpty.string_of_uint d)
    by (destruct d; (congruence || reflexivity)).
  rewrite Hs. destruct (NilEmpty.string_of_uint d) as [|c s] eqn:Hstr.
  - destruct d; (congruence || discriminate).
  - cbn [all_digits] in Hall. apply andb_prop in Hall. destruct Hall.
    exists c, s. auto.
Qed.

Lemma str_negative n : n < 0 -> exists s, str n = String "-" s.
Proof.
  intros Hn. destruct n as [|p|p]; try lia. unfold str. cbn. eauto.
Qed.

Lemma digit_not_dash c : is_digit c = true -> Ascii.eqb c "-" = false.
Proof.
  intros Hc. destruct (Ascii.eqb_spec c "-") as [->|]; [discriminate | reflexivity].
Qed.

Lemma skip_digits_app ds s :
  all_digits ds = true -> skip_digits (ds +++ s) = skip_digits s.
Proof.
  induction ds as [|c ds IH]; intros Hall; [reflexivity|].
  cbn [all_digits] in Hall. apply andb_prop in Hall. destruct Hall as [Hc Hds].
  cbn [String.append skip_digits]. rewrite Hc. now apply IH.
Qed.

Lemma split_dash_head_app ds s :
  all_digits ds = true -> split_dash_head (ds +++ String "-" s) = ds.
Proof.
  induction ds as [|c ds IH]; intros Hall; [reflexivity|].
  cbn [all_digits] in Hall. apply andb_prop in Hall. destruct Hall as [Hc Hds].
  cbn [String.append split_dash_head]. rewrite (digit_not_dash c Hc).
  f_equal. now apply IH.
Qed.

(** A cell variable, named [row-col], passes the filter of its row only. *)
Lemma cell_of_row_cell i row col v z :
  0 <= row -> 0 <= col -> Name v = str row +++ "-" +++ str col ->
  cell_of_row i (v, z) = Ok (row =? i).
Proof.
  intros Hrow Hcol Hname. unfold cell_of_row. cbn [fst]. rewrite Hname.
  destruct (str_nonneg row Hrow) as [c [s [Hs [Hc [Hall Hint]]]]].
  destruct (str_nonneg col Hcol) as [c' [s' [Hs' [Hc' _]]]].
  assert (Hdigits : all_digits (str row) = true).
  { rewrite Hs. cbn [all_digits]. now rewrite Hc, Hall. }
  change ("-" +++ str col) with (String "-" (str col)).
  assert (Hmatch : match_cell_name (str row +++ String "-" (str col)) = true).
  { unfold match_cell_name. rewrite (skip_digits_app _ _ Hdigits).
    rewrite Hs at 1. cbn [String.append starts_with_digit]. rewrite Hc.
    cbn [skip_digits andb]. change (is_digit "-") with false. cbn iota.
    rewrite Hs'. cbn [starts_with_digit]. rewrite Hc'. reflexivity. }
  rewrite Hmatch, (split_dash_head_app _ _ Hdigits), Hint. reflexivity.
Qed.

(** A space or element variable of a region passes the filter of no row. *)
Lemma cell_of_row_region i idx ty v z :
  ty = "r" \/ ty = "c" -> region_named idx ty v -> cell_of_row i (v, z) = Ok false.
Proof.
  intros Hty [rest Hname]. unfold cell_of_row. cbn [fst]. rewrite Hname.
  assert (Hmatch : match_cell_name (str idx +++ ty +++ rest) = false).
  { unfold match_cell_name. destruct (Z.lt_ge_cases idx 0) as [Hneg|Hnn].
    - destruct (str_negative idx Hneg) as [s ->]. reflexivity.
    - destruct (str_nonneg idx Hnn) as [c [s [Hs [Hc [Hall _]]]]].
      assert (Hdigits : all_digits (str idx) = true).
      { rewrite Hs. cbn [all_digits]. now rewrite Hc, Hall. }
      rewrite (skip_digits_app _ _ Hdigits).
      destruct Hty as [-> | ->]; cbn [String.append skip_digits];
        match goal with
        | |- context [is_digit ?ch] => change (is_digit ch) with false
        end; cbn iota; apply andb_false_r. }
  now rewrite Hmatch.
Qed.

(** ** The cell variables and the view of a region *)

Lemma Forall2_seq_nth {B : Type} (Q : Z -> B -> Prop) (l : list B) s n :
  Forall2 Q (map Z.of_nat (seq s n)) l ->
  List.length l = n /\
  forall k b, nth_error l k = Some b -> Q (Z.of_nat (s + k)) b.
Proof.
  revert s l. induction n as [|n IH]; intros s l H; cbn [seq map] in H.
  - inversion H; subst. split; [reflexivity|]. intros [|k] b Hk; discriminate.
  - inversion H as [|? b0 ? l0 Hq Hrest]; subst.
    destruct (IH _ _ Hrest) as [Hlen Hnth]. split; [cbn; now rewrite Hlen|].
    intros [|k] b Hk; cbn [nth_error] in Hk.
    + injection Hk as <-. now rewrite Nat.add_0_r.
    + replace (s + S k)%nat with (S s + k)%nat by lia. now apply Hnth.
Qed.

Lemma Forall2_range_nth {B : Type} (Q : Z -> B -> Prop) (l : list B) n :
  Forall2 Q (range n) l ->
  List.length l = Z.to_nat n /\ forall k b, nth_error l k = Some b -> Q (Z.of_nat k) b.
Proof. intros H. apply Forall2_seq_nth in H. exact H. Qed.

Lemma Forall2_nth_intro {A B : Type} (P : A -> B -> Prop) (l : list A) (l' : list B) :
  List.length l = List.length l' ->
  (forall k a b, nth_error l k = Some a -> nth_error l' k = Some b -> P a b) ->
  Forall2 P l l'.
Proof.
  revert l'. induction l as [|a l IH]; intros [|b l'] Hlen Hnth; try discriminate;
    constructor.
  - exact (Hnth O a b eq_refl eq_refl).
  - apply IH; [now injection Hlen|]. intros k a' b' Ha Hb. exact (Hnth (S k) _ _ Ha Hb).
Qed.

Lemma new_cells_spec n m :
  extends m (snd (new_cells n m)) /\ cells_ok n (fst (new_cells n m)) (snd (new_cells n m)).
Proof.
  unfold new_cells.
  destruct (mapB_spec
              (fun row => mapB (fun col => NewBoolVar (str row +++ "-" +++ str col)) (range n))
              (fun row vs mm =>
                 Forall2 (fun col v => declared mm v 0 1 /\
                                       Name v = str row +++ "-" +++ str col) (range n) vs)
              (range n)) with (m := m) as [Hext Hrows].
  - intros row vs m1 m2 H He. eapply Forall2_impl; [|exact H].
    cbn. intros col v [Hd Hn]. split; [eapply declared_extends; eassumption | exact Hn].
  - intros row m1 _.
    apply (mapB_spec (fun col => NewBoolVar (str row +++ "-" +++ str col))
             (fun col v mm => declared mm v 0 1 /\ Name v = str row +++ "-" +++ str col)).
    + intros col v m2 m3 [Hd Hn] He. split; [eapply declared_extends; eassumption | exact Hn].
    + intros col m2 _. unfold NewBoolVar.
      destruct (NewIntVar_spec 0 1 (str row +++ "-" +++ str col) m2) as [He [Hd [Hn _]]].
      auto.
  - split; [exact Hext|].
    apply Forall2_range_nth in Hrows. destruct Hrows as [Hlen Hrows].
    split; [exact Hlen|]. intros i row Hi. specialize (Hrows i row Hi).
    apply Forall2_range_nth in Hrows. exact Hrows.
Qed.

Lemma cells_ok_extends n cp_cell m m' :
  extends m m' -> cells_ok n cp_cell m -> cells_ok n cp_cell m'.
Proof.
  intros He [Hlen Hrows]. split; [exact Hlen|]. intros i row Hi.
  destruct (Hrows i row Hi) as [Hl Hvs]. split; [exact Hl|].
  intros j v Hj. destruct (Hvs j v Hj). split; [eapply declared_extends; eassumption | auto].
Qed.

Lemma cells_ok_row n cp_cell m i :
  cells_ok n cp_cell m -> 0 <= i < n ->
  exists row, nth_error cp_cell (Z.to_nat i) = Some row /\ List.length row = Z.to_nat n.
Proof.
  intros [Hlen Hrows] Hi.
  destruct (nth_error cp_cell (Z.to_nat i)) as [row|] eqn:Hrow.
  - exists row. split; [reflexivity|]. now destruct (Hrows _ _ Hrow).
  - apply nth_error_None in Hrow. lia.
Qed.

Lemma cells_ok_var n cp_cell m i j :
  cells_ok n cp_cell m -> 0 <= i < n -> 0 <= j < n ->
  exists v, var_at cp_cell {| x := i; y := j |} = Some v.
Proof.
  intros Hok Hi Hj. destruct (cells_ok_row _ _ _ _ Hok Hi) as [row [Hrow Hlen]].
  unfold var_at. cbn [x y]. rewrite Hrow.
  destruct (nth_error row (Z.to_nat j)) as [v|] eqn:Hv; [eauto|].
  apply nth_error_None in Hv. lia.
Qed.

(** The columns of [cp_cell], as line 212 reads them. *)
Lemma column_variables n cp_cell m i :
  cells_ok n cp_cell m -> 0 <= i < n ->
  exists col,
    mapM (fun var => getitem var i) cp_cell = Ok col /\
    Forall2 (fun row v => nth_error row (Z.to_nat i) = Some v) cp_cell col.
Proof.
  intros [_ Hrows] Hi.
  assert (H : forall row, In row cp_cell -> List.length row = Z.to_nat n).
  { intros row Hin. apply In_nth_error in Hin. destruct Hin as [k Hk].
    now destruct (Hrows _ _ Hk). }
  clear Hrows. induction cp_cell as [|row rows IH].
  - exists []. split; [reflexivity | constructor].
  - destruct IH as [col [Hcol Hall]]; [intros; apply H; now right|].
    destruct (nth_error row (Z.to_nat i)) as [v|] eqn:Hv.
    + exists (v :: col). cbn [mapM]. rewrite (getitem_nth row i v ltac:(lia) Hv), Hcol.
      split; [reflexivity | now constructor].
    + apply nth_error_None in Hv. specialize (H row (or_introl eq_refl)). lia.
Qed.

(** On a constructed board the view of a region never raises; it is a row
    or a column, and its variables are the cell variables at the
    coordinates of the region, in their order. *)
Lemma region_view_spec b cp_cell m r :
  board_shape b -> cells_ok (size b) cp_cell m -> In r (regions b) ->
  exists ty idx vars,
    region_view cp_cell r = Ok (ty, idx, vars) /\ (ty = "r" \/ ty = "c") /\
    Forall2 (fun p v => var_at cp_cell p = Some v) (region r) vars /\
    Forall (fun p => 0 <= x p < size b /\ 0 <= y p < size b) (region r) /\
    len vars = size b.
Proof.
  intros Hshape Hok Hin.
  destruct (board_shape_lines b r Hshape Hin) as [i [Hi Hline]].
  assert (Hn : 0 < size b) by lia.
  assert (Hrow_case :
    forall k, 0 <= k < size b ->
      region r = map (fun j => {| x := k; y := j |}) (range (size b)) ->
      getitem (region r) 0 = Ok {| x := k; y := 0 |} ->
      exists vars,
        getitem cp_cell k = Ok vars /\
        Forall2 (fun p v => var_at cp_cell p = Some v) (region r) vars /\
        len vars = size b).
  { intros k Hk Hr _. destruct (cells_ok_row _ _ _ _ Hok Hk) as [row [Hrow Hlen]].
    exists row. split; [apply getitem_nth; [lia | exact Hrow]|]. split.
    - rewrite Hr. apply Forall2_nth_intro.
      + now rewrite length_map, range_length.
      + intros j p v Hp Hv. rewrite nth_error_map in Hp.
        assert (Hj : (j < Z.to_nat (size b))%nat)
          by (rewrite <- Hlen; apply nth_error_Some; congruence).
        rewrite nth_error_range in Hp by exact Hj. injection Hp as <-.
        unfold var_at. cbn [x y]. rewrite Hrow, Nat2Z.id. exact Hv.
    - unfold len. lia. }
  assert (Hcoords : Forall (fun p => 0 <= x p < size b /\ 0 <= y p < size b) (region r)).
  { apply Forall_forall. intros p Hp.
    destruct Hline as [Hr|Hr]; rewrite Hr in Hp; apply in_map_iff in Hp;
      destruct Hp as [j [<- Hj]]; apply in_range in Hj; cbn [x y]; lia. }
  unfold region_view. destruct Hline as [Hr|Hr].
  - rewrite (is_row_row_line _ i Hn r Hr). cbn [bind].
    pose proof (row_line_first _ i Hn r Hr) as Hfirst. rewrite Hfirst. cbn [bind x].
    destruct (Hrow_case i Hi Hr Hfirst) as [vars [Hget [Hvars Hlen]]].
    rewrite Hget. cbn [bind]. exists "r", i, vars. auto.
  - rewrite (is_row_column_line _ i Hn r Hr). cbn [bind].
    pose proof (column_line_first _ i Hn r Hr) as Hfirst.
    destruct (Z.eqb_spec (size b) 1) as [H1|H1].
    + rewrite Hfirst. cbn [bind x].
      assert (i = 0) by lia. subst i.
      assert (Hr' : region r = map (fun j => {| x := 0; y := j |}) (range (size b))).
      { rewrite Hr, H1. reflexivity. }
      destruct (Hrow_case 0 Hi Hr' Hfirst) as [vars [Hget [Hvars Hlen]]].
      rewrite Hget. cbn [bind]. exists "r", 0, vars. auto.
    + rewrite Hfirst. cbn [bind y].
      destruct (column_variables _ _ _ i Hok Hi) as [col [Hcol Hall]].
      rewrite Hcol. cbn [bind]. exists "c", i, col.
      pose proof (Forall2_length Hall) as Hlen. destruct Hok as [Hlen' _].
      repeat split; auto.
      * rewrite Hr. apply Forall2_nth_intro.
        -- rewrite length_map, range_length. congruence.
        -- intros j p v Hp Hv. rewrite nth_error_map in Hp.
           assert (Hj : (j < Z.to_nat (size b))%nat).
           { rewrite <- Hlen', Hlen. apply nth_error_Some. congruence. }
           rewrite nth_error_range in Hp by exact Hj. injection Hp as <-.
           unfold var_at. cbn [x y]. rewrite Nat2Z.id.
           destruct (nth_error cp_cell j) as [row|] eqn:Hrow.
           ++ destruct (Forall2_nth_error _ _ _ _ _ Hall Hrow) as [v' [Hv' Hrv]].
              congruence.
           ++ apply nth_error_None in Hrow. lia.
      * unfold len. lia.
Qed.

(** ** The model of a board *)

Lemma compile_regions_spec b cp_cell m0 :
  board_shape b -> cells_ok (size b) cp_cell m0 ->
  forall rs collected m,
    (forall r, In r rs -> In r (regions b)) ->
    (forall r, In r rs -> region_taken (size b) (constraint r) = true) ->
    exists collected' mf added,
      compile_regions (size b) cp_cell rs collected m = Ok (collected', mf) /\
      extends m mf /\
      collected' = collected ++ added /\
      Forall (fun v => exists idx ty, (ty = "r" \/ ty = "c") /\ region_named idx ty v)
             added /\
      forall r, In r rs ->
        exists ty idx vars spaces seqs m1 m2,
          region_view cp_cell r = Ok (ty, idx, vars) /\
          compile_region (size b) idx ty vars (constraint r) m1 = ((spaces, seqs), m2) /\
          extends m m1 /\ extends m2 mf.
Proof.
  intros Hshape Hok. induction rs as [|r rs IH]; intros collected m Hin Htaken.
  - exists collected, m, []. cbn [compile_regions]. rewrite app_nil_r.
    repeat split; auto using extends_refl. intros r [].
  - cbn [compile_regions].
    destruct (region_view_spec b cp_cell m0 r Hshape Hok (Hin r (or_introl eq_refl)))
      as [ty [idx [vars [Hview [Hty _]]]]].
    rewrite Hview. cbn [bind]. rewrite (Htaken r (or_introl eq_refl)).
    destruct (compile_region (size b) idx ty vars (constraint r) m)
      as [[spaces seqs] m'] eqn:Hc.
    pose proof (compile_region_spec _ _ _ _ _ _ _ _ _ Hc) as [Hext [Hnames _]].
    destruct (IH (collected ++ spaces ++ seqs) m') as
      [collected' [mf [added [Hrun [Hext' [Hcol [Hadded Hregions]]]]]]].
    { intros r' Hr'. apply Hin. now right. }
    { intros r' Hr'. apply Htaken. now right. }
    exists collected', mf, ((spaces ++ seqs) ++ added).
    split; [exact Hrun|]. split; [eapply extends_trans; eassumption|].
    split; [rewrite Hcol, <- !app_assoc; reflexivity|].
    split.
    + apply Forall_app. split; [|exact Hadded].
      eapply Forall_impl; [|exact Hnames]. intros v Hv. exists idx, ty. now split.
    + intros r' [<-|Hr'].
      * exists ty, idx, vars, spaces, seqs, m, m'.
        repeat split; auto using extends_refl.
      * destruct (Hregions r' Hr')
          as [ty' [idx' [vars' [spaces' [seqs' [m1 [m2 [H1 [H2 [H3 H4]]]]]]]]]].
        exists ty', idx', vars', spaces', seqs', m1, m2.
        repeat split; auto. eapply extends_trans; eassumption.
Qed.

(** A compilation that returns has had every integer taken. *)
Lemma compile_regions_taken n cp_cell rs :
  forall collected m out,
    compile_regions n cp_cell rs collected m = Ok out ->
    forall r, In r rs -> region_taken n (constraint r) = true.
Proof.
  induction rs as [|r rs IH]; intros collected m out Hrun r' Hr'; [destruct Hr'|].
  cbn [compile_regions] in Hrun.
  destruct (region_view cp_cell r) as [[[ty idx] vars]|e]; [|discriminate].
  cbn [bind] in Hrun.
  destruct (region_taken n (constraint r)) eqn:Htaken; [|discriminate].
  destruct (compile_region n idx ty vars (constraint r) m) as [[spaces seqs] m'].
  destruct Hr' as [<-|Hr']; [exact Htaken|]. eapply IH; eassumption.
Qed.

Lemma compile_taken b cm : compile b = Ok cm -> library_takes b.
Proof.
  unfold compile, library_takes. intros Hc.
  destruct (new_cells (size b) CpModel_init) as [cp_cell m0].
  destruct (compile_regions (size b) cp_cell (regions b) [] m0) as [out|e] eqn:Hrun;
    [|discriminate].
  apply Forall_forall. eapply compile_regions_taken; eassumption.
Qed.

(** On a constructed board whose integers the library takes the compilation
    returns.  Its model holds the cell variables, one Boolean per cell, and
    for each region the model of [compile_region] over the cell variables
    along the region. *)
Lemma compile_spec b :
  board_shape b -> library_takes b ->
  exists cm cp_cell,
    compile b = Ok cm /\
    cells_ok (size b) cp_cell (cp_model cm) /\
    cp_cells cm = List.concat cp_cell /\
    Forall (fun v => exists idx ty, (ty = "r" \/ ty = "c") /\ region_named idx ty v)
           (cp_region cm) /\
    forall r, In r (regions b) ->
      exists ty idx vars spaces seqs m1 m2,
        compile_region (size b) idx ty vars (constraint r) m1 = ((spaces, seqs), m2) /\
        extends m2 (cp_model cm) /\
        Forall2 (fun p v => var_at cp_cell p = Some v) (region r) vars /\
        Forall (fun p => 0 <= x p < size b /\ 0 <= y p < size b) (region r) /\
        len vars = size b.
Proof.
  intros Hshape Htaken. unfold compile.
  destruct (new_cells_spec (size b) CpModel_init) as [_ Hok].
  destruct (new_cells (size b) CpModel_init) as [cp_cell m0]. cbn [fst snd] in Hok.
  destruct (compile_regions_spec b cp_cell m0 Hshape Hok (regions b) [] m0)
    as [collected [mf [added [Hrun [Hext [Hcol [Hadded Hregions]]]]]]];
    [auto | apply Forall_forall; exact Htaken |].
  rewrite Hrun. cbn [bind fst snd].
  eexists. exists cp_cell. split; [reflexivity|]. cbn [cp_model cp_cells cp_region].
  split; [eapply cells_ok_extends; eassumption|]. split; [reflexivity|].
  split; [rewrite Hcol; exact Hadded|].
  intros r Hr.
  destruct (Hregions r Hr) as [ty [idx [vars [spaces [seqs [m1 [m2 [H1 [H2 [H3 H4]]]]]]]]]].
  destruct (region_view_spec b cp_cell m0 r Hshape Hok Hr)
    as [ty' [idx' [vars' [Hview [_ [Hvars [Hcoords Hlen]]]]]]].
  rewrite H1 in Hview. injection Hview as <- <- <-.
  exists ty, idx, vars, spaces, seqs, m1, m2. auto.
Qed.

Lemma var_at_declared n cp_cell m p v :
  cells_ok n cp_cell m -> var_at cp_cell p = Some v -> declared m v 0 1.
Proof.
  intros [_ Hrows] Hv. unfold var_at in Hv.
  destruct (nth_error cp_cell (Z.to_nat (x p))) as [row|] eqn:Hrow; [|discriminate].
  destruct (Hrows _ _ Hrow) as [_ Hvs]. now destruct (Hvs _ _ Hv).
Qed.

(** The line of a region in the grid of an assignment. *)
Lemma region_line_grid a cp_cell r vars n :
  Forall2 (fun p v => var_at cp_cell p = Some v) (region r) vars ->
  Forall (fun p => 0 <= x p < n /\ 0 <= y p < n) (region r) ->
  region_line (grid_of a cp_cell) r = Ok (map filled (map (Value a) vars)).
Proof.
  intros Hvars Hcoords. unfold region_line.
  assert (H : mapM (cell_at (grid_of a cp_cell)) (region r)
              = Ok (map (fun v => cell_of_value (v, Value a v)) vars)).
  { induction Hvars as [|p v ps vs Hp _ IH]; [reflexivity|].
    inversion Hcoords as [|? ? [Hx Hy] Hrest]; subst.
    cbn [mapM map]. rewrite (IH Hrest).
    unfold cell_at, grid_of. unfold var_at in Hp.
    destruct (nth_error cp_cell (Z.to_nat (x p))) as [row|] eqn:Hrow; [|discriminate].
    rewrite (getitem_nth _ (x p) (map (fun v => cell_of_value (v, Value a v)) row));
      [|lia | now rewrite nth_error_map, Hrow].
    cbn [bind].
    rewrite (getitem_nth _ (y p) (cell_of_value (v, Value a v)));
      [|lia | now rewrite nth_error_map, Hp].
    reflexivity. }
  rewrite H. cbn [bind]. rewrite !map_map. reflexivity.
Qed.

(** Under an assignment that respects the model of a board with positive
    runs, the runs of each region in the grid are its constraint. *)
Lemma compiled_regions_runs b :
  board_shape b -> library_takes b -> positive_runs b ->
  exists cm cp_cell,
    compile b = Ok cm /\
    cells_ok (size b) cp_cell (cp_model cm) /\
    cp_cells cm = List.concat cp_cell /\
    Forall (fun v => exists idx ty, (ty = "r" \/ ty = "c") /\ region_named idx ty v)
           (cp_region cm) /\
    forall a, respects a (cp_model cm) ->
      forall r, In r (regions b) ->
        exists line,
          region_line (grid_of a cp_cell) r = Ok line /\ runs line = constraint r.
Proof.
  intros Hshape Htaken Hpos.
  destruct (compile_spec b Hshape Htaken)
    as [cm [cp_cell [Hcompile [Hok [Hcells [Hnames Hregions]]]]]].
  exists cm, cp_cell.
  split; [exact Hcompile|]. split; [exact Hok|]. split; [exact Hcells|].
  split; [exact Hnames|].
  intros a Hresp r Hr.
  destruct (Hregions r Hr)
    as [ty [idx [vars [spaces [seqs [m1 [m2 [Hc [Hext [Hvars [Hcoords Hlen]]]]]]]]]]].
  assert (Hruns : Forall (fun n => 0 < n) (constraint r)).
  { unfold positive_runs in Hpos. rewrite Forall_forall in Hpos. now apply Hpos. }
  assert (Hnn : Forall (fun n => 0 <= n) (constraint r)).
  { eapply Forall_impl; [|exact Hruns]. cbn. intros; lia. }
  assert (Hbool : Forall (fun v => Value a v = 0 \/ Value a v = 1) vars).
  { clear - Hvars Hok Hresp. induction Hvars as [|p v ps vs Hp _ IH]; constructor; auto.
    pose proof (respects_declared _ _ _ _ _ Hresp (var_at_declared _ _ _ _ _ Hok Hp)).
    lia. }
  destruct (compile_region_line _ _ _ _ _ _ _ _ _ a Hc
              (respects_extends _ _ _ Hext Hresp) Hnn Hbool Hlen)
    as [g0 [gs [_ [Hlgs [_ [Hgaps [_ [_ [_ Hpat]]]]]]]]].
  exists (map filled (map (Value a) vars)). split.
  - eapply region_line_grid; eassumption.
  - rewrite Hpat. now apply runs_pattern.
Qed.

(** ** The grid read back from a stored solution *)

Lemma filterM_app {A : Type} (p : A -> result bool) l1 l2 r1 r2 :
  filterM p l1 = Ok r1 -> filterM p l2 = Ok r2 -> filterM p (l1 ++ l2) = Ok (r1 ++ r2).
Proof.
  revert r1. induction l1 as [|a l1 IH]; intros r1 H1 H2; cbn [filterM app] in *.
  - injection H1 as <-. exact H2.
  - destruct (p a) as [b|]; cbn [bind] in *; [|discriminate].
    destruct (filterM p l1) as [rest|]; cbn [bind] in *; [|discriminate].
    injection H1 as <-. rewrite (IH rest eq_refl H2). cbn [bind].
    now destruct b.
Qed.

Lemma filterM_none {A : Type} (p : A -> result bool) l :
  (forall a, In a l -> p a = Ok false) -> filterM p l = Ok [].
Proof.
  induction l as [|a l IH]; intros H; [reflexivity|]. cbn [filterM].
  rewrite (H a (or_introl eq_refl)), IH; [reflexivity|]. intros; apply H; now right.
Qed.

Lemma filterM_all {A : Type} (p : A -> result bool) l :
  (forall a, In a l -> p a = Ok true) -> filterM p l = Ok l.
Proof.
  induction l as [|a l IH]; intros H; [reflexivity|]. cbn [filterM].
  rewrite (H a (or_introl eq_refl)), IH; [reflexivity|]. intros; apply H; now right.
Qed.

(** Among rows that are told apart by the filter, the filter keeps one row. *)
Lemma filterM_rows {A B : Type} (p : B -> result bool) (entry : A -> B)
    (keep : nat -> bool) :
  forall (rows : list (list A)) (s k0 : nat) (row0 : list A),
    (forall k row, nth_error rows k = Some row ->
                   forall v, In v row -> p (entry v) = Ok (keep (s + k)%nat)) ->
    nth_error rows k0 = Some row0 ->
    keep (s + k0)%nat = true ->
    (forall k, k <> k0 -> keep (s + k)%nat = false) ->
    filterM p (map entry (List.concat rows)) = Ok (map entry row0).
Proof.
  induction rows as [|row rows IH]; intros s k0 row0 Hp Hk0 Hkeep Hothers.
  - destruct k0; discriminate.
  - cbn [List.concat]. rewrite map_app. destruct k0 as [|k0].
    + injection Hk0 as <-.
      rewrite <- (app_nil_r (map entry row)) at 2.
      apply filterM_app.
      * apply filterM_all. intros e He. apply in_map_iff in He.
        destruct He as [v [<- Hv]]. rewrite (Hp O row eq_refl v Hv). now rewrite Hkeep.
      * apply filterM_none. intros e He. apply in_map_iff in He.
        destruct He as [v [<- Hv]]. apply in_concat in Hv.
        destruct Hv as [row' [Hrow' Hv]]. apply In_nth_error in Hrow'.
        destruct Hrow' as [k Hk]. rewrite (Hp (S k) row' Hk v Hv).
        now rewrite (Hothers (S k)).
    + change (map entry row0) with ([] ++ map entry row0).
      apply filterM_app.
      * apply filterM_none. intros e He. apply in_map_iff in He.
        destruct He as [v [<- Hv]]. rewrite (Hp O row eq_refl v Hv).
        now rewrite (Hothers O).
      * apply (IH (S s) k0 row0).
        -- intros k row' Hk v Hv. replace (S s + k)%nat with (s + S k)%nat by lia.
           now apply (Hp (S k) row').
        -- exact Hk0.
        -- replace (S s + k0)%nat with (s + S k0)%nat by lia. exact Hkeep.
        -- intros k Hne. replace (S s + k)%nat with (s + S k)%nat by lia.
           apply Hothers. congruence.
Qed.

Lemma mapM_seq_map {B C : Type} (g : Z -> result C) (h : B -> C) (l : list B) s :
  (forall k b, nth_error l k = Some b -> g (Z.of_nat (s + k)) = Ok (h b)) ->
  mapM g (map Z.of_nat (seq s (List.length l))) = Ok (map h l).
Proof.
  revert s. induction l as [|b l IH]; intros s H; [reflexivity|].
  cbn [List.length seq map mapM].
  pose proof (H O b eq_refl) as H0. rewrite Nat.add_0_r in H0. rewrite H0.
  cbn [bind]. rewrite (IH (S s)); [reflexivity|].
  intros k b' Hk. replace (S s + k)%nat with (s + S k)%nat by lia. now apply (H (S k)).
Qed.

(** [print_solutions] reads from a stored solution the grid that the
    assignment gives to the cell variables. *)
Lemma solution_data_grid n cp_cell m region_vars a :
  cells_ok n cp_cell m ->
  Forall (fun v => exists idx ty, (ty = "r" \/ ty = "c") /\ region_named idx ty v)
         region_vars ->
  solution_data n (on_solution_callback (List.concat cp_cell ++ region_vars) a)
  = Ok (grid_of a cp_cell).
Proof.
  intros [Hlen Hrows] Hnames. unfold solution_data, grid_of, range.
  rewrite <- Hlen.
  apply (mapM_seq_map _ (map (fun v => cell_of_value (v, Value a v))) cp_cell 0).
  intros i row Hrow. cbn [Nat.add].
  unfold on_solution_callback. rewrite map_app.
  rewrite (filterM_app _ _ _ (map (fun var => (var, Value a var)) row) []).
  - cbn [bind]. rewrite app_nil_r, map_map. reflexivity.
  - apply (filterM_rows _ _ (fun k => Z.of_nat k =? Z.of_nat i) cp_cell 0 i row).
    + intros k row' Hk v Hv. cbn [Nat.add].
      apply In_nth_error in Hv. destruct Hv as [j Hj].
      destruct (Hrows k row' Hk) as [_ Hvs]. destruct (Hvs j v Hj) as [_ Hname].
      apply (cell_of_row_cell _ (Z.of_nat k) (Z.of_nat j)); [lia | lia | exact Hname].
    + exact Hrow.
    + cbn [Nat.add]. apply Z.eqb_refl.
    + intros k Hne. cbn [Nat.add]. apply Z.eqb_neq. lia.
  - apply filterM_none. intros e He. apply in_map_iff in He.
    destruct He as [v [<- Hv]]. rewrite Forall_forall in Hnames.
    destruct (Hnames v Hv) as [idx [ty [Hty Hnamed]]].
    eapply cell_of_row_region; eassumption.
Qed.

Lemma grid_of_full n cp_cell m a :
  cells_ok n cp_cell m -> full_grid n (grid_of a cp_cell).
Proof.
  intros [Hlen Hrows]. unfold full_grid, grid_of, len. rewrite length_map. split; [lia|].
  apply Forall_forall. intros row Hrow. apply in_map_iff in Hrow.
  destruct Hrow as [vs [<- Hvs]]. apply In_nth_error in Hvs. destruct Hvs as [i Hi].
  destruct (Hrows i vs Hi) as [Hl _]. rewrite length_map. lia.
Qed.

(** ** The reference solver meets the contract *)

Lemma in_zrange v lo n : In v (zrange lo n) <-> lo <= v < lo + Z.of_nat n.
Proof.
  revert lo. induction n as [|n IH]; intros lo; cbn [zrange In].
  - lia.
  - rewrite IH. lia.
Qed.

Lemma all_assignments_spec ps a : In a (all_assignments ps) <-> in_domains ps a = true.
Proof.
  revert a. induction ps as [|p ps IH]; intros a; cbn [all_assignments in_domains].
  - destruct a as [|v a]; cbn [In]; split; intros H; auto; try discriminate.
    destruct H as [H|[]]. discriminate.
  - rewrite in_flat_map. split.
    + intros [v [Hv Ha]]. apply in_map_iff in Ha. destruct Ha as [a' [<- Ha']].
      apply in_zrange in Hv. apply IH in Ha'. rewrite Ha'. unfold in_domain.
      apply andb_true_intro. split; [|reflexivity].
      apply andb_true_intro. split; [apply Z.leb_le | apply Z.leb_le]; lia.
    + destruct a as [|v a']; [discriminate|]. intros H. apply andb_prop in H.
      destruct H as [Hd Ha']. unfold in_domain in Hd. apply andb_prop in Hd.
      destruct Hd as [Hlo Hhi]. apply Z.leb_le in Hlo, Hhi.
      exists v. split; [apply in_zrange; lia|]. apply in_map. now apply IH.
Qed.

Lemma brute_force_enumerates_all : enumerates_all brute_force.
Proof.
  intros m a. unfold brute_force, satisfies. rewrite filter_In, all_assignments_spec.
  unfold satisfiesb. split.
  - intros [_ H]. exact H.
  - intros H. split; [|exact H]. now apply andb_prop in H.
Qed.

(** ** [solve] *)

Lemma solve_compile search b :
  solve search b
  = (cm <- compile b ;;
     Ok {| size := size b; board := board b; regions := regions b;
           solutions := map (on_solution_callback (cp_cells cm ++ cp_region cm))
                            (search (cp_model cm)) |}).
Proof. reflexivity. Qed.

(** On a constructed board whose integers the library takes [solve]
    returns. *)
Lemma solve_total search b :
  board_shape b -> library_takes b -> exists b', solve search b = Ok b'.
Proof.
  intros Hshape Htaken. destruct (compile_spec b Hshape Htaken) as [cm [cp_cell [Hc _]]].
  rewrite solve_compile, Hc. cbn [bind]. eauto.
Qed.

(** A call of [solve] that returns has had every integer taken. *)
Lemma solve_taken search b b' : solve search b = Ok b' -> library_takes b.
Proof.
  rewrite solve_compile. destruct (compile b) as [cm|e] eqn:Hc; [|discriminate].
  intros _. eapply compile_taken; eassumption.
Qed.

(** A sum of run lengths at a limit of the 64-bit integers is not taken:
    [constraint_of] stores the sequence and [solve] raises at line 215. *)
Lemma solve_raises_at_int64_limit :
  exists b,
    puzzle 2 [[- 2 ^ 63]; []] [[]; []] = Ok b /\
    solve brute_force b = Raise OrtoolsError.
Proof. eexists. split; [vm_compute; reflexivity|]. vm_compute. reflexivity. Qed.

(** C1: for a constructed board with positive run lengths and a solver that
    reports exactly the satisfying assignments, every solution that [solve]
    stores reads back, the way [print_solutions] reads it, as a full grid of
    the board's size in which the runs of filled cells along every region,
    row or column, are that region's constraint. *)
Theorem solve_solutions_satisfy_constraints search b b' solution :
  enumerates_all search -> board_shape b -> positive_runs b ->
  solve search b = Ok b' -> In solution (solutions b') ->
  exists data,
    solution_data (size b) solution = Ok data /\ full_grid (size b) data /\
    forall r, In r (regions b) ->
      exists line, region_line data r = Ok line /\ runs line = constraint r.
Proof.
  intros Hsearch Hshape Hpos Hsolve Hin.
  destruct (compiled_regions_runs b Hshape (solve_taken _ _ _ Hsolve) Hpos)
    as [cm [cp_cell [Hc [Hok [Hcells [Hnames Hruns]]]]]].
  rewrite solve_compile, Hc in Hsolve. cbn [bind] in Hsolve. injection Hsolve as <-.
  cbn [solutions] in Hin. apply in_map_iff in Hin. destruct Hin as [a [<- Ha]].
  apply Hsearch, satisfies_respects in Ha.
  exists (grid_of a cp_cell). rewrite Hcells. split; [|split].
  - eapply solution_data_grid; eassumption.
  - eapply grid_of_full; eassumption.
  - now apply Hruns.
Qed.

Lemma solve_solutions_satisfy_constraints_witness :
  exists b b' solution,
    puzzle 2 [[1]; []] [[1]; []] = Ok b /\
    solve brute_force b = Ok b' /\ In solution (solutions b') /\
    exists data,
      solution_data 2 solution = Ok data /\ full_grid 2 data /\
      forall r, In r (regions b) ->
        exists line, region_line data r = Ok line /\ runs line = constraint r.
Proof.
  eexists. eexists. eexists.
  split; [vm_compute; reflexivity|].
  split; [vm_compute; reflexivity|].
  split; [left; reflexivity|].
  match goal with
  | |- context [regions ?bb] =>
      eapply (solve_solutions_satisfy_constraints brute_force bb)
  end.
  - exact brute_force_enumerates_all.
  - reflexivity.
  - repeat constructor.
  - vm_compute. reflexivity.
  - left. reflexivity.
Defined.

(** The run lengths must be positive for this: a run of length 0, which
    [constraint_of] stores like any other, fits every line and is compiled
    to no position variable.  On the 2x2 board with the row constraint
    [[0]] every region meets the fit invariant, [solve] stores a solution,
    and its grid shows no run along the row where the constraint lists
    one. *)
Lemma zero_run_is_not_read_back :
  exists b b' solution data r line,
    puzzle 2 [[0]; []] [[]; []] = Ok b /\
    Forall (fun r => fits (size b) (constraint r)) (regions b) /\
    solve brute_force b = Ok b' /\ In solution (solutions b') /\
    solution_data (size b) solution = Ok data /\
    In r (regions b) /\ constraint r = [0] /\
    region_line data r = Ok line /\ runs line = [] /\ runs line <> constraint r.
Proof.
  do 6 eexists.
  split; [vm_compute; reflexivity|].
  split; [repeat constructor; unfold fits; cbn; lia|].
  split; [vm_compute; reflexivity|].
  split; [left; reflexivity|].
  split; [vm_compute; reflexivity|].
  split; [left; reflexivity|].
  split; [reflexivity|].
  split; [vm_compute; reflexivity|].
  split; [vm_compute; reflexivity|].
  vm_compute. discriminate.
Qed.

(** The 2x2 puzzle with rows [[2]], [[2]] and columns [[1]], [[1]]: the two
    row sums ask for four filled cells, the two column sums for two. *)
Lemma puzzle_2x2_unsatisfiable :
  exists b cm,
    puzzle 2 [[2]; [2]] [[1]; [1]] = Ok b /\ board_shape b /\ compile b = Ok cm /\
    forall a, ~ satisfies (cp_model cm) a.
Proof.
  eexists. eexists.
  split; [vm_compute; reflexivity|]. split; [reflexivity|].
  split; [vm_compute; reflexivity|].
  intros a Ha. apply satisfies_respects in Ha.
  set (v00 := {| Index := 0; Name := "0-0" |}).
  set (v01 := {| Index := 1; Name := "0-1" |}).
  set (v10 := {| Index := 2; Name := "1-0" |}).
  set (v11 := {| Index := 3; Name := "1-1" |}).
  assert (H0 : sum (map (Value a) [v00; v01]) = 2).
  { rewrite <- eval_sum.
    change 2 with (eval a (expr_const 2)). apply Z.eqb_eq.
    apply (respects_posted _ _ (LinearEq (LinearExpr_Sum [v00; v01]) (expr_const 2)) Ha).
    vm_compute. repeat (first [left; reflexivity | right]). }
  assert (H1 : sum (map (Value a) [v10; v11]) = 2).
  { rewrite <- eval_sum.
    change 2 with (eval a (expr_const 2)). apply Z.eqb_eq.
    apply (respects_posted _ _ (LinearEq (LinearExpr_Sum [v10; v11]) (expr_const 2)) Ha).
    vm_compute. repeat (first [left; reflexivity | right]). }
  assert (H2 : sum (map (Value a) [v00; v10]) = 1).
  { rewrite <- eval_sum.
    change 1 with (eval a (expr_const 1)). apply Z.eqb_eq.
    apply (respects_posted _ _ (LinearEq (LinearExpr_Sum [v00; v10]) (expr_const 1)) Ha).
    vm_compute. repeat (first [left; reflexivity | right]). }
  assert (H3 : sum (map (Value a) [v01; v11]) = 1).
  { rewrite <- eval_sum.
    change 1 with (eval a (expr_const 1)). apply Z.eqb_eq.
    apply (respects_posted _ _ (LinearEq (LinearExpr_Sum [v01; v11]) (expr_const 1)) Ha).
    vm_compute. repeat (first [left; reflexivity | right]). }
  cbn [map sum fold_right] in H0, H1, H2, H3. lia.
Qed.

(** C4: with a solver that reports exactly the satisfying assignments, a
    board whose model is compiled and has no satisfying assignment is
    solved without an exception, and the stored solutions are the empty
    list.  The model is compiled for every constructed board whose integers
    the library takes (outside of them a call of the library raises while
    the model is built, before any search).  The 2x2 puzzle with rows
    [[2]], [[2]] and columns [[1]], [[1]] is such a board. *)
Theorem solve_unsatisfiable_is_empty search :
  enumerates_all search ->
  (forall b cm,
     compile b = Ok cm -> (forall a, ~ satisfies (cp_model cm) a) ->
     exists b', solve search b = Ok b' /\ solutions b' = []) /\
  (forall b, board_shape b -> library_takes b ->
     exists cm b', compile b = Ok cm /\ solve search b = Ok b') /\
  (exists b b',
     puzzle 2 [[2]; [2]] [[1]; [1]] = Ok b /\
     solve search b = Ok b' /\ solutions b' = []).
Proof.
  intros Hsearch.
  assert (Hgen : forall b cm,
            compile b = Ok cm -> (forall a, ~ satisfies (cp_model cm) a) ->
            exists b', solve search b = Ok b' /\ solutions b' = []).
  { intros b cm Hc Hunsat. rewrite solve_compile, Hc. cbn [bind]. eexists.
    split; [reflexivity|]. cbn [solutions].
    destruct (search (cp_model cm)) as [|a l] eqn:Hs; [reflexivity|].
    exfalso. apply (Hunsat a), Hsearch. rewrite Hs. now left. }
  split; [exact Hgen|]. split.
  - intros b Hshape Htaken.
    destruct (compile_spec b Hshape Htaken) as [cm [cp_cell [Hc _]]].
    exists cm. rewrite solve_compile, Hc. cbn [bind]. eauto.
  - destruct puzzle_2x2_unsatisfiable as [b [cm [Hp [Hshape [Hc Hunsat]]]]].
    destruct (Hgen b cm Hc Hunsat) as [b' [Hsolve Hempty]].
    exists b, b'. auto.
Qed.

Lemma solve_unsatisfiable_is_empty_witness :
  exists b b',
    puzzle 2 [[2]; [2]] [[1]; [1]] = Ok b /\
    solve brute_force b = Ok b' /\ solutions b' = [].
Proof.
  exact (proj2 (proj2 (solve_unsatisfiable_is_empty brute_force
                         brute_force_enumerates_all))).
Defined.

(** C7: [solve] reads the size and the regions of the board and writes
    only the stored solutions.  A second call on the board that the first
    one returned, even with a solver that reports in another order,
    returns a board with the same grid and regions whose stored solutions
    are, as a set, those of the first call.  They replace the stored list
    and are not added to it: the second call returns the very board it
    returns on the board that was never solved, whatever list is stored;
    with the solver of the first call it returns the board it was given. *)
Theorem solve_idempotent search1 search2 b b1 :
  enumerates_all search1 -> enumerates_all search2 ->
  solve search1 b = Ok b1 ->
  size b1 = size b /\ board b1 = board b /\ regions b1 = regions b /\
  solve search1 b1 = Ok b1 /\
  (forall stored,
     solve search2 {| size := size b; board := board b; regions := regions b;
                      solutions := stored |} = solve search2 b) /\
  exists b2,
    solve search2 b1 = Ok b2 /\ solve search2 b = Ok b2 /\
    size b2 = size b /\ board b2 = board b /\ regions b2 = regions b /\
    (forall solution, In solution (solutions b2) <-> In solution (solutions b1)).
Proof.
  intros H1 H2 Hsolve. rewrite solve_compile in Hsolve.
  destruct (compile b) as [cm|e] eqn:Hc; [|discriminate].
  cbn [bind] in Hsolve. injection Hsolve as <-. cbn [size board regions solutions].
  assert (Hstored : forall stored,
            compile {| size := size b; board := board b; regions := regions b;
                       solutions := stored |} = Ok cm)
    by (intros stored; exact Hc).
  split; [reflexivity|]. split; [reflexivity|]. split; [reflexivity|].
  split; [rewrite solve_compile, Hstored; reflexivity|].
  split; [intros stored; rewrite !solve_compile, Hstored, Hc; reflexivity|].
  eexists. split; [rewrite solve_compile, Hstored; cbn [bind size board regions];
                   reflexivity|].
  split; [rewrite solve_compile, Hc; reflexivity|].
  cbn [size board regions solutions].
  repeat split; intros Hin; apply in_map_iff in Hin; destruct Hin as [a [<- Ha]];
    apply in_map; [apply H1, H2 | apply H2, H1]; exact Ha.
Qed.

Lemma solve_idempotent_witness :
  exists b b1,
    puzzle 2 [[1]; []] [[1]; []] = Ok b /\
    solve brute_force b = Ok b1 /\
    size b1 = size b /\ board b1 = board b /\ regions b1 = regions b /\
    solve brute_force b1 = Ok b1 /\
    (forall stored,
       solve brute_force {| size := size b; board := board b; regions := regions b;
                            solutions := stored |} = solve brute_force b) /\
    exists b2,
      solve brute_force b1 = Ok b2 /\ solve brute_force b = Ok b2 /\
      size b2 = size b /\ board b2 = board b /\ regions b2 = regions b /\
      (forall solution, In solution (solutions b2) <-> In solution (solutions b1)).
Proof.
  eexists. eexists.
  split; [vm_compute; reflexivity|].
  split; [vm_compute; reflexivity|].
  match goal with
  | |- size ?bb1 = size ?bb /\ _ =>
      apply (solve_idempotent brute_force brute_force bb bb1)
  end.
  - exact brute_force_enumerates_all.
  - exact brute_force_enumerates_all.
  - vm_compute. reflexivity.
Defined.

(** * Further properties of the board model *)

(** ** [is_row] and [is_column] *)

(** X1: a line of at least two cells is a row or a column, never both; this is
    what tells the regions of a board with two rows or more apart. *)
Theorem regions_are_rows_or_columns b i :
  board_shape b -> 2 <= size b -> 0 <= i < size b ->
  exists r_row r_col,
    nth_error (regions b) (Z.to_nat (2 * i)) = Some r_row /\
    is_row r_row = Ok true /\ is_column r_row = Ok false /\
    getitem (region r_row) 0 = Ok {| x := i; y := 0 |} /\
    nth_error (regions b) (Z.to_nat (2 * i + 1)) = Some r_col /\
    is_row r_col = Ok false /\ is_column r_col = Ok true /\
    getitem (region r_col) 0 = Ok {| x := 0; y := i |}.
Proof.
  intros Hshape Hsize Hi.
  assert (Hn : 0 < size b) by lia.
  assert (Hne1 : (size b =? 1) = false) by (apply Z.eqb_neq; lia).
  destruct (constructed_regions_nth (size b) i Hi) as [Hrow Hcol].
  destruct (board_shape_nth b _ _ Hshape Hrow) as [r_row [Hr Hreg]].
  destruct (board_shape_nth b _ _ Hshape Hcol) as [r_col [Hc Hreg']].
  cbn [row_region column_region Region_init region] in Hreg, Hreg'.
  exists r_row, r_col.
  rewrite (is_row_row_line _ i Hn r_row Hreg), (is_column_row_line _ i Hn r_row Hreg),
    (is_row_column_line _ i Hn r_col Hreg'),
    (is_column_column_line _ i Hn r_col Hreg'),
    (row_line_first _ i Hn r_row Hreg), (column_line_first _ i Hn r_col Hreg'), Hne1.
  repeat split; assumption.
Qed.

Lemma regions_are_rows_or_columns_witness :
  exists b r_row r_col,
    NonogramBoard_init 3 = Ok b /\
    nth_error (regions b) 2 = Some r_row /\
    is_row r_row = Ok true /\ is_column r_row = Ok false /\
    nth_error (regions b) 3 = Some r_col /\
    is_row r_col = Ok false /\ is_column r_col = Ok true.
Proof.
  eexists.
  destruct (regions_are_rows_or_columns
              {| size := 3; board := repeat (repeat Cell_init 3) 3;
                 regions := constructed_regions 3; solutions := [] |} 1)
    as [r_row [r_col [H1 [H2 [H3 [_ [H4 [H5 [H6 _]]]]]]]]].
  - reflexivity.
  - cbn. lia.
  - cbn. lia.
  - exists r_row, r_col. split; [reflexivity|]. repeat split; assumption.
Defined.

(** X2: a region of one cell is a row and a column at once, and a region
    without cells makes both tests raise [IndexError]. *)
Theorem is_row_is_column_degenerate r :
  (forall p, region r = [p] -> is_row r = Ok true /\ is_column r = Ok true) /\
  (region r = [] -> is_row r = Raise IndexError /\ is_column r = Raise IndexError).
Proof.
  split.
  - intros p Hr. unfold is_row, is_column, count, len. rewrite Hr.
    cbn [getitem]. cbn. rewrite !Z.eqb_refl. cbn. split; reflexivity.
  - intros Hr. unfold is_row, is_column. rewrite Hr. split; reflexivity.
Qed.

Lemma is_row_is_column_degenerate_witness :
  is_row (Region_init [ {| x := 0; y := 0 |} ]) = Ok true /\
  is_column (Region_init [ {| x := 0; y := 0 |} ]) = Ok true.
Proof.
  apply (proj1 (is_row_is_column_degenerate (Region_init [ {| x := 0; y := 0 |} ]))
               {| x := 0; y := 0 |}).
  reflexivity.
Defined.

(** ** [constraint_of]: errors, what it keeps, how calls compose *)

Lemma row_at_region index r r' : region r = region r' -> row_at index r = row_at index r'.
Proof. intros H. unfold row_at, is_row. now rewrite H. Qed.

Lemma column_at_region index r r' :
  region r = region r' -> column_at index r = column_at index r'.
Proof. intros H. unfold column_at, is_column. now rewrite H. Qed.

Lemma select_from_regions p k rs rs' :
  (forall r r', region r = region r' -> p r = p r') ->
  map region rs = map region rs' ->
  select_from p k rs = select_from p k rs'.
Proof.
  intros Hp. revert k rs'. induction rs as [|r rs IH]; intros k [|r' rs'] Hmap;
    try discriminate; [reflexivity|].
  cbn [map] in Hmap. injection Hmap as Hr Hrs. cbn [select_from].
  now rewrite (Hp r r' Hr), (IH (S k) rs' Hrs).
Qed.

Lemma set_constraint_twice rs k c1 c2 :
  set_constraint (set_constraint rs k c1) k c2 = set_constraint rs k c2.
Proof.
  revert k. induction rs as [|r rs IH]; intros [|k]; cbn [set_constraint region];
    try reflexivity. now rewrite IH.
Qed.

Lemma selection_regions direction index rs rs' :
  map region rs = map region rs' ->
  (if (direction =? "row")%string
   then select_from (row_at index) 0 rs
   else select_from (column_at index) 0 rs)
  = (if (direction =? "row")%string
     then select_from (row_at index) 0 rs'
     else select_from (column_at index) 0 rs').
Proof.
  intros H. destruct (direction =? "row")%string; apply select_from_regions; auto.
  - intros r r'. apply row_at_region.
  - intros r r'. apply column_at_region.
Qed.

(** X3: last write wins: a second call for the same direction and index gives
    the board that this call alone would have given; nothing of the first
    sequence is left. *)
Theorem constraint_of_last_write_wins b direction index c1 c2 b1 :
  constraint_of b direction index c1 = Ok b1 ->
  constraint_of b1 direction index c2 = constraint_of b direction index c2.
Proof.
  unfold constraint_of.
  destruct (negb ((0 <=? index) && (index <? size b))) eqn:Hrange; [discriminate|].
  destruct (if (direction =? "row")%string
            then select_from (row_at index) 0 (regions b)
            else select_from (column_at index) 0 (regions b)) as [sel|e] eqn:Hsel;
    [|discriminate].
  cbn [bind]. destruct (getitem sel 0) as [k|e] eqn:Hk; [|discriminate].
  cbn [bind]. intros [= <-]. cbn [size regions board solutions]. rewrite Hrange.
  rewrite (selection_regions direction index _ (regions b)
             (set_constraint_regions (regions b) k c1)), Hsel.
  cbn [bind]. rewrite Hk. cbn [bind]. now rewrite set_constraint_twice.
Qed.

Lemma constraint_of_last_write_wins_witness :
  exists b b1,
    NonogramBoard_init 2 = Ok b /\ constraint_of b "row" 1 [1] = Ok b1 /\
    constraint_of b1 "row" 1 [2] = constraint_of b "row" 1 [2].
Proof.
  eexists. eexists. split; [reflexivity|]. split; [reflexivity|].
  apply (constraint_of_last_write_wins _ "row" 1 [1] [2]). reflexivity.
Defined.

(** X4: on a constructed board the only exception of [constraint_of] is the
    [IndexError] of an index outside [[0, size)], raised exactly then; a
    call that returns keeps the size, the grid, the stored solutions and
    the cells of every region. *)
Theorem constraint_of_raises_iff b direction index c :
  board_shape b ->
  (constraint_of b direction index c = Raise IndexError <-> ~ (0 <= index < size b)) /\
  (forall e, constraint_of b direction index c = Raise e -> e = IndexError) /\
  (forall b', constraint_of b direction index c = Ok b' ->
     size b' = size b /\ board b' = board b /\ solutions b' = solutions b /\
     map region (regions b') = map region (regions b) /\
     List.length (regions b') = List.length (regions b)).
Proof.
  intros Hshape.
  destruct (Z_le_dec 0 index) as [H0|H0]; [destruct (Z_lt_dec index (size b)) as [H1|H1]|].
  - destruct (constraint_of_in_range b direction index c Hshape (conj H0 H1))
      as [b' [k [r [Hcall [Hr [_ [_ [Hnew [Hother [Hs [Hb [Hsol Hshape']]]]]]]]]]]].
    rewrite Hcall. split; [split; [discriminate | intros H; exfalso; apply H; lia]|].
    split; [discriminate|]. intros b'' [= <-].
    assert (Hmap : map region (regions b') = map region (regions b)).
    { unfold board_shape in *. rewrite Hshape', Hs. now symmetry. }
    repeat split; auto. rewrite <- (length_map region), Hmap. apply length_map.
  - rewrite (constraint_of_out_of_range b direction index c) by lia.
    repeat split; auto; try discriminate; try lia. now intros e [= <-].
  - rewrite (constraint_of_out_of_range b direction index c) by lia.
    repeat split; auto; try discriminate; try lia. now intros e [= <-].
Qed.

Lemma constraint_of_raises_iff_witness :
  exists b,
    NonogramBoard_init 2 = Ok b /\
    constraint_of b "row" 2 [1] = Raise IndexError /\
    constraint_of b "column" (-1) [1] = Raise IndexError.
Proof.
  eexists. split; [reflexivity|].
  match goal with
  | |- constraint_of ?bb _ _ _ = _ /\ _ =>
      destruct (constraint_of_raises_iff bb "row" 2 [1] eq_refl) as [[_ H1] _];
      destruct (constraint_of_raises_iff bb "column" (-1) [1] eq_refl) as [[_ H2] _]
  end.
  split; [apply H1 | apply H2]; cbn; lia.
Defined.

(** X5: on a board of two rows or more a call with an index of the board
    returns, and writes exactly the region it names: the row [index] stands
    at position [2 * index] of the regions, the column [index] at position
    [2 * index + 1]; that region is given the sequence, its cells stay, and
    every other region is left as it was. *)
Theorem constraint_of_two_or_more b direction index c :
  board_shape b -> 2 <= size b -> 0 <= index < size b ->
  let k := Z.to_nat (if (direction =? "row")%string then 2 * index else 2 * index + 1) in
  exists b' r,
    constraint_of b direction index c = Ok b' /\
    nth_error (regions b) k = Some r /\
    region r = region (if (direction =? "row")%string
                       then row_region (size b) index
                       else column_region (size b) index) /\
    nth_error (regions b') k = Some {| region := region r; constraint := c |} /\
    (forall j, j <> k -> nth_error (regions b') j = nth_error (regions b) j).
Proof. exact (constraint_of_position b direction index c). Qed.

Lemma constraint_of_two_or_more_witness :
  exists b b' r,
    NonogramBoard_init 2 = Ok b /\
    constraint_of b "column" 1 [2] = Ok b' /\
    nth_error (regions b) 3 = Some r /\
    nth_error (regions b') 3 = Some {| region := region r; constraint := [2] |} /\
    (forall j, j <> 3%nat -> nth_error (regions b') j = nth_error (regions b) j).
Proof.
  eexists.
  destruct (constraint_of_two_or_more
              {| size := 2; board := repeat (repeat Cell_init 2) 2;
                 regions := constructed_regions 2; solutions := [] |}
              "column" 1 [2]) as [b' [r [H1 [H2 [_ [H3 H4]]]]]].
  - reflexivity.
  - cbn. lia.
  - cbn. lia.
  - exists b', r. split; [reflexivity|]. repeat split; assumption.
Defined.

Lemma board_eq b b' :
  size b = size b' -> board b = board b' -> regions b = regions b' ->
  solutions b = solutions b' -> b = b'.
Proof. destruct b, b'. cbn. intros -> -> -> ->. reflexivity. Qed.

(** X6: the order in which two different regions are given their constraints
    does not matter (on a board with two rows or more, where every call
    writes the region it names). *)
Theorem constraint_of_commute b d1 i1 c1 d2 i2 c2 :
  board_shape b -> 2 <= size b -> 0 <= i1 < size b -> 0 <= i2 < size b ->
  ((d1 =? "row")%string, i1) <> ((d2 =? "row")%string, i2) ->
  (b1 <- constraint_of b d1 i1 c1 ;; constraint_of b1 d2 i2 c2)
  = (b2 <- constraint_of b d2 i2 c2 ;; constraint_of b2 d1 i1 c1).
Proof.
  intros Hshape Hsize H1 H2 Hne.
  set (k1 := Z.to_nat (if (d1 =? "row")%string then 2 * i1 else 2 * i1 + 1)).
  set (k2 := Z.to_nat (if (d2 =? "row")%string then 2 * i2 else 2 * i2 + 1)).
  assert (Hk : k1 <> k2).
  { subst k1 k2. intros Hk. apply Hne.
    destruct (d1 =? "row")%string, (d2 =? "row")%string; try (f_equal; lia); lia. }
  assert (Hstep : forall bb d i c,
            board_shape bb -> size bb = size b -> 0 <= i < size b ->
            exists bb' r,
              constraint_of bb d i c = Ok bb' /\ board_shape bb' /\
              size bb' = size b /\ board bb' = board bb /\ solutions bb' = solutions bb /\
              let k := Z.to_nat (if (d =? "row")%string then 2 * i else 2 * i + 1) in
              nth_error (regions bb) k = Some r /\
              nth_error (regions bb') k = Some {| region := region r; constraint := c |} /\
              (forall j, j <> k -> nth_error (regions bb') j = nth_error (regions bb) j)).
  { intros bb d i c Hs Hsz Hi.
    destruct (constraint_of_position bb d i c Hs ltac:(lia) ltac:(lia))
      as [bb' [r [Hcall [Hr [_ [Hnew Hother]]]]]].
    destruct (constraint_of_in_range bb d i c Hs ltac:(lia))
      as [bb'' [_ [_ [Hcall' [_ [_ [_ [_ [_ [Hs' [Hb [Hsol Hshape']]]]]]]]]]]].
    rewrite Hcall in Hcall'. injection Hcall' as <-.
    exists bb', r. repeat split; auto. lia. }
  destruct (Hstep b d1 i1 c1 Hshape eq_refl H1)
    as [b1 [r1 [Hc1 [Hs1 [Hz1 [Hb1 [Hsol1 [Hr1 [Hn1 Ho1]]]]]]]]].
  destruct (Hstep b d2 i2 c2 Hshape eq_refl H2)
    as [b2 [r2 [Hc2 [Hs2 [Hz2 [Hb2 [Hsol2 [Hr2 [Hn2 Ho2]]]]]]]]].
  destruct (Hstep b1 d2 i2 c2 Hs1 Hz1 H2)
    as [b12 [r2' [Hc12 [_ [Hz12 [Hb12 [Hsol12 [Hr12 [Hn12 Ho12]]]]]]]]].
  destruct (Hstep b2 d1 i1 c1 Hs2 Hz2 H1)
    as [b21 [r1' [Hc21 [_ [Hz21 [Hb21 [Hsol21 [Hr21 [Hn21 Ho21]]]]]]]]].
  cbn zeta in *. fold k1 in Hr1, Hn1, Ho1, Hr21, Hn21, Ho21.
  fold k2 in Hr2, Hn2, Ho2, Hr12, Hn12, Ho12.
  rewrite Hc1, Hc2. cbn [bind]. rewrite Hc12, Hc21. f_equal.
  apply board_eq; try congruence.
  apply nth_error_ext. intros j.
  rewrite (Ho1 k2) in Hr12 by congruence. rewrite (Ho2 k1) in Hr21 by congruence.
  assert (r2' = r2) by congruence. assert (r1' = r1) by congruence. subst r1' r2'.
  destruct (Nat.eq_dec j k1) as [->|Hj1]; [|destruct (Nat.eq_dec j k2) as [->|Hj2]].
  - rewrite (Ho12 k1), Hn1, Hn21 by congruence. reflexivity.
  - rewrite Hn12, (Ho21 k2), Hn2 by congruence. reflexivity.
  - rewrite (Ho12 j), (Ho1 j), (Ho21 j), (Ho2 j) by assumption. reflexivity.
Qed.

Lemma constraint_of_commute_witness :
  exists b,
    NonogramBoard_init 2 = Ok b /\
    (b1 <- constraint_of b "row" 0 [1] ;; constraint_of b1 "column" 0 [2])
    = (b2 <- constraint_of b "column" 0 [2] ;; constraint_of b2 "row" 0 [1]).
Proof.
  eexists. split; [reflexivity|].
  apply (constraint_of_commute _ "row" 0 [1] "column" 0 [2]).
  - reflexivity.
  - cbn. lia.
  - cbn. lia.
  - cbn. lia.
  - cbn. discriminate.
Defined.

(** ** What [solve] stores *)





Lemma repeat_false_true_inj n n' (l l' : list bool) :
  repeat false n ++ true :: l = repeat false n' ++ true :: l' -> n = n' /\ l = l'.
Proof.
  revert n'. induction n as [|n IH]; intros [|n'] H; cbn [repeat app] in H.
  - injection H as <-. now split.
  - discriminate.
  - discriminate.
  - injection H as H. destruct (IH n' H) as [-> ->]. now split.
Qed.

Lemma pattern_from_starts_true g gs r c :
  0 < r -> exists l, pattern_from (g :: gs) (r :: c) = true :: l.
Proof.
  intros Hr. cbn [pattern_from]. destruct (Z.to_nat r) as [|k] eqn:Hk; [lia|].
  cbn [repeat app]. eauto.
Qed.

(** With positive runs a laid-out line tells its gaps. *)
Lemma pattern_from_inj c :
  forall gs gs',
    Forall (fun r => 0 < r) c ->
    List.length gs = List.length c -> List.length gs' = List.length c ->
    Forall (fun g => 0 <= g) gs -> Forall (fun g => 0 <= g) gs' ->
    pattern_from gs c = pattern_from gs' c -> gs = gs'.
Proof.
  induction c as [|r c IH]; intros gs gs' Hc Hl Hl' Hg Hg' Heq.
  - destruct gs, gs'; try discriminate. reflexivity.
  - destruct gs as [|g gs], gs' as [|g' gs']; try discriminate.
    inversion Hc as [|? ? Hr Hc']; inversion Hg as [|? ? Hg0 Hgs];
      inversion Hg' as [|? ? Hg0' Hgs']; subst.
    cbn [pattern_from] in Heq. apply app_inv_head in Heq.
    destruct c as [|r' c'].
    + destruct gs, gs'; try discriminate. cbn [pattern_from] in Heq.
      rewrite !app_nil_r in Heq. apply (f_equal (@List.length bool)) in Heq.
      rewrite !repeat_length in Heq. f_equal. lia.
    + destruct gs as [|g1 gs1], gs' as [|g1' gs1']; try discriminate.
      inversion Hc' as [|? ? Hr' _]; subst.
      destruct (pattern_from_starts_true g1 gs1 r' c' Hr') as [l Hl1].
      destruct (pattern_from_starts_true g1' gs1' r' c' Hr') as [l' Hl1'].
      pose proof Heq as Heq'. rewrite Hl1, Hl1' in Heq'.
      apply repeat_false_true_inj in Heq'. destruct Heq' as [Hn Hll].
      assert (g = g') by lia. subst g'. f_equal.
      apply app_inv_head in Heq.
      apply IH; auto.
Qed.

Lemma pattern_inj c g0 gs g0' gs' :
  Forall (fun r => 0 < r) c ->
  List.length gs = List.length c -> List.length gs' = List.length c ->
  0 <= g0 -> 0 <= g0' ->
  Forall (fun g => 0 <= g) gs -> Forall (fun g => 0 <= g) gs' ->
  pattern (g0 :: gs) c = pattern (g0' :: gs') c -> g0 = g0' /\ gs = gs'.
Proof.
  intros Hc Hl Hl' H0 H0' Hg Hg' Heq. unfold pattern in Heq.
  destruct c as [|r c].
  - destruct gs, gs'; try discriminate. cbn [pattern_from] in Heq.
    rewrite !app_nil_r in Heq. apply (f_equal (@List.length bool)) in Heq.
    rewrite !repeat_length in Heq. split; [lia | reflexivity].
  - destruct gs as [|g gs], gs' as [|g' gs']; try discriminate.
    inversion Hc as [|? ? Hr _]; subst.
    destruct (pattern_from_starts_true g gs r c Hr) as [l Hl1].
    destruct (pattern_from_starts_true g' gs' r c Hr) as [l' Hl1'].
    pose proof Heq as Heq'. rewrite Hl1, Hl1' in Heq'.
    apply repeat_false_true_inj in Heq'. destruct Heq' as [Hn _].
    assert (g0 = g0') by lia. subst g0'. split; [reflexivity|].
    apply app_inv_head in Heq. now apply (pattern_from_inj (r :: c)).
Qed.

Lemma map_eq_pointwise {A B : Type} (f g : A -> B) (l : list A) :
  map f l = map g l -> forall a, In a l -> f a = g a.
Proof.
  induction l as [|x l IH]; intros H a Ha; [destruct Ha|].
  cbn [map] in H. injection H as Hx Hl. destruct Ha as [<-|Ha]; auto.
Qed.

Lemma var_at_in_cells cp_cell p v :
  var_at cp_cell p = Some v -> In v (List.concat cp_cell).
Proof.
  unfold var_at. intros H.
  destruct (nth_error cp_cell (Z.to_nat (x p))) as [row|] eqn:Hrow; [|discriminate].
  apply in_concat. exists row. split; eapply nth_error_In; eassumption.
Qed.

(** Every variable collected by the loop over the regions is a space or
    an element variable of one of them. *)
Lemma compile_regions_members b cp_cell m0 :
  board_shape b -> cells_ok (size b) cp_cell m0 ->
  forall rs collected m collected' mf,
    (forall r, In r rs -> In r (regions b)) ->
    compile_regions (size b) cp_cell rs collected m = Ok (collected', mf) ->
    exists added,
      collected' = collected ++ added /\
      forall v, In v added ->
        exists r ty idx vars spaces seqs m1 m2,
          In r rs /\ region_view cp_cell r = Ok (ty, idx, vars) /\
          compile_region (size b) idx ty vars (constraint r) m1 = ((spaces, seqs), m2) /\
          extends m2 mf /\ In v (spaces ++ seqs).
Proof.
  intros Hshape Hok. induction rs as [|r rs IH]; intros collected m collected' mf Hin.
  - cbn [compile_regions]. intros [= <- <-]. exists []. rewrite app_nil_r.
    split; [reflexivity | intros v []].
  - cbn [compile_regions].
    destruct (region_view_spec b cp_cell m0 r Hshape Hok (Hin r (or_introl eq_refl)))
      as [ty [idx [vars [Hview _]]]].
    rewrite Hview. cbn [bind].
    destruct (region_taken (size b) (constraint r)) eqn:Htaken; [|discriminate].
    destruct (compile_region (size b) idx ty vars (constraint r) m)
      as [[spaces seqs] m'] eqn:Hc.
    intros Hrun.
    destruct (compile_regions_spec b cp_cell m0 Hshape Hok rs
                (collected ++ spaces ++ seqs) m')
      as [c2 [mf2 [_ [Hrun' [Hext' _]]]]].
    { intros r' Hr'. apply Hin. now right. }
    { exact (compile_regions_taken _ _ _ _ _ _ Hrun). }
    rewrite Hrun in Hrun'. injection Hrun' as <- <-.
    destruct (IH _ _ _ _ (fun r' Hr' => Hin r' (or_intror Hr')) Hrun)
      as [added [Hcol Hmem]].
    exists ((spaces ++ seqs) ++ added). split; [rewrite Hcol, <- !app_assoc; reflexivity|].
    intros v Hv. apply in_app_or in Hv. destruct Hv as [Hv|Hv].
    + exists r, ty, idx, vars, spaces, seqs, m, m'. repeat split; auto. now left.
    + destruct (Hmem v Hv)
        as [r' [ty' [idx' [vars' [sp' [sq' [m1 [m2 [H1 [H2 [H3 [H4 H5]]]]]]]]]]]].
      exists r', ty', idx', vars', sp', sq', m1, m2. repeat split; auto. now right.
Qed.

(** X8: with positive run lengths the cells of a solution tell all of it: no
    two stored solutions of one call show the same grid, unless they are
    the same solution. *)
Theorem solve_one_solution_per_grid search b b' s1 s2 :
  enumerates_all search -> board_shape b -> positive_runs b ->
  solve search b = Ok b' ->
  In s1 (solutions b') -> In s2 (solutions b') ->
  solution_data (size b) s1 = solution_data (size b) s2 ->
  s1 = s2.
Proof.
  intros Hsearch Hshape Hpos Hsolve H1 H2 Hdata.
  pose proof Hsolve as Hsolve'. unfold solve, compile in Hsolve'.
  destruct (new_cells_spec (size b) CpModel_init) as [_ Hok0].
  destruct (new_cells (size b) CpModel_init) as [cp_cell m0] eqn:Hcells.
  cbn [fst snd] in Hok0.
  destruct (compile_regions (size b) cp_cell (regions b) [] m0) as [[collected mf]|e]
    eqn:Hrun; [|discriminate].
  cbn [bind fst snd cp_model cp_cells cp_region] in Hsolve'.
  injection Hsolve' as <-. cbn [solutions] in H1, H2.
  apply in_map_iff in H1, H2. destruct H1 as [a1 [<- Ha1]], H2 as [a2 [<- Ha2]].
  apply Hsearch, satisfies_respects in Ha1. apply Hsearch, satisfies_respects in Ha2.
  destruct (compile_regions_spec b cp_cell m0 Hshape Hok0 (regions b) [] m0)
    as [c2 [mf2 [added [Hrun' [Hext [Hcol [Hnames _]]]]]]];
    [auto | exact (compile_regions_taken _ _ _ _ _ _ Hrun) |].
  rewrite Hrun in Hrun'. injection Hrun' as <- <-. cbn [app] in Hcol.
  assert (Hok : cells_ok (size b) cp_cell mf) by (eapply cells_ok_extends; eassumption).
  assert (Hnames' : Forall (fun v => exists idx ty, (ty = "r" \/ ty = "c") /\
                                       region_named idx ty v) collected)
    by (rewrite Hcol; exact Hnames).
  rewrite (solution_data_grid _ _ _ _ a1 Hok Hnames'),
    (solution_data_grid _ _ _ _ a2 Hok Hnames') in Hdata.
  injection Hdata as Hgrid.
  assert (Hcellv : forall v, In v (List.concat cp_cell) -> Value a1 v = Value a2 v).
  { intros v Hv. apply in_concat in Hv. destruct Hv as [row [Hrow Hv]].
    unfold grid_of in Hgrid.
    pose proof (map_eq_pointwise _ _ _ Hgrid row Hrow) as Hr.
    pose proof (map_eq_pointwise _ _ _ Hr v Hv) as Hc.
    unfold cell_of_value in Hc. cbn [snd] in Hc. injection Hc as Hc.
    apply In_nth_error in Hrow. destruct Hrow as [i Hi].
    apply In_nth_error in Hv. destruct Hv as [j Hj].
    destruct Hok as [_ Hrows]. destruct (Hrows i row Hi) as [_ Hvs].
    destruct (Hvs j v Hj) as [Hd _].
    pose proof (respects_declared _ _ _ _ _ Ha1 Hd).
    pose proof (respects_declared _ _ _ _ _ Ha2 Hd).
    destruct (Z.eqb_spec (Value a1 v) 0), (Z.eqb_spec (Value a2 v) 0);
      cbn in Hc; try discriminate; lia. }
  destruct (compile_regions_members b cp_cell m0 Hshape Hok0 (regions b) [] m0
              collected mf (fun r Hr => Hr) Hrun) as [added' [Hcol' Hmem]].
  cbn [app] in Hcol'. subst added'.
  unfold on_solution_callback. apply map_ext_in. intros v Hv. f_equal.
  apply in_app_or in Hv. destruct Hv as [Hv|Hv]; [now apply Hcellv|].
  destruct (Hmem v Hv)
    as [r [ty [idx [vars [spaces [seqs [m1 [m2 [Hr [Hview [Hc [Hext2 Hin]]]]]]]]]]]].
  destruct (region_view_spec b cp_cell m0 r Hshape Hok0 Hr)
    as [ty' [idx' [vars' [Hview' [_ [Hvars [_ Hlen]]]]]]].
  rewrite Hview in Hview'. injection Hview' as <- <- <-.
  assert (Hruns : Forall (fun n => 0 < n) (constraint r)).
  { unfold positive_runs in Hpos. rewrite Forall_forall in Hpos. now apply Hpos. }
  assert (Hnn : Forall (fun n => 0 <= n) (constraint r)).
  { eapply Forall_impl; [|exact Hruns]. cbn. intros; lia. }
  assert (Hvars_cells : forall u, In u vars -> In u (List.concat cp_cell)).
  { clear - Hvars. induction Hvars as [|p u ps us Hp _ IH]; intros w Hw;
      [destruct Hw|]. destruct Hw as [<-|Hw]; [|now apply IH].
    eapply var_at_in_cells; eassumption. }
  assert (Hbool : forall a, respects a mf ->
            Forall (fun u => Value a u = 0 \/ Value a u = 1) vars).
  { intros a Ha. clear - Hvars Hok Ha.
    induction Hvars as [|p u ps us Hp _ IH]; constructor; auto.
    pose proof (respects_declared _ _ _ _ _ Ha (var_at_declared _ _ _ _ _ Hok Hp)).
    lia. }
  destruct (compile_region_line _ _ _ _ _ _ _ _ _ a1 Hc
              (respects_extends _ _ _ Hext2 Ha1) Hnn (Hbool a1 Ha1) Hlen)
    as [g0 [gs [Hsp1 [Hl1 [Hg0 [Hgaps1 [Hseq1 [_ [_ Hpat1]]]]]]]]].
  destruct (compile_region_line _ _ _ _ _ _ _ _ _ a2 Hc
              (respects_extends _ _ _ Hext2 Ha2) Hnn (Hbool a2 Ha2) Hlen)
    as [g0' [gs' [Hsp2 [Hl2 [Hg0' [Hgaps2 [Hseq2 [_ [_ Hpat2]]]]]]]]].
  assert (Hline : map (Value a1) vars = map (Value a2) vars).
  { apply map_ext_in. intros u Hu. apply Hcellv. now apply Hvars_cells. }
  rewrite Hline, Hpat2 in Hpat1.
  destruct (pattern_inj (constraint r) g0' gs' g0 gs) as [-> ->]; auto using gaps_ok_nonneg.
  apply in_app_or in Hin. destruct Hin as [Hin|Hin].
  - apply (map_eq_pointwise (Value a1) (Value a2) spaces); [congruence | exact Hin].
  - apply (map_eq_pointwise (Value a1) (Value a2) seqs); [congruence | exact Hin].
Qed.

Lemma solve_one_solution_per_grid_witness :
  exists b b' s,
    puzzle 2 [[1]; []] [[1]; []] = Ok b /\ solve brute_force b = Ok b' /\
    In s (solutions b') /\ s = s.
Proof.
  eexists. eexists. eexists.
  split; [vm_compute; reflexivity|]. split; [vm_compute; reflexivity|].
  split; [left; reflexivity|].
  match goal with
  | |- ?s = ?s =>
      eapply (solve_one_solution_per_grid brute_force
                {| size := 2; board := repeat (repeat Cell_init 2) 2;
                   regions := [ {| region := region (row_region 2 0); constraint := [1] |};
                                {| region := region (column_region 2 0); constraint := [1] |};
                                {| region := region (row_region 2 1); constraint := [] |};
                                {| region := region (column_region 2 1); constraint := [] |} ];
                   solutions := [] |} _ s s)
  end.
  - exact brute_force_enumerates_all.
  - reflexivity.
  - repeat constructor.
  - vm_compute. reflexivity.
  - left. reflexivity.
  - left. reflexivity.
  - reflexivity.
Defined.

(** ** Every grid that meets the constraints is found *)

Lemma in_domains_length ps a : in_domains ps a = true -> List.length a = List.length ps.
Proof.
  revert a. induction ps as [|p ps IH]; intros [|v a] H; cbn [in_domains] in H;
    try discriminate; [reflexivity|].
  apply andb_prop in H. cbn [List.length]. f_equal. now apply IH.
Qed.

Lemma in_domains_app ps ps' a a' :
  in_domains ps a = true -> in_domains ps' a' = true ->
  in_domains (ps ++ ps') (a ++ a') = true.
Proof.
  revert a. induction ps as [|p ps IH]; intros [|v a] H H'; cbn [in_domains app] in *;
    try discriminate; [exact H'|].
  apply andb_prop in H. destruct H as [-> H]. cbn [andb]. now apply IH.
Qed.

Lemma ready_length m a : ready m a -> List.length a = List.length (variables m).
Proof.
  intros [Hsat _]. unfold satisfies, satisfiesb in Hsat. apply andb_prop in Hsat.
  now apply in_domains_length.
Qed.

Lemma Value_app a a' v : (Index v < List.length a)%nat -> Value (a ++ a') v = Value a v.
Proof. intros H. unfold Value. now apply app_nth1. Qed.

Lemma values_app a a' vs :
  Forall (fun v => (Index v < List.length a)%nat) vs ->
  map (Value (a ++ a')) vs = map (Value a) vs.
Proof.
  intros H. apply map_ext_in. intros v Hv. rewrite Forall_forall in H.
  apply Value_app. now apply H.
Qed.

Lemma holdsb_app a a' ct :
  (forall v, In v (vars_of ct) -> (Index v < List.length a)%nat) ->
  holdsb (a ++ a') ct = holdsb a ct.
Proof.
  intros H. destruct ct as [lhs rhs|index vars target]; cbn [holdsb vars_of] in *.
  - unfold eval. rewrite !values_app; [reflexivity| |];
      apply Forall_forall; intros v Hv; apply H, in_or_app; auto.
  - rewrite (Value_app a a' index) by (apply H; now left).
    destruct (nth_error vars (Z.to_nat (Value a index))) as [v|] eqn:Hv; [|reflexivity].
    rewrite (Value_app a a' v); [reflexivity|]. apply H. right.
    eapply nth_error_In; eassumption.
Qed.

(** A new variable: any value of its domain extends the assignment. *)
Lemma ready_NewIntVar lb ub name m a z :
  ready m a -> lb <= z <= ub ->
  let v := fst (NewIntVar lb ub name m) in
  let m' := snd (NewIntVar lb ub name m) in
  ready m' (a ++ [z]) /\ Index v = List.length a /\ Value (a ++ [z]) v = z.
Proof.
  intros Hready Hz. pose proof (ready_length _ _ Hready) as Hlen.
  destruct Hready as [Hsat Hclosed]. cbn zeta. cbn [NewIntVar fst snd Index].
  split; [split|split].
  - unfold satisfies, satisfiesb in *. cbn [variables constraints].
    apply andb_prop in Hsat. destruct Hsat as [Hd Hc].
    apply andb_true_intro. split.
    + apply in_domains_app; [exact Hd|]. cbn [in_domains]. unfold in_domain.
      cbn [var_lb var_ub]. rewrite andb_true_r.
      apply andb_true_intro. split; apply Z.leb_le; lia.
    + apply forallb_forall. intros ct Hct. rewrite holdsb_app by now apply Hclosed.
      rewrite forallb_forall in Hc. now apply Hc.
  - cbn [constraints]. intros ct Hct v Hv. rewrite length_app. specialize (Hclosed ct Hct v Hv).
    lia.
  - now symmetry.
  - unfold Value. cbn [Index]. rewrite <- Hlen, nth_middle. reflexivity.
Qed.

(** A new constraint over variables of the model that holds keeps the
    assignment. *)
Lemma ready_Add ct m a :
  ready m a ->
  (forall v, In v (vars_of ct) -> (Index v < List.length a)%nat) ->
  holdsb a ct = true ->
  ready (snd (Add ct m)) a.
Proof.
  intros [Hsat Hclosed] Hscope Hholds. cbn [Add snd]. split.
  - unfold satisfies, satisfiesb in *. cbn [variables constraints].
    apply andb_prop in Hsat. destruct Hsat as [Hd Hc]. rewrite Hd. cbn [andb].
    rewrite forallb_app, Hc. cbn [forallb]. now rewrite Hholds.
  - cbn [constraints]. intros ct' Hct'. apply in_app_or in Hct'.
    destruct Hct' as [Hct'|[<-|[]]]; [now apply Hclosed | exact Hscope].
Qed.

(** The cell variables of one row take the values asked for. *)
Lemma row_cells_complete (name : Z -> string) cols vals m a :
  ready m a -> List.length vals = List.length cols ->
  Forall (fun z => 0 <= z <= 1) vals ->
  let vs := fst (mapB (fun col => NewBoolVar (name col)) cols m) in
  let m' := snd (mapB (fun col => NewBoolVar (name col)) cols m) in
  ready m' (a ++ vals) /\ map (Value (a ++ vals)) vs = vals /\
  Forall (fun v => (Index v < List.length (a ++ vals))%nat) vs.
Proof.
  revert vals m a. induction cols as [|col cols IH]; intros [|z vals] m a Hready Hlen Hvals;
    try discriminate; cbn zeta.
  - cbn [mapB ret fst snd map]. rewrite app_nil_r.
    split; [exact Hready|]. split; [reflexivity | constructor].
  - inversion Hvals as [|? ? Hz Hvals']; subst.
    cbn [mapB]. unfold bindB, ret, NewBoolVar.
    destruct (ready_NewIntVar 0 1 (name col) m a z Hready Hz) as [Hr1 [Hidx Hval]].
    destruct (NewIntVar 0 1 (name col) m) as [v m1]. cbn [fst snd] in *.
    destruct (IH vals m1 (a ++ [z]) Hr1 ltac:(now injection Hlen) Hvals')
      as [Hr2 [Hvs Hscope]].
    destruct (mapB _ cols m1) as [vs m2]. cbn [fst snd] in *.
    rewrite <- app_assoc in Hr2, Hvs, Hscope. cbn [app] in Hr2, Hvs, Hscope.
    split; [exact Hr2|]. split.
    + cbn [map]. rewrite Hvs. f_equal.
      change (a ++ z :: vals) with (a ++ [z] ++ vals). rewrite app_assoc.
      rewrite Value_app; [exact Hval|]. rewrite length_app. cbn. lia.
    + constructor; [|exact Hscope]. rewrite length_app. cbn. lia.
Qed.

Lemma new_cells_rows_complete (n : Z) rows valss m a :
  ready m a -> List.length valss = List.length rows ->
  Forall (fun vals => List.length vals = Z.to_nat n /\
                      Forall (fun z => 0 <= z <= 1) vals) valss ->
  let f := fun row =>
             mapB (fun col => NewBoolVar (str row +++ "-" +++ str col)) (range n) in
  let cp := fst (mapB f rows m) in
  let m' := snd (mapB f rows m) in
  ready m' (a ++ List.concat valss) /\
  map (map (Value (a ++ List.concat valss))) cp = valss /\
  Forall (Forall (fun v => (Index v < List.length (a ++ List.concat valss))%nat)) cp.
Proof.
  revert valss m a. induction rows as [|row rows IH];
    intros [|vals valss] m a Hready Hlen Hvals; try discriminate; cbn zeta.
  - cbn [mapB ret fst snd map List.concat]. rewrite app_nil_r.
    split; [exact Hready|]. split; [reflexivity | constructor].
  - inversion Hvals as [|? ? [Hl Hz] Hvals']; subst.
    cbn [mapB]. unfold bindB, ret.
    destruct (row_cells_complete (fun col => str row +++ "-" +++ str col)
                (range n) vals m a Hready) as [Hr1 [Hvs Hsc]];
      [now rewrite range_length | exact Hz |].
    cbn zeta in Hr1, Hvs, Hsc.
    destruct (mapB (fun col => NewBoolVar (str row +++ "-" +++ str col)) (range n) m)
      as [vs m1]. cbn [fst snd] in *.
    destruct (IH valss m1 (a ++ vals) Hr1 ltac:(now injection Hlen) Hvals')
      as [Hr2 [Hcp Hscope]]. cbn zeta in Hr2, Hcp, Hscope.
    destruct (mapB _ rows m1) as [cp m2]. cbn [fst snd] in *.
    cbn [List.concat]. rewrite app_assoc.
    split; [exact Hr2|]. split.
    + cbn [map]. rewrite Hcp. f_equal. rewrite values_app; [exact Hvs | exact Hsc].
    + constructor; [|exact Hscope]. eapply Forall_impl; [|exact Hsc].
      cbn. intros v Hv. rewrite length_app. lia.
Qed.

Lemma scoped_app (a a' : Assignment) (vs : list IntVar) :
  Forall (fun v => (Index v < List.length a)%nat) vs ->
  Forall (fun v => (Index v < List.length (a ++ a'))%nat) vs.
Proof.
  intros H. eapply Forall_impl; [|exact H]. cbn. intros v Hv. rewrite length_app. lia.
Qed.

Lemma sequence_elements_complete size idx ty offsets :
  forall st m a,
    ready m a ->
    Forall (fun v => (Index v < List.length a)%nat) (space_variables st) ->
    Forall (fun v => (Index v < List.length a)%nat) (seq_variables st) ->
    Forall (fun i => 0 <= sum (map (Value a) (space_variables st)) + seq_cum st + i <= size)
           offsets ->
    exists a',
      ready (snd (sequence_elements size idx ty offsets st m)) (a ++ a') /\
      Forall (fun v => (Index v < List.length (a ++ a'))%nat)
             (seq_variables (fst (sequence_elements size idx ty offsets st m))).
Proof.
  induction offsets as [|i offsets IH]; intros st m a Hready Hsp Hsq Hpos.
  - exists []. cbn [sequence_elements ret fst snd]. rewrite app_nil_r. now split.
  - inversion Hpos as [|? ? Hi Hpos']; subst.
    cbn [sequence_elements]. unfold bindB.
    set (z := sum (map (Value a) (space_variables st)) + seq_cum st + i) in *.
    destruct (ready_NewIntVar 0 size
                (str idx +++ ty +++ "-el_" +++ str (seq_element st)) m a z Hready Hi)
      as [Hr1 [Hidx Hval]].
    destruct (NewIntVar 0 size _ m) as [el m1]. cbn [fst snd] in *.
    set (ct := LinearEq (expr_var el)
                 (expr_plus (expr_plus (LinearExpr_Sum (space_variables st))
                                       (seq_cum st)) i)).
    assert (Hr2 : ready (snd (Add ct m1)) (a ++ [z])).
    { apply ready_Add; [exact Hr1| |].
      - intros v Hv. cbn [ct vars_of expr_var expr_plus LinearExpr_Sum terms app] in Hv.
        rewrite length_app. cbn [List.length].
        destruct Hv as [<-|Hv]; [lia|].
        rewrite Forall_forall in Hsp. specialize (Hsp v Hv). lia.
      - cbn [ct holdsb]. apply Z.eqb_eq.
        unfold eval, expr_var, expr_plus, LinearExpr_Sum. cbn [terms offset map].
        rewrite Hval, (values_app a [z] _ Hsp). cbn [sum fold_right]. subst z. lia. }
    destruct (Add ct m1) as [u m2]. cbn [fst snd] in *.
    destruct (IH {| space_variables := space_variables st;
                    seq_variables := seq_variables st ++ [el];
                    seq_element := seq_element st + 1;
                    seq_cum := seq_cum st |} m2 (a ++ [z]) Hr2) as [a' [Hr3 Hsc]].
    + cbn [space_variables]. now apply scoped_app.
    + cbn [seq_variables]. apply Forall_app. split; [now apply scoped_app|].
      constructor; [|constructor]. rewrite length_app. cbn [List.length]. lia.
    + cbn [space_variables seq_cum]. rewrite (values_app a [z] _ Hsp). exact Hpos'.
    + exists ([z] ++ a'). rewrite app_assoc. now split.
Qed.

Lemma sequence_elements_spaces size idx ty offsets st m :
  space_variables (fst (sequence_elements size idx ty offsets st m)) = space_variables st /\
  seq_cum (fst (sequence_elements size idx ty offsets st m)) = seq_cum st.
Proof.
  destruct (sequence_elements size idx ty offsets st m) as [st' m'] eqn:H.
  apply sequence_elements_spec in H. cbn [fst]. tauto.
Qed.

Lemma sequences_complete size idx ty space_max nseq :
  forall c seq_index st m a gvals,
    ready m a ->
    Forall (fun v => (Index v < List.length a)%nat) (space_variables st) ->
    Forall (fun v => (Index v < List.length a)%nat) (seq_variables st) ->
    List.length gvals = List.length c ->
    (forall j g, nth_error gvals j = Some g ->
       (if seq_index + Z.of_nat j =? nseq then 0 else 1) <= g <= Z.max 1 space_max) ->
    Forall (fun p => 0 <= p <= size)
           (positions_from (sum (map (Value a) (space_variables st)) + seq_cum st)
                           gvals c) ->
    let st' := fst (sequences size idx ty space_max nseq seq_index c st m) in
    let m' := snd (sequences size idx ty space_max nseq seq_index c st m) in
    exists a' news,
      ready m' (a ++ a') /\
      space_variables st' = space_variables st ++ news /\
      map (Value (a ++ a')) news = gvals /\
      Forall (fun v => (Index v < List.length (a ++ a'))%nat) (space_variables st') /\
      Forall (fun v => (Index v < List.length (a ++ a'))%nat) (seq_variables st').
Proof.
  induction c as [|r c IH]; intros seq_index st m a gvals Hready Hsp Hsq Hlen Hb Hpos;
    cbn zeta.
  - destruct gvals; [|discriminate]. exists [], [].
    cbn [sequences ret fst snd map]. rewrite !app_nil_r.
    split; [exact Hready|]. split; [reflexivity|]. split; [reflexivity|].
    split; assumption.
  - destruct gvals as [|g gvals]; [discriminate|].
    cbn [positions_from] in Hpos. apply Forall_app in Hpos. destruct Hpos as [Hels Hrest].
    cbn [sequences]. unfold bindB.
    destruct (sequence_elements_complete size idx ty (range r) st m a Hready Hsp Hsq)
      as [a1 [Hr1 Hsq1]].
    { apply Forall_forall. intros i Hi. rewrite Forall_forall in Hels. apply Hels.
      apply in_map_iff. exists i. split; [lia | exact Hi]. }
    destruct (sequence_elements_spaces size idx ty (range r) st m) as [Hsp1 Hcum1].
    destruct (sequence_elements size idx ty (range r) st m) as [st1 m1].
    cbn [fst snd] in *.
    set (lo := if seq_index =? nseq then 0 else 1).
    assert (Hg : lo <= g <= Z.max 1 space_max).
    { specialize (Hb O g eq_refl). replace (seq_index + Z.of_nat 0) with seq_index in Hb by lia.
      exact Hb. }
    destruct (ready_NewIntVar lo (Z.max 1 space_max)
                (str idx +++ ty +++ "-space_" +++ str seq_index) m1 (a ++ a1) g Hr1 Hg)
      as [Hr2 [Hidx Hval]].
    destruct (NewIntVar lo (Z.max 1 space_max) _ m1) as [space m2]. cbn [fst snd] in *.
    assert (Hsp' : Forall (fun v => (Index v < List.length ((a ++ a1) ++ [g]))%nat)
                          (space_variables st1 ++ [space])).
    { apply Forall_app. split.
      - rewrite Hsp1. now apply scoped_app, scoped_app.
      - constructor; [|constructor]. rewrite length_app. cbn [List.length]. lia. }
    assert (Hvals : map (Value ((a ++ a1) ++ [g])) (space_variables st)
                    = map (Value a) (space_variables st)).
    { rewrite <- app_assoc. now apply values_app. }
    destruct (IH (seq_index + 1)
                {| space_variables := space_variables st1 ++ [space];
                   seq_variables := seq_variables st1;
                   seq_element := seq_element st1;
                   seq_cum := seq_cum st1 + r |} m2 ((a ++ a1) ++ [g]) gvals Hr2)
      as [a3 [news [Hr3 [Hsp3 [Hv3 [Hsc3 Hsq3]]]]]].
    + exact Hsp'.
    + cbn [seq_variables]. now apply scoped_app.
    + now injection Hlen.
    + intros j g' Hj. specialize (Hb (S j) g' Hj).
      replace (seq_index + 1 + Z.of_nat j) with (seq_index + Z.of_nat (S j)) by lia.
      exact Hb.
    + cbn [space_variables seq_cum]. rewrite Hsp1, Hcum1, map_app, sum_app, Hvals.
      cbn [map sum fold_right]. rewrite Hval.
      replace (sum (map (Value a) (space_variables st)) + (g + 0) + (seq_cum st + r))
        with (sum (map (Value a) (space_variables st)) + seq_cum st + r + g) by lia.
      exact Hrest.
    + cbn zeta in Hr3, Hsp3, Hv3, Hsc3, Hsq3. cbn [space_variables] in Hsp3.
      exists (a1 ++ [g] ++ a3), (space :: news).
      rewrite !app_assoc. rewrite <- (app_assoc a a1 [g]).
      rewrite <- !app_assoc in Hr3, Hv3, Hsc3, Hsq3. rewrite <- !app_assoc.
      split; [exact Hr3|]. split; [rewrite Hsp3, Hsp1, <- app_assoc; reflexivity|].
      split; [|split; [exact Hsc3 | exact Hsq3]].
      cbn [map]. rewrite Hv3. f_equal.
      rewrite (app_assoc a a1), (app_assoc (a ++ a1) [g] a3).
      rewrite Value_app; [exact Hval|]. rewrite length_app. cbn [List.length]. lia.
Qed.

Lemma sum_ones line :
  Forall (fun z => z = 0 \/ z = 1) line -> sum line = ones (map filled line).
Proof.
  unfold ones. induction 1 as [|z line Hz _ IH]; [reflexivity|].
  cbn [map sum fold_right]. fold (sum line).
  fold (sum (map (fun b : bool => if b then 1 else 0) (map filled line))).
  rewrite IH. destruct Hz as [-> | ->]; reflexivity.
Qed.

Lemma positions_in_pattern c :
  forall gs base p,
    Forall (fun r => 0 <= r) c -> Forall (fun g => 0 <= g) gs ->
    In p (positions_from base gs c) ->
    base <= p /\ nth_error (pattern_from gs c) (Z.to_nat (p - base)) = Some true.
Proof.
  induction c as [|r c IH]; intros gs base p Hc Hgs Hp; [destruct Hp|].
  destruct gs as [|g gs]; [destruct Hp|].
  inversion Hc as [|? ? Hr Hc']; inversion Hgs as [|? ? Hg Hgs']; subst.
  cbn [positions_from pattern_from] in *. apply in_app_or in Hp. destruct Hp as [Hp|Hp].
  - apply in_map_iff in Hp. destruct Hp as [o [<- Ho]]. apply in_range in Ho.
    split; [lia|]. rewrite nth_error_app1 by (rewrite repeat_length; lia).
    apply nth_error_repeat. lia.
  - destruct (IH gs (base + r + g) p Hc' Hgs' Hp) as [Hle Hnth]. split; [lia|].
    rewrite nth_error_app2 by (rewrite repeat_length; lia). rewrite repeat_length.
    rewrite nth_error_app2 by (rewrite repeat_length; lia). rewrite repeat_length.
    replace (Z.to_nat (p - base) - Z.to_nat r - Z.to_nat g)%nat
      with (Z.to_nat (p - (base + r + g))) by lia.
    exact Hnth.
Qed.

Lemma gaps_ok_bounds gs :
  gaps_ok gs ->
  forall j g, nth_error gs j = Some g ->
              (if 1 + Z.of_nat j =? len gs then 0 else 1) <= g.
Proof.
  unfold len. induction gs as [|g0 gs IH]; intros Hok j g Hj; [destruct j; discriminate|].
  destruct gs as [|g1 gs1].
  - destruct j as [|j]; [|destruct j; discriminate]. injection Hj as <-. cbn in *. exact Hok.
  - destruct Hok as [Hg0 Hok]. destruct j as [|j]; cbn [nth_error] in Hj.
    + injection Hj as <-. cbn [List.length].
      destruct (Z.eqb_spec (1 + Z.of_nat 0) (Z.of_nat (S (S (List.length gs1))))); lia.
    + specialize (IH Hok j g Hj). cbn [List.length] in *.
      destruct (Z.eqb_spec (1 + Z.of_nat j) (Z.of_nat (S (List.length gs1)))),
               (Z.eqb_spec (1 + Z.of_nat (S j)) (Z.of_nat (S (S (List.length gs1))))); lia.
Qed.

Lemma sum_nonneg gs : Forall (fun g => 0 <= g) gs -> 0 <= sum gs.
Proof.
  induction 1 as [|g gs Hg _ IH]; cbn [sum fold_right]; [lia|]. fold (sum gs). lia.
Qed.

Lemma elem_le_sum gs g : Forall (fun g => 0 <= g) gs -> In g gs -> g <= sum gs.
Proof.
  induction 1 as [|g0 gs Hg0 Hgs IH]; intros Hin; [destruct Hin|].
  cbn [sum fold_right]. fold (sum gs). pose proof (sum_nonneg gs Hgs).
  destruct Hin as [->|Hin]; [lia|]. specialize (IH Hin). lia.
Qed.

Lemma ready_respects m a : ready m a -> respects a m.
Proof. intros [Hsat _]. now apply satisfies_respects. Qed.

Lemma ready_elements vars els :
  forall m a,
    ready m a ->
    (forall el, In el els ->
       (forall v, In v (el :: vars) -> (Index v < List.length a)%nat) /\
       holdsb a (Element el vars 1) = true) ->
    ready (snd (mapB (fun el_var => AddElement el_var vars 1) els m)) a.
Proof.
  induction els as [|el els IH]; intros m a Hready Hels; [exact Hready|].
  cbn [mapB]. unfold bindB, ret, AddElement.
  destruct (Hels el (or_introl eq_refl)) as [Hscope Hholds].
  pose proof (ready_Add (Element el vars 1) m a Hready Hscope Hholds) as Hr1.
  destruct (Add (Element el vars 1) m) as [u m1]. cbn [fst snd] in *.
  specialize (IH m1 a Hr1 (fun el' Hin => Hels el' (or_intror Hin))).
  unfold AddElement in IH.
  destruct (mapB (fun el_var => Add (Element el_var vars 1)) els m1) as [us m2].
  exact IH.
Qed.

(** A line laid out by gap values that fit extends a satisfying assignment
    to the model of its region. *)
Lemma compile_region_complete size idx ty vars c m a g0 gs :
  ready m a ->
  Forall (fun v => (Index v < List.length a)%nat) vars ->
  len vars = size ->
  Forall (fun r => 0 <= r) c ->
  List.length gs = List.length c -> 0 <= g0 -> gaps_ok gs ->
  sum (g0 :: gs) = size - sum c ->
  Forall (fun z => z = 0 \/ z = 1) (map (Value a) vars) ->
  map filled (map (Value a) vars) = pattern (g0 :: gs) c ->
  exists a', ready (snd (compile_region size idx ty vars c m)) (a ++ a').
Proof.
  intros Hready Hvars Hlen Hc Hlgs Hg0 Hgaps Hsum Hbool Hpat.
  pose proof (gaps_ok_nonneg _ Hgaps) as Hgs.
  pose proof (sum_nonneg _ Hgs) as Hsgs.
  cbn [sum fold_right] in Hsum. fold (sum gs) in Hsum.
  unfold compile_region, bindB, ret.
  (* the sum of the cells *)
  set (ct_sum := LinearEq (LinearExpr_Sum vars) (expr_const (sum c))).
  assert (Hr0 : ready (snd (Add ct_sum m)) a).
  { apply ready_Add; [exact Hready| |].
    - intros v Hv. cbn [ct_sum vars_of LinearExpr_Sum expr_const terms] in Hv.
      rewrite app_nil_r in Hv. rewrite Forall_forall in Hvars. now apply Hvars.
    - cbn [ct_sum holdsb]. apply Z.eqb_eq. rewrite eval_sum, eval_const.
      rewrite (sum_ones _ Hbool), Hpat. unfold pattern.
      rewrite ones_app, ones_repeat_false, pattern_from_ones by assumption. lia. }
  destruct (Add ct_sum m) as [u0 m0]. cbn [fst snd] in *.
  (* the leading gap *)
  destruct (ready_NewIntVar 0 (size - sum c) (str idx +++ ty +++ "-space_0") m0 a g0 Hr0)
    as [Hr1 [Hidx0 Hval0]]; [lia|].
  destruct (NewIntVar 0 (size - sum c) _ m0) as [space_0 m1]. cbn [fst snd] in *.
  (* the runs and the gaps after them *)
  set (st0 := {| space_variables := [space_0]; seq_variables := [];
                 seq_element := 0; seq_cum := 0 |}).
  destruct (sequences_complete size idx ty (size - sum c) (len c) c 1 st0 m1
              (a ++ [g0]) gs Hr1) as [a2 [news [Hr2 [Hsp [Hvals [Hsc_sp Hsc_sq]]]]]].
  { cbn [st0 space_variables]. constructor; [|constructor].
    rewrite length_app. cbn [List.length]. lia. }
  { constructor. }
  { exact Hlgs. }
  { intros j g Hj. split.
    - pose proof (gaps_ok_bounds gs Hgaps j g Hj) as Hb. unfold len in *.
      rewrite Hlgs in Hb. exact Hb.
    - pose proof (elem_le_sum gs g Hgs (nth_error_In _ _ Hj)). lia. }
  { cbn [st0 space_variables seq_cum map sum fold_right]. rewrite Hval0.
    apply Forall_forall. intros p Hp.
    replace (g0 + 0 + 0) with g0 in Hp by lia.
    destruct (positions_in_pattern c gs g0 p Hc Hgs Hp) as [Hle Hnth].
    assert (Hlt : (Z.to_nat (p - g0) < List.length (pattern_from gs c))%nat)
      by (apply nth_error_Some; congruence).
    pose proof (pattern_from_length gs c Hc Hgs Hlgs) as Hpl. unfold len in Hpl. lia. }
  cbn zeta in Hr2, Hsp, Hvals, Hsc_sp, Hsc_sq.
  destruct (sequences size idx ty (size - sum c) (len c) 1 c st0 m1) as [st m2] eqn:Hseqs.
  cbn [fst snd] in *.
  apply sequences_spec in Hseqs.
  destruct Hseqs as [_ [news' [newe [Hsp' [Hseq' [_ [_ [_ [Hsem _]]]]]]]]].
  cbn [st0 space_variables seq_variables seq_cum app] in Hsp, Hsp', Hseq', Hsem.
  assert (news' = news) by (rewrite Hsp in Hsp'; now injection Hsp'). subst news'.
  set (a3 := (a ++ [g0]) ++ a2) in *.
  assert (Hv0 : Value a3 space_0 = g0).
  { subst a3. rewrite Value_app; [exact Hval0|]. rewrite length_app. cbn [List.length]. lia. }
  assert (Hvars3 : Forall (fun v => (Index v < List.length a3)%nat) vars).
  { subst a3. now apply scoped_app, scoped_app. }
  assert (Hline3 : map (Value a3) vars = map (Value a) vars).
  { subst a3. rewrite <- app_assoc. now apply values_app. }
  specialize (Hsem a3 (ready_respects _ _ Hr2)).
  cbn [map sum fold_right] in Hsem. rewrite Hv0, Hvals in Hsem.
  replace (g0 + 0 + 0) with g0 in Hsem by lia.
  (* the element constraints *)
  assert (Hr3 : ready (snd (mapB (fun el_var => AddElement el_var vars 1)
                                 (seq_variables st) m2)) a3).
  { apply ready_elements; [exact Hr2|]. intros el Hel. split.
    - intros v [<-|Hv].
      + rewrite Forall_forall in Hsc_sq. now apply Hsc_sq.
      + rewrite Forall_forall in Hvars3. now apply Hvars3.
    - rewrite Hseq' in Hel.
      assert (Hp : In (Value a3 el) (positions_from g0 gs c)).
      { rewrite <- Hsem. now apply in_map. }
      destruct (positions_in_pattern c gs g0 _ Hc Hgs Hp) as [Hle Hnth].
      assert (Hpt : nth_error (pattern (g0 :: gs) c) (Z.to_nat (Value a3 el)) = Some true).
      { unfold pattern. rewrite nth_error_app2 by (rewrite repeat_length; lia).
        rewrite repeat_length.
        replace (Z.to_nat (Value a3 el) - Z.to_nat g0)%nat
          with (Z.to_nat (Value a3 el - g0)) by lia.
        exact Hnth. }
      rewrite <- Hpat, <- Hline3, !nth_error_map in Hpt.
      cbn [holdsb]. destruct (Z.leb_spec 0 (Value a3 el)); [|lia]. cbn [andb].
      destruct (nth_error vars (Z.to_nat (Value a3 el))) as [v|] eqn:Hv; [|discriminate].
      cbn in Hpt. injection Hpt as Hf.
      assert (Hb : Value a3 v = 0 \/ Value a3 v = 1).
      { rewrite <- Hline3 in Hbool. rewrite Forall_map in Hbool.
        rewrite Forall_forall in Hbool. apply Hbool. eapply nth_error_In; eassumption. }
      apply Z.eqb_eq. unfold filled in Hf.
      destruct Hb as [Hb|Hb]; [rewrite Hb in Hf; discriminate | exact Hb]. }
  destruct (mapB (fun el_var => AddElement el_var vars 1) (seq_variables st) m2)
    as [us m3]. cbn [fst snd] in *.
  (* the sum of the gaps *)
  set (ct_spaces := LinearEq (LinearExpr_Sum (space_variables st))
                      (expr_const (size - sum c))).
  assert (Hr4 : ready (snd (Add ct_spaces m3)) a3).
  { apply ready_Add; [exact Hr3| |].
    - intros v Hv. cbn [ct_spaces vars_of LinearExpr_Sum expr_const terms] in Hv.
      rewrite app_nil_r in Hv. rewrite Forall_forall in Hsc_sp. now apply Hsc_sp.
    - cbn [ct_spaces holdsb]. apply Z.eqb_eq. rewrite eval_sum, eval_const, Hsp.
      cbn [map sum fold_right]. rewrite Hv0, Hvals. fold (sum gs). lia. }
  destruct (Add ct_spaces m3) as [u4 m4]. cbn [fst snd] in *.
  exists ([g0] ++ a2). subst a3. rewrite app_assoc. exact Hr4.
Qed.

Lemma repeat_snoc {A : Type} (x : A) n l : repeat x n ++ x :: l = repeat x (S n) ++ l.
Proof. induction n as [|n IH]; cbn [repeat app] in *; [reflexivity | now rewrite IH]. Qed.

(** Every line is laid out by its runs and some gaps. *)
Lemma runs_from_layout line :
  forall k : nat,
    exists g0 gs,
      repeat true k ++ line = pattern (g0 :: gs) (runs_from (Z.of_nat k) line) /\
      List.length gs = List.length (runs_from (Z.of_nat k) line) /\
      0 <= g0 /\ gaps_ok gs.
Proof.
  induction line as [|[|] line IH]; intros k.
  - cbn [runs_from]. rewrite app_nil_r. destruct (Z.ltb_spec 0 (Z.of_nat k)).
    + exists 0, [0]. unfold pattern. cbn [pattern_from Z.to_nat repeat app].
      rewrite Nat2Z.id, app_nil_r. cbn. repeat split; lia.
    + exists 0, []. assert (k = O) by lia. subst k. cbn. repeat split; lia.
  - cbn [runs_from]. destruct (IH (S k)) as [g0 [gs [Heq [Hlen [Hg0 Hgaps]]]]].
    rewrite Nat2Z.inj_succ in Heq, Hlen. unfold Z.succ in Heq, Hlen.
    exists g0, gs. rewrite repeat_snoc. auto.
  - cbn [runs_from]. destruct (IH O) as [g0 [gs [Heq [Hlen [Hg0 Hgaps]]]]].
    cbn [repeat app Z.of_nat] in Heq, Hlen.
    assert (Hgaps' : gaps_ok ((g0 + 1) :: gs)).
    { destruct gs; cbn [gaps_ok]; [lia | split; [lia | exact Hgaps]]. }
    assert (Hfalse : repeat false (Z.to_nat (g0 + 1)) = false :: repeat false (Z.to_nat g0)).
    { replace (Z.to_nat (g0 + 1)) with (S (Z.to_nat g0)) by lia. reflexivity. }
    destruct (Z.ltb_spec 0 (Z.of_nat k)).
    + exists 0, ((g0 + 1) :: gs). unfold pattern in *.
      cbn [pattern_from Z.to_nat repeat app List.length].
      rewrite Nat2Z.id, Hfalse. cbn [app]. rewrite <- Heq.
      repeat split; auto; lia.
    + assert (k = O) by lia. subst k. exists (g0 + 1), gs. unfold pattern in *.
      rewrite Hfalse. cbn [repeat app]. rewrite <- Heq. repeat split; auto; lia.
Qed.

Lemma runs_from_nonneg line :
  forall current, Forall (fun r => 0 <= r) (runs_from current line).
Proof.
  induction line as [|[|] line IH]; intros current; cbn [runs_from].
  - destruct (Z.ltb_spec 0 current); constructor; [lia | constructor].
  - apply IH.
  - destruct (Z.ltb_spec 0 current); [constructor; [lia|]|]; apply IH.
Qed.

Lemma runs_layout line :
  exists g0 gs,
    line = pattern (g0 :: gs) (runs line) /\
    List.length gs = List.length (runs line) /\ 0 <= g0 /\ gaps_ok gs /\
    sum (g0 :: gs) = len line - sum (runs line).
Proof.
  destruct (runs_from_layout line O) as [g0 [gs [Heq [Hlen [Hg0 Hgaps]]]]].
  cbn [repeat app Z.of_nat] in Heq, Hlen. fold (runs line) in Heq, Hlen.
  exists g0, gs. repeat split; auto.
  pose proof (pattern_from_length gs (runs line) (runs_from_nonneg line 0)
                (gaps_ok_nonneg _ Hgaps) Hlen) as Hpl.
  rewrite Heq at 1. unfold pattern, len in *. rewrite length_app, repeat_length.
  cbn [sum fold_right]. fold (sum gs). lia.
Qed.

Lemma grid_of_app a a' cp_cell :
  (forall v, In v (List.concat cp_cell) -> (Index v < List.length a)%nat) ->
  grid_of (a ++ a') cp_cell = grid_of a cp_cell.
Proof.
  intros H. unfold grid_of. apply map_ext_in. intros row Hrow.
  apply map_ext_in. intros v Hv. rewrite Value_app; [reflexivity|].
  apply H, in_concat. exists row. now split.
Qed.

(** From a grid that meets the constraint of every region, a satisfying
    assignment of the cells extends to the whole model. *)
Lemma compile_regions_complete b cp_cell m0 data :
  board_shape b -> cells_ok (size b) cp_cell m0 ->
  forall rs collected m a,
    (forall r, In r rs -> In r (regions b)) ->
    (forall r, In r rs -> region_taken (size b) (constraint r) = true) ->
    extends m0 m -> ready m a ->
    (forall v, In v (List.concat cp_cell) -> (Index v < List.length a)%nat) ->
    grid_of a cp_cell = data ->
    (forall r, In r rs ->
       exists line, region_line data r = Ok line /\ runs line = constraint r) ->
    exists a' out,
      compile_regions (size b) cp_cell rs collected m = Ok out /\
      ready (snd out) (a ++ a').
Proof.
  intros Hshape Hok. induction rs as [|r rs IH];
    intros collected m a Hin Htaken Hext Hready Hscope Hgrid Hruns.
  - exists [], (collected, m). cbn [compile_regions snd]. rewrite app_nil_r. now split.
  - cbn [compile_regions].
    destruct (region_view_spec b cp_cell m0 r Hshape Hok (Hin r (or_introl eq_refl)))
      as [ty [idx [vars [Hview [_ [Hvars [Hcoords Hlen]]]]]]].
    rewrite Hview. cbn [bind]. rewrite (Htaken r (or_introl eq_refl)).
    destruct (Hruns r (or_introl eq_refl)) as [line [Hline Hrun]].
    rewrite <- Hgrid, (region_line_grid a cp_cell r vars (size b) Hvars Hcoords) in Hline.
    injection Hline as Hline.
    destruct (runs_layout line) as [g0 [gs [Hpat [Hlgs [Hg0 [Hgaps Hsum]]]]]].
    rewrite Hrun in Hpat, Hlgs, Hsum.
    assert (Hvars_in : forall u, In u vars -> In u (List.concat cp_cell)).
    { clear - Hvars. induction Hvars as [|p u ps us Hp _ IH']; intros w Hw;
        [destruct Hw|]. destruct Hw as [<-|Hw]; [|now apply IH'].
      eapply var_at_in_cells; eassumption. }
    assert (Hok_m : cells_ok (size b) cp_cell m) by (eapply cells_ok_extends; eassumption).
    assert (Hbool : Forall (fun z => z = 0 \/ z = 1) (map (Value a) vars)).
    { apply Forall_map. clear - Hvars Hok_m Hready.
      induction Hvars as [|p u ps us Hp _ IH']; constructor; auto.
      pose proof (respects_declared _ _ _ _ _ (ready_respects _ _ Hready)
                    (var_at_declared _ _ _ _ _ Hok_m Hp)). lia. }
    destruct (compile_region_complete (size b) idx ty vars (constraint r) m a g0 gs Hready)
      as [a1 Hr1]; auto.
    { apply Forall_forall. intros u Hu. now apply Hscope, Hvars_in. }
    { rewrite <- Hrun. apply runs_from_nonneg. }
    { rewrite Hsum, <- Hline. unfold len in *. rewrite !length_map. lia. }
    { now rewrite Hline. }
    destruct (compile_region (size b) idx ty vars (constraint r) m)
      as [[spaces seqs] m'] eqn:Hc.
    cbn [snd] in Hr1.
    pose proof (compile_region_spec _ _ _ _ _ _ _ _ _ Hc) as [Hext' _].
    destruct (IH (collected ++ spaces ++ seqs) m' (a ++ a1)) as [a2 [out [Hrun2 Hr2]]].
    + intros r' Hr'. apply Hin. now right.
    + intros r' Hr'. apply Htaken. now right.
    + eapply extends_trans; eassumption.
    + exact Hr1.
    + intros v Hv. rewrite length_app. specialize (Hscope v Hv). lia.
    + rewrite grid_of_app; assumption.
    + intros r' Hr'. apply Hruns. now right.
    + exists (a1 ++ a2), out. rewrite <- app_assoc in Hr2. now split.
Qed.

Lemma cell_of_cell_value c : {| value := filled (cell_value c) |} = c.
Proof. destruct c as [[|]]; reflexivity. Qed.

(** X9: [solve] finds every solution: with a solver that reports exactly the
    satisfying assignments, each full grid whose runs of filled cells along
    every region are the region's constraint is the grid of one of the
    stored solutions. *)
Theorem solve_finds_every_grid search b b' data :
  enumerates_all search -> board_shape b -> solve search b = Ok b' ->
  full_grid (size b) data ->
  (forall r, In r (regions b) ->
     exists line, region_line data r = Ok line /\ runs line = constraint r) ->
  exists solution,
    In solution (solutions b') /\ solution_data (size b) solution = Ok data.
Proof.
  intros Hsearch Hshape Hsolve [Hrows Hcols] Hruns.
  pose proof (solve_taken _ _ _ Hsolve) as Htaken.
  unfold library_takes in Htaken. rewrite Forall_forall in Htaken.
  unfold solve, compile in Hsolve.
  destruct (new_cells_spec (size b) CpModel_init) as [_ Hok0].
  set (valss := map (map cell_value) data).
  assert (Hinit : ready CpModel_init []).
  { split; [reflexivity | intros ct []]. }
  destruct (new_cells_rows_complete (size b) (range (size b)) valss CpModel_init []
              Hinit) as [Hr0 [Hvals Hsc0]].
  { unfold valss. rewrite length_map, range_length. unfold len in Hrows. lia. }
  { unfold valss. apply Forall_map. eapply Forall_impl; [|exact Hcols].
    intros row Hrow. cbn beta in Hrow. split.
    - unfold len in Hrow. rewrite length_map. lia.
    - apply Forall_map, Forall_forall. intros c _. unfold cell_value.
      destruct (value c); lia. }
  cbn zeta in Hr0, Hvals, Hsc0. fold (new_cells (size b)) in Hr0, Hvals, Hsc0.
  destruct (new_cells (size b) CpModel_init) as [cp_cell m0]. cbn [fst snd app] in *.
  set (a0 := List.concat valss) in *.
  assert (Hgrid : grid_of a0 cp_cell = data).
  { unfold grid_of.
    transitivity (map (map (fun z => {| value := filled z |}))
                      (map (map (Value a0)) cp_cell)).
    - rewrite map_map. apply map_ext. intros row. now rewrite map_map.
    - rewrite Hvals. unfold valss. rewrite map_map.
      rewrite <- (map_id data) at 2. apply map_ext. intros row.
      rewrite map_map. rewrite <- (map_id row) at 2. apply map_ext.
      apply cell_of_cell_value. }
  assert (Hscope : forall v, In v (List.concat cp_cell) -> (Index v < List.length a0)%nat).
  { intros v Hv. apply in_concat in Hv. destruct Hv as [row [Hrow Hv]].
    rewrite Forall_forall in Hsc0. specialize (Hsc0 row Hrow).
    rewrite Forall_forall in Hsc0. now apply Hsc0. }
  destruct (compile_regions_complete b cp_cell m0 data Hshape Hok0 (regions b) [] m0 a0)
    as [a' [[collected mf] [Hrun Hready]]]; auto using extends_refl.
  cbn [snd] in Hready.
  destruct (compile_regions_spec b cp_cell m0 Hshape Hok0 (regions b) [] m0)
    as [c2 [mf2 [added [Hrun' [Hext [Hcol [Hnames _]]]]]]]; [auto | exact Htaken |].
  rewrite Hrun in Hrun'. injection Hrun' as <- <-. cbn [app] in Hcol.
  rewrite Hrun in Hsolve. cbn [bind fst snd cp_model cp_cells cp_region] in Hsolve.
  injection Hsolve as <-. cbn [solutions].
  exists (on_solution_callback (List.concat cp_cell ++ collected) (a0 ++ a')). split.
  - apply in_map, Hsearch. now destruct Hready.
  - rewrite (solution_data_grid (size b) cp_cell mf collected (a0 ++ a')).
    + now rewrite grid_of_app, Hgrid.
    + eapply cells_ok_extends; eassumption.
    + rewrite Hcol. exact Hnames.
Qed.

Lemma solve_finds_every_grid_witness :
  exists b b' solution,
    puzzle 2 [[1]; []] [[1]; []] = Ok b /\ solve brute_force b = Ok b' /\
    In solution (solutions b') /\
    solution_data 2 solution
    = Ok [ [ {| value := true |}; {| value := false |} ];
           [ {| value := false |}; {| value := false |} ] ].
Proof.
  pose (b := {| size := 2; board := repeat (repeat Cell_init 2) 2;
                regions := [ {| region := region (row_region 2 0); constraint := [1] |};
                             {| region := region (column_region 2 0); constraint := [1] |};
                             {| region := region (row_region 2 1); constraint := [] |};
                             {| region := region (column_region 2 1); constraint := [] |} ];
                solutions := [] |}).
  assert (Hs : exists b', solve brute_force b = Ok b').
  { eexists. vm_compute. reflexivity. }
  destruct Hs as [b' Hs].
  destruct (solve_finds_every_grid brute_force b b'
              [ [ {| value := true |}; {| value := false |} ];
                [ {| value := false |}; {| value := false |} ] ]
              brute_force_enumerates_all) as [s [Hin Hdata]].
  - reflexivity.
  - exact Hs.
  - split; [reflexivity | repeat constructor].
  - intros r Hr. cbn [regions b In] in Hr.
    destruct Hr as [<- | [<- | [<- | [<- | []]]]]; eexists;
      (split; [vm_compute; reflexivity | reflexivity]).
  - exists b, b', s. split; [vm_compute; reflexivity|]. split; [exact Hs|].
    split; [exact Hin | exact Hdata].
Defined.

(** ** When [print] returns its text *)

Lemma getitem_ok_iff {A : Type} (l : list A) (i : Z) :
  0 <= i -> ((exists a, getitem l i = Ok a) <-> i < len l).
Proof.
  intros Hi. unfold getitem, len. destruct (Z.ltb_spec i 0); [lia|].
  destruct (Z.ltb_spec i 0); [lia|].
  destruct (nth_error l (Z.to_nat i)) as [a|] eqn:E.
  - split; [|eauto]. intros _.
    assert (Z.to_nat i < List.length l)%nat by (apply nth_error_Some; congruence). lia.
  - apply nth_error_None in E. split; [intros [a Ha]; discriminate | lia].
Qed.

Lemma mapM_total {A B : Type} (f : A -> result B) (l : list A) :
  (forall a, In a l -> exists b, f a = Ok b) -> exists bs, mapM f l = Ok bs.
Proof.
  induction l as [|a l IH]; intros H; cbn [mapM]; [eauto|].
  destruct (H a (or_introl eq_refl)) as [b ->].
  destruct IH as [bs ->]; [intros a' Ha'; apply H; now right|].
  cbn [bind]. eauto.
Qed.

Lemma filterM_total {A : Type} (p : A -> result bool) (l : list A) :
  (forall a, In a l -> exists b, p a = Ok b) ->
  exists kept, filterM p l = Ok kept /\
               forall a, In a kept <-> In a l /\ p a = Ok true.
Proof.
  induction l as [|a l IH]; intros H; cbn [filterM].
  - exists []. split; [reflexivity|]. intros a. split; [intros [] | intros [[] _]].
  - destruct (H a (or_introl eq_refl)) as [b Hb].
    destruct IH as [kept [Hk Hin]]; [intros a' Ha'; apply H; now right|].
    rewrite Hb, Hk. cbn [bind]. eexists. split; [reflexivity|].
    intros a'. destruct b; cbn [In]; rewrite Hin; split.
    + intros [<- | [H1 H2]]; auto.
    + intros [[<- | H1] H2]; auto.
    + intros [H1 H2]; auto.
    + intros [[<- | H1] H2]; [congruence | auto].
Qed.

Lemma py_max_total l : l <> [] -> exists m, py_max l = Ok m.
Proof. destruct l; [congruence | cbn [py_max]; eauto]. Qed.

(** On a board of two rows or more each region is a row or a column, and
    not both. *)
Lemma board_shape_kinds b r :
  board_shape b -> 2 <= size b -> In r (regions b) ->
  (is_row r = Ok true /\ is_column r = Ok false) \/
  (is_row r = Ok false /\ is_column r = Ok true).
Proof.
  intros Hshape Hn Hr.
  assert (Hone : (size b =? 1) = false) by (apply Z.eqb_neq; lia).
  destruct (board_shape_lines b r Hshape Hr) as [i [Hi [Hline | Hline]]].
  - left. rewrite (is_row_row_line (size b) i ltac:(lia) r Hline),
            (is_column_row_line (size b) i ltac:(lia) r Hline), Hone. auto.
  - right. rewrite (is_row_column_line (size b) i ltac:(lia) r Hline),
             (is_column_column_line (size b) i ltac:(lia) r Hline), Hone. auto.
Qed.

Lemma board_shape_has_column b :
  board_shape b -> 0 < size b ->
  exists r, In r (regions b) /\ is_column r = Ok true.
Proof.
  intros Hshape Hn.
  destruct (constructed_regions_nth (size b) 0 ltac:(lia)) as [_ Hcol].
  destruct (board_shape_nth b _ _ Hshape Hcol) as [r [Hr Hreg]].
  exists r. split; [eapply nth_error_In; eassumption|].
  apply (is_column_column_line (size b) 0 Hn r). exact Hreg.
Qed.

Lemma column_maxima_total rs :
  (forall r, In r rs -> exists v, is_column r = Ok v) ->
  (forall r, In r rs -> is_column r = Ok true -> constraint r <> []) ->
  exists ms, column_maxima rs = Ok ms /\
             ((exists r, In r rs /\ is_column r = Ok true) -> ms <> []).
Proof.
  induction rs as [|r rs IH]; intros Htot Hne; cbn [column_maxima].
  - exists []. split; [reflexivity|]. intros [r [[] _]].
  - destruct IH as [ms [Hms Hsome]].
    { intros r' Hr'. apply Htot. now right. }
    { intros r' Hr'. apply Hne. now right. }
    destruct (Htot r (or_introl eq_refl)) as [[|] Hv]; rewrite Hv; cbn [bind].
    + destruct (py_max_total (constraint r) (Hne r (or_introl eq_refl) Hv)) as [m ->].
      rewrite Hms. cbn [bind]. eexists. split; [reflexivity|]. discriminate.
    + exists ms. split; [exact Hms|]. intros [r' [[<- | Hr'] Hc]]; [congruence|].
      apply Hsome. eauto.
Qed.

(** An entry of the column header is read inside the constraint. *)
Lemma column_entry_total max_constraint index table_space r :
  0 <= index < max_constraint -> len (constraint r) <= max_constraint ->
  exists s, column_entry max_constraint index table_space r = Ok s.
Proof.
  intros Hi Hlen. unfold column_entry.
  destruct (Z.ltb_spec (len (constraint r)) max_constraint).
  - destruct (Z.leb_spec (max_constraint - index) (len (constraint r))); [|eauto].
    destruct (proj2 (getitem_ok_iff (constraint r)
                       (Z.abs (max_constraint - len (constraint r) - index))
                       (Z.abs_nonneg _))) as [msg ->]; [lia|].
    cbn [bind]. eauto.
  - destruct (proj2 (getitem_ok_iff (constraint r) index ltac:(lia))) as [msg ->]; [lia|].
    cbn [bind]. eauto.
Qed.

(** The loop over the rows reads one line of the grid for each row region. *)
Lemma row_lines_shape n data left_space table_space :
  2 <= n ->
  forall indices rs k,
    map region rs
    = map region (flat_map (fun i => [row_region n i; column_region n i]) indices) ->
    0 <= k ->
    ((exists text, row_lines data left_space table_space k rs = Ok text) <->
     (indices = [] \/ k + len indices <= len data)).
Proof.
  intros Hn. induction indices as [|i indices IH]; intros rs k Hmap Hk.
  - destruct rs; [|discriminate]. cbn [row_lines]. split; eauto.
  - cbn [flat_map app map] in Hmap. destruct rs as [|r1 [|r2 rs]]; try discriminate.
    injection Hmap as H1 H2 Hrest.
    cbn [row_lines].
    rewrite (is_row_row_line n i ltac:(lia) r1 H1). cbn [bind].
    rewrite (is_row_column_line n i ltac:(lia) r2 H2).
    replace (n =? 1) with false by (symmetry; apply Z.eqb_neq; lia). cbn [bind].
    specialize (IH rs (k + 1) Hrest ltac:(lia)).
    pose proof (getitem_ok_iff data k Hk) as Hget.
    assert (Hlen : len (i :: indices) = 1 + len indices).
    { unfold len. cbn [List.length]. lia. }
    assert (Hpos : 0 <= len indices) by (unfold len; lia).
    assert (Hnil : indices = [] <-> len indices = 0).
    { destruct indices; unfold len; cbn [List.length]; split; (congruence || lia). }
    split.
    + intros [text Htext]. right.
      destruct (getitem data k) as [cells|e] eqn:Hcells; [|discriminate].
      cbn [bind] in Htext.
      destruct (row_lines data left_space table_space (k + 1) rs) as [rest|e] eqn:Hrest';
        [|discriminate].
      assert (k < len data) by (apply Hget; eauto).
      destruct (proj1 IH (ex_intro _ rest eq_refl)) as [Hi | Hi]; [apply Hnil in Hi|]; lia.
    + intros [Hi | Hi]; [discriminate|].
      destruct (proj2 Hget ltac:(lia)) as [cells ->]. cbn [bind].
      destruct (proj2 IH) as [rest ->].
      { destruct (Z.eq_dec (len indices) 0) as [H0 | H0]; [left; now apply Hnil | right; lia]. }
      cbn [bind]. eauto.
Qed.

Lemma print_succeeds b data :
  board_shape b -> 2 <= size b ->
  (forall r, In r (regions b) -> is_column r = Ok true -> constraint r <> []) ->
  size b <= len (match data with None => board b | Some d => d end) ->
  exists text, print b data = Ok text.
Proof.
  intros Hshape Hn Hne Hrows.
  assert (Htot : forall r, In r (regions b) -> exists v, is_column r = Ok v).
  { intros r Hr. destruct (board_shape_kinds b r Hshape Hn Hr) as [[_ ->] | [_ ->]]; eauto. }
  destruct (board_shape_has_column b Hshape ltac:(lia)) as [r0 [Hr0 Hc0]].
  unfold print.
  destruct (py_max_total (map (fun r => len (constraint r)) (regions b))) as [ml Hml].
  { destruct (regions b); [destruct Hr0 | discriminate]. }
  unfold left_space_of. rewrite Hml. cbn [bind].
  destruct (column_maxima_total (regions b) Htot Hne) as [ms [Hms Hsome]].
  destruct (py_max_total ms (Hsome (ex_intro _ r0 (conj Hr0 Hc0)))) as [mt Hmt].
  unfold table_space_of. rewrite Hms. cbn [bind]. rewrite Hmt. cbn [bind].
  destruct (filterM_total is_column (regions b) Htot) as [columns [Hcolumns Hin]].
  rewrite Hcolumns. cbn [bind].
  destruct (py_max_total (map (fun r => len (constraint r)) columns)) as [mc Hmc].
  { assert (In r0 columns) by (apply Hin; auto). destruct columns; [contradiction | discriminate]. }
  rewrite Hmc. cbn [bind].
  destruct (mapM_total
              (column_line b (ml * 2) (str_len (str mt)) mc) (range mc)) as [header ->].
  { intros index Hindex. apply in_range in Hindex. unfold column_line.
    rewrite Hcolumns. cbn [bind].
    destruct (mapM_total (column_entry mc index (str_len (str mt))) columns)
      as [entries ->]; [|cbn [bind]; eauto].
    intros r Hr. apply column_entry_total; [exact Hindex|].
    apply (proj2 (py_max_spec _ _ Hmc)). apply in_map_iff. eauto. }
  cbn [bind].
  destruct (proj2 (row_lines_shape (size b)
                     (match data with None => board b | Some d => d end)
                     (ml * 2) (str_len (str mt)) Hn (range (size b)) (regions b) 0
                     Hshape ltac:(lia))) as [rows Hrows'].
  { right. rewrite len_range. lia. }
  destruct data; rewrite Hrows'; cbn [bind]; eauto.
Qed.

Lemma print_needs b data text :
  board_shape b -> 2 <= size b -> print b data = Ok text ->
  (forall r, In r (regions b) -> is_column r = Ok true -> constraint r <> []) /\
  size b <= len (match data with None => board b | Some d => d end).
Proof.
  intros Hshape Hn Hprint. unfold print in Hprint.
  destruct (left_space_of b) as [ls|e]; [|discriminate]. cbn [bind] in Hprint.
  destruct (table_space_of b) as [ts|e] eqn:Hts; [|discriminate]. cbn [bind] in Hprint.
  destruct (filterM is_column (regions b)) as [columns|e]; [|discriminate].
  cbn [bind] in Hprint.
  destruct (py_max (map (fun r => len (constraint r)) columns)) as [mc|e]; [|discriminate].
  cbn [bind] in Hprint.
  destruct (mapM (column_line b ls ts mc) (range mc)) as [header|e]; [|discriminate].
  cbn [bind] in Hprint.
  destruct (row_lines (match data with None => board b | Some d => d end) ls ts 0
                      (regions b)) as [rows|e] eqn:Hrows; [|discriminate].
  split.
  - intros r Hr Hcol Hempty. unfold table_space_of in Hts.
    destruct (column_maxima (regions b)) as [ms|e] eqn:Hms; [|discriminate].
    destruct (proj2 (column_maxima_spec _ _ Hms) r Hr Hcol) as [m [_ Hm]].
    rewrite Hempty in Hm. discriminate.
  - destruct (proj1 (row_lines_shape (size b) _ ls ts Hn (range (size b)) (regions b) 0
                       Hshape ltac:(lia)) (ex_intro _ rows Hrows)) as [Hnil | Hlen].
    + pose proof (len_range (size b)) as Hl. rewrite Hnil in Hl.
      unfold len in Hl. cbn [List.length Z.of_nat] in Hl. lia.
    + rewrite len_range in Hlen. lia.
Qed.

(** X10: [print] returns its text exactly when every column region has a run
    and the grid shown has a line for every row: on a board of two rows or
    more, nothing else in [print] can raise. *)
Theorem print_returns_text_iff b data :
  board_shape b -> 2 <= size b ->
  ((exists text, print b data = Ok text) <->
   (forall r, In r (regions b) -> is_column r = Ok true -> constraint r <> []) /\
   size b <= len (match data with None => board b | Some d => d end)).
Proof.
  intros Hshape Hn. split.
  - intros [text Htext]. eapply print_needs; eassumption.
  - intros [Hne Hrows]. now apply print_succeeds.
Qed.

Lemma print_returns_text_iff_witness :
  exists b,
    puzzle 2 [[1]; [2]] [[1]; [1; 1]] = Ok b /\
    ((exists text, print b None = Ok text) <->
     (forall r, In r (regions b) -> is_column r = Ok true -> constraint r <> []) /\
     size b <= len (board b)).
Proof.
  eexists. split; [vm_compute; reflexivity|].
  match goal with
  | |- context [regions ?bb] => apply (print_returns_text_iff bb None)
  end.
  - reflexivity.
  - cbn [size]. lia.
Defined.

(** ** A board of one cell *)

(** X11: on a board of size 1 the single cell is a row and a column at once, so
    the loop over the rows of [print] reads two lines of the grid: with the
    board's own grid, or the grid of a solution, which have one line,
    [print] never returns its text. *)
Theorem print_1x1_raises b data :
  board_shape b -> size b = 1 ->
  len (match data with None => board b | Some d => d end) <= 1 ->
  forall text, print b data <> Ok text.
Proof.
  intros Hshape Hn Hrows text Hprint. unfold board_shape in Hshape.
  rewrite Hn in Hshape. cbn in Hshape.
  destruct (regions b) as [|r1 [|r2 [|r3 rs]]] eqn:Hregions; try discriminate.
  injection Hshape as H1 H2.
  unfold print in Hprint. rewrite Hregions in Hprint.
  destruct (left_space_of b) as [ls|e]; [|discriminate]. cbn [bind] in Hprint.
  destruct (table_space_of b) as [ts|e]; [|discriminate]. cbn [bind] in Hprint.
  destruct (filterM is_column [r1; r2]) as [columns|e]; [|discriminate].
  cbn [bind] in Hprint.
  destruct (py_max (map (fun r => len (constraint r)) columns)) as [mc|e]; [|discriminate].
  cbn [bind] in Hprint.
  destruct (mapM (column_line b ls ts mc) (range mc)) as [header|e]; [|discriminate].
  cbn [bind] in Hprint.
  destruct (row_lines (match data with None => board b | Some d => d end) ls ts 0
                      [r1; r2]) as [rows|e] eqn:Hlines; [|discriminate].
  cbn [row_lines] in Hlines.
  assert (Hr1 : is_row r1 = Ok true).
  { unfold is_row. rewrite H1. reflexivity. }
  assert (Hr2 : is_row r2 = Ok true).
  { unfold is_row. rewrite H2. reflexivity. }
  rewrite Hr1, Hr2 in Hlines. cbn [bind] in Hlines.
  destruct (getitem _ 0) as [cells|e]; [|discriminate]. cbn [bind] in Hlines.
  destruct (getitem _ (0 + 1)) as [cells'|e] eqn:Hget; [|discriminate].
  assert (0 + 1 < len (match data with None => board b | Some d => d end)).
  { apply getitem_ok_iff; [lia | eauto]. }
  lia.
Qed.

Lemma print_1x1_raises_witness :
  exists b,
    puzzle 1 [[1]] [[1]] = Ok b /\ forall text, print b None <> Ok text.
Proof.
  eexists. split; [vm_compute; reflexivity|].
  match goal with
  | |- context [print ?bb None] => apply (print_1x1_raises bb None)
  end.
  - reflexivity.
  - reflexivity.
  - vm_compute. discriminate.
Defined.

(** ** [print_solutions] after [solve] *)

(** X12: after [solve], on a board of two rows or more, [print_solutions]
    returns its text exactly when no solution was stored or every column
    region has a run: each stored solution is recomposed into a grid with a
    line for every row, so only the widths of [print] can raise. *)
Theorem print_solutions_after_solve search b b' :
  board_shape b -> 2 <= size b -> solve search b = Ok b' ->
  ((exists text, print_solutions b' = Ok text) <->
   (solutions b' = [] \/
    forall r, In r (regions b) -> is_column r = Ok true -> constraint r <> [])).
Proof.
  intros Hshape Hn Hsolve. pose proof (solve_taken _ _ _ Hsolve) as Htaken.
  rewrite solve_compile in Hsolve.
  destruct (compile_spec b Hshape Htaken)
    as [cm [cp_cell [Hcm [Hok [Hcells [Hnames _]]]]]].
  rewrite Hcm in Hsolve. cbn [bind] in Hsolve. injection Hsolve as <-.
  unfold print_solutions. cbn [solutions]. rewrite Hcells.
  set (b' := {| size := size b; board := board b; regions := regions b;
               solutions := _ |}).
  assert (Hshape' : board_shape b') by exact Hshape.
  generalize (search (cp_model cm)) as sols. generalize 1 as index. intros index sols.
  revert index. induction sols as [|a sols IH]; intros index.
  - cbn [map solution_sections]. split; eauto.
  - cbn [map solution_sections].
    change (size b') with (size b).
    rewrite (solution_data_grid (size b) cp_cell (cp_model cm) (cp_region cm) a Hok Hnames).
    cbn [bind]. split.
    + intros [text Htext]. right.
      destruct (print b' (Some (grid_of a cp_cell))) as [shown|e] eqn:Hshown; [|discriminate].
      exact (proj1 (print_needs b' _ _ Hshape' Hn Hshown)).
    + intros [Hnil | Hcolumns]; [discriminate|].
      destruct (print_succeeds b' (Some (grid_of a cp_cell)) Hshape' Hn Hcolumns)
        as [shown ->].
      { destruct (grid_of_full (size b) cp_cell (cp_model cm) a Hok) as [Hlen _].
        cbn [size b']. lia. }
      cbn [bind]. destruct (proj2 (IH (index + 1))) as [rest ->]; [now right|].
      cbn [bind]. eauto.
Qed.

Lemma print_solutions_after_solve_witness :
  exists b b',
    puzzle 2 [[1]; []] [[1]; []] = Ok b /\ solve brute_force b = Ok b' /\
    ((exists text, print_solutions b' = Ok text) <->
     (solutions b' = [] \/
      forall r, In r (regions b) -> is_column r = Ok true -> constraint r <> [])).
Proof.
  eexists. eexists. split; [vm_compute; reflexivity|]. split; [vm_compute; reflexivity|].
  match goal with
  | |- context [print_solutions ?bb'] =>
      apply (print_solutions_after_solve brute_force
               {| size := 2; board := repeat (repeat Cell_init 2) 2;
                  regions := [ {| region := region (row_region 2 0); constraint := [1] |};
                               {| region := region (column_region 2 0); constraint := [1] |};
                               {| region := region (row_region 2 1); constraint := [] |};
                               {| region := region (column_region 2 1); constraint := [] |} ];
                  solutions := [] |} bb')
  end.
  - reflexivity.
  - cbn [size]. lia.
  - vm_compute. reflexivity.
Defined.
